(** * AutoGem: completion-triggering and context-assembly pipeline

    A shallow embedding of the TypeScript sources of the AutoGem editor
    extension (helpers/utils.ts, helpers/language-features.ts,
    helpers/model-manager.ts, helpers/multiline-provider.ts and
    extension.ts) together with the properties stated about them.

    JavaScript strings are sequences of UTF-16 code units; they are
    modelled as lists of [N].  Exceptions are modelled by the [Result]
    type, module-level mutable state by explicit state passing, and the
    timer / promise machinery of [debounce] by an event-driven step
    function. *)

From Stdlib Require Import NArith ZArith Lia Bool Ascii String.
From stdpp Require Import base option list gmap strings.

Set Default Proof Using "Type".

(** ** JavaScript strings *)

Module JS.

Abbreviation char := N (only parsing).
Abbreviation jsstring := (list N) (only parsing).

(** String literals of the sources, read as code-unit sequences. *)
Fixpoint str (s : string) : jsstring :=
  match s with
  | EmptyString => []
  | String a rest => N_of_ascii a :: str rest
  end.

(** The line feed, written [\n] in the sources. *)
Definition nl : char := 10%N.

(** ECMAScript WhiteSpace and LineTerminator code points: the set removed
    by [String.prototype.trim] and matched by the regex class [\s]. *)
Definition isWhiteSpace (c : char) : bool :=
  ((9 <=? c) && (c <=? 13) || (c =? 32) || (c =? 160) || (c =? 5760)
   || (8192 <=? c) && (c <=? 8202) || (c =? 8232) || (c =? 8233)
   || (c =? 8239) || (c =? 8287) || (c =? 12288) || (c =? 65279))%N.

(** The regex class [\w], i.e. [A-Za-z0-9_]. *)
Definition isWordChar (c : char) : bool :=
  ((65 <=? c) && (c <=? 90) || (97 <=? c) && (c <=? 122)
   || (48 <=? c) && (c <=? 57) || (c =? 95))%N.

Fixpoint dropWhile (p : char -> bool) (s : jsstring) : jsstring :=
  match s with
  | [] => []
  | c :: rest => if p c then dropWhile p rest else s
  end.

Definition trimStart (s : jsstring) : jsstring := dropWhile isWhiteSpace s.

Definition trimEnd (s : jsstring) : jsstring := rev (trimStart (rev s)).

Definition trim (s : jsstring) : jsstring := trimEnd (trimStart s).

Fixpoint takeWhile (p : char -> bool) (s : jsstring) : jsstring :=
  match s with
  | [] => []
  | c :: rest => if p c then c :: takeWhile p rest else []
  end.

(** [s.match(/^\s*/)[0]]: the maximal run of leading white space. *)
Definition leadingWhitespace (s : jsstring) : jsstring :=
  takeWhile isWhiteSpace s.

Fixpoint startsWith (s p : jsstring) {struct p} : bool :=
  match p, s with
  | [], _ => true
  | _ :: _, [] => false
  | a :: p', b :: s' => (a =? b)%N && startsWith s' p'
  end.

Definition endsWith (s p : jsstring) : bool := startsWith (rev s) (rev p).

(** [s.indexOf(p)], with [-1] when [p] does not occur. *)
Fixpoint indexOf (s p : jsstring) : Z :=
  if startsWith s p then 0%Z
  else match s with
       | [] => (-1)%Z
       | _ :: rest =>
           let i := indexOf rest p in
           if (i <? 0)%Z then (-1)%Z else (i + 1)%Z
       end.

Definition includes (s p : jsstring) : bool := (0 <=? indexOf s p)%Z.

(** [s.substring(0, n)] and [s.substring(n)]. *)
Definition substringTo (s : jsstring) (n : nat) : jsstring := take n s.
Definition substringFrom (s : jsstring) (n : nat) : jsstring := drop n s.

(** [s.split("\n")]: always at least one piece. *)
Fixpoint splitLines (s : jsstring) : list jsstring :=
  match s with
  | [] => [[]]
  | c :: rest =>
      if (c =? nl)%N then [] :: splitLines rest
      else match splitLines rest with
           | [] => [[c]]
           | l :: ls => (c :: l) :: ls
           end
  end.

(** [s.split(sep)[0]] for a non-empty separator: the text before the
    first occurrence of [sep]. *)
Fixpoint beforeFirst (s sep : jsstring) : jsstring :=
  if startsWith s sep then []
  else match s with
       | [] => []
       | c :: rest => c :: beforeFirst rest sep
       end.

(** [parts.join(sep)]. *)
Fixpoint join (sep : jsstring) (parts : list jsstring) : jsstring :=
  match parts with
  | [] => []
  | [p] => p
  | p :: rest => p ++ sep ++ join sep rest
  end.

(** [(s.match(/c/g) || []).length] for a single-character pattern. *)
Definition countChar (c : char) (s : jsstring) : nat :=
  length (filter (fun x => x = c) s).

(** [Boolean(s)] for a string. *)
Definition truthy (s : jsstring) : bool :=
  match s with [] => false | _ => true end.

Definition eqb (a b : jsstring) : bool := bool_decide (a = b).

(** A string function that only removes text: its result is never longer
    than its argument, and as long only when it is the argument. *)
Definition shrinking (f : jsstring -> jsstring) : Prop :=
  forall s, length (f s) <= length s /\ (length (f s) = length s -> f s = s).

Definition isOneOf (s : jsstring) (cases : list string) : bool :=
  existsb (fun c => eqb s (str c)) cases.

End JS.

Import JS.

(** ** Regular expressions (boolean tests only)

    [RegExp.prototype.test] and the truthiness of [String.prototype.match]
    only depend on the language of the pattern, so they are modelled by
    Brzozowski derivatives.  Anchors are expressed by the way a pattern is
    embedded: [search] for an unanchored pattern, [searchFromStart] for
    [/^r/], [searchToEnd] for [/r$/] and [fullMatch] for [/^r$/] (none of
    the patterns of the sources carries the [m] flag). *)

Module Regex.

Inductive regex :=
| Void
| Eps
| Cls (p : char -> bool)
| Cat (r1 r2 : regex)
| Alt (r1 r2 : regex)
| Star (r : regex).

Fixpoint nullable (r : regex) : bool :=
  match r with
  | Void => false
  | Eps => true
  | Cls _ => false
  | Cat r1 r2 => nullable r1 && nullable r2
  | Alt r1 r2 => nullable r1 || nullable r2
  | Star _ => true
  end.

Definition cat (r1 r2 : regex) : regex :=
  match r1, r2 with
  | Void, _ => Void
  | _, Void => Void
  | Eps, _ => r2
  | _, _ => Cat r1 r2
  end.

Definition alt (r1 r2 : regex) : regex :=
  match r1, r2 with
  | Void, _ => r2
  | _, Void => r1
  | _, _ => Alt r1 r2
  end.

Fixpoint deriv (c : char) (r : regex) : regex :=
  match r with
  | Void => Void
  | Eps => Void
  | Cls p => if p c then Eps else Void
  | Cat r1 r2 =>
      if nullable r1 then alt (cat (deriv c r1) r2) (deriv c r2)
      else cat (deriv c r1) r2
  | Alt r1 r2 => alt (deriv c r1) (deriv c r2)
  | Star r1 => cat (deriv c r1) (Star r1)
  end.

Fixpoint fullMatch (r : regex) (s : jsstring) : bool :=
  match s with
  | [] => nullable r
  | c :: rest => fullMatch (deriv c r) rest
  end.

(** The language of a pattern. *)
Inductive matches : regex -> jsstring -> Prop :=
| MatchEps : matches Eps []
| MatchCls p c : p c = true -> matches (Cls p) [c]
| MatchCat r1 r2 s1 s2 :
    matches r1 s1 -> matches r2 s2 -> matches (Cat r1 r2) (s1 ++ s2)
| MatchAltL r1 r2 s : matches r1 s -> matches (Alt r1 r2) s
| MatchAltR r1 r2 s : matches r2 s -> matches (Alt r1 r2) s
| MatchStarNil r : matches (Star r) []
| MatchStarApp r s1 s2 :
    matches r s1 -> matches (Star r) s2 -> matches (Star r) (s1 ++ s2).

Definition anyChar : regex := Cls (fun _ => true).
Definition anything : regex := Star anyChar.

Definition search (r : regex) (s : jsstring) : bool :=
  fullMatch (Cat anything (Cat r anything)) s.
Definition searchFromStart (r : regex) (s : jsstring) : bool :=
  fullMatch (Cat r anything) s.
Definition searchToEnd (r : regex) (s : jsstring) : bool :=
  fullMatch (Cat anything r) s.

(** Pattern combinators. *)
Definition chr (c : char) : regex := Cls (fun x => (x =? c)%N).
Definition notChr (c : char) : regex := Cls (fun x => negb (x =? c)%N).
Fixpoint lit' (s : jsstring) : regex :=
  match s with
  | [] => Eps
  | c :: rest => Cat (chr c) (lit' rest)
  end.
Definition lit (s : string) : regex := lit' (str s).
Definition opt (r : regex) : regex := Alt Eps r.
Definition plus (r : regex) : regex := Cat r (Star r).
Definition alts (l : list string) : regex :=
  foldr (fun s r => Alt (lit s) r) Void l.
Definition seq (l : list regex) : regex := foldr Cat Eps l.

(** [\s], [\w], [\W] and the dot (any character but a line terminator). *)
Definition ws : regex := Cls isWhiteSpace.
Definition word : regex := Cls isWordChar.
Definition nonWord : regex := Cls (fun c => negb (isWordChar c)).
Definition dot : regex :=
  Cls (fun c => negb ((c =? 10) || (c =? 13) || (c =? 8232) || (c =? 8233))%N).

End Regex.

(** ** The editor interfaces the sources rely on

    Only the operations used by the sources are modelled.  A document is
    its text (with line-feed line breaks) and a language identifier;
    [lineAt] raises on a line number outside the document, and
    [getText(range)] first clamps the range to the document, as the
    editor does. *)

Module VSCode.

Inductive Error :=
| IllegalLine   (* Error("Illegal value for `line`"), thrown by lineAt *)
| TypeError.    (* a property read on undefined *)

Inductive Result (A : Type) :=
| Ok (a : A)
| Raise (e : Error).
Arguments Ok {A} a.
Arguments Raise {A} e.

#[global] Instance Result_bind : MBind Result := fun A B k m =>
  match m with
  | Ok a => k a
  | Raise e => Raise e
  end.

#[global] Instance Result_ret : MRet Result := fun A a => Ok a.

Record Position := { line : nat; character : nat }.

Record TextDocument := {
  languageId : jsstring;
  getText : jsstring;      (* document.getText() *)
  fsPath : jsstring;       (* document.uri.fsPath *)
  relativePath : jsstring  (* vscode.workspace.asRelativePath(uri) *)
}.

Definition documentLines (document : TextDocument) : list jsstring :=
  splitLines (getText document).

Definition lineCount (document : TextDocument) : nat :=
  length (documentLines document).

(** [document.lineAt(n).text] *)
Definition lineAt (document : TextDocument) (n : nat) : Result jsstring :=
  match documentLines document !! n with
  | Some text => Ok text
  | None => Raise IllegalLine
  end.

(** [document.validatePosition]: a line beyond the last one becomes the
    end of the document, a character beyond the line its end. *)
Definition validatePosition (document : TextDocument) (p : Position)
    : Position :=
  let ls := documentLines document in
  let last := length ls - 1 in
  if (last <? line p)%nat then
    {| line := last; character := length (ls !!! last) |}
  else
    {| line := line p;
       character := character p `min` length (ls !!! line p) |}.

(** [document.getText(new Range(new Position(startLine, 0), position))]
    for [startLine <= position.line]. *)
Definition getTextFromLine (document : TextDocument) (startLine : nat)
    (position : Position) : jsstring :=
  let ls := documentLines document in
  let stop := validatePosition document position in
  if (length ls - 1 <? startLine)%nat then []
  else
    join [nl] (take (line stop - startLine) (drop startLine ls)
               ++ [take (character stop) (ls !!! line stop)]).

End VSCode.

Import VSCode.

(** ** helpers/language-features.ts *)

Module LanguageFeatures.

Import Regex.

Definition ch (a : ascii) : char := N_of_ascii a.

(** The double quote character (code 34). *)
Definition doubleQuote : char := 34%N.

Section WithLanguage.

(** The constructor argument of the class. *)
Variable languageId : jsstring.

Definition cFamily : list string :=
  ["javascript"; "typescript"; "java"; "c"; "cpp"; "csharp"; "go"; "rust";
   "swift"; "php"]%string.

Definition isPositionInComment (document : TextDocument)
    (position : Position) : Result bool :=
  line ← lineAt document (line position);
  let character := Z.of_nat (character position) in
  if isOneOf languageId cFamily then
    let singleCommentPos := indexOf line (str "//") in
    Ok ((0 <=? singleCommentPos)%Z && (singleCommentPos <? character)%Z)
  else if isOneOf languageId ["python"; "ruby"; "shell"; "bash"; "yaml"]%string then
    let hashCommentPos := indexOf line (str "#") in
    Ok ((0 <=? hashCommentPos)%Z && (hashCommentPos <? character)%Z)
  else if isOneOf languageId ["html"; "xml"]%string then
    let htmlCommentStart := indexOf line (str "<!--") in
    let htmlCommentEnd := indexOf line (str "-->") in
    Ok ((0 <=? htmlCommentStart)%Z && (htmlCommentStart <? character)%Z
        && ((htmlCommentEnd <? 0)%Z || (character <? htmlCommentEnd)%Z))
  else Ok false.

Definition isPositionInString (document : TextDocument)
    (position : Position) : Result bool :=
  line ← lineAt document (line position);
  let textBeforeCursor := substringTo line (character position) in
  if isOneOf languageId (cFamily ++ ["python"; "ruby"]%string) then
    let singleQuotes := countChar (ch "'") textBeforeCursor in
    let doubleQuotes := countChar doubleQuote textBeforeCursor in
    let backticks := countChar (ch "`") textBeforeCursor in
    Ok (Nat.odd singleQuotes || Nat.odd doubleQuotes || Nat.odd backticks)
  else Ok false.

(** [/^[A-Z][A-Z0-9_]* *= *[^=]/] *)
Definition upper : regex := Cls (fun c => (65 <=? c) && (c <=? 90))%N.
Definition constantAssignment : regex :=
  seq [upper;
       Star (Cls (fun c => (65 <=? c) && (c <=? 90)
                           || (48 <=? c) && (c <=? 57) || (c =? 95))%N);
       Star (chr 32); chr (ch "="); Star (chr 32); notChr (ch "=")].

Definition startsWithAny (s : jsstring) (prefixes : list string) : bool :=
  existsb (fun p => startsWith s (str p)) prefixes.

(** The [go] branch of [getImportStatements]: one loop iteration. *)
Definition goImportStep (st : bool * list jsstring) (line : jsstring)
    : bool * list jsstring :=
  let '(inImportBlock, imports) := st in
  let trimmed := trim line in
  if startsWith trimmed (str "package ") then (inImportBlock, imports ++ [line])
  else if startsWith trimmed (str "import " ++ [doubleQuote])
          || eqb trimmed (str "import (")
  then (true, imports ++ [line])
  else if inImportBlock then
    (if eqb trimmed (str ")") || endsWith trimmed (str ")") then false
     else inImportBlock,
     imports ++ [line])
  else (inImportBlock, imports).

Definition getImportStatements (documentText : jsstring) : jsstring :=
  let lines := splitLines documentText in
  let imports :=
    if isOneOf languageId ["javascript"; "typescript"]%string then
      List.filter (fun line =>
        startsWithAny (trim line) ["import "; "export "; "require("]%string)
        lines
    else if isOneOf languageId ["python"]%string then
      List.filter (fun line =>
        let trimmed := trim line in
        startsWithAny trimmed ["import "; "from "]%string
        || searchFromStart constantAssignment trimmed) lines
    else if isOneOf languageId ["java"; "kotlin"]%string then
      List.filter (fun line =>
        startsWithAny (trim line) ["package "; "import "]%string) lines
    else if isOneOf languageId ["go"]%string then
      snd (fold_left goImportStep lines (false, []))
    else if isOneOf languageId ["rust"]%string then
      List.filter (fun line =>
        startsWithAny (trim line) ["use "; "#["; "extern crate "]%string)
        lines
    else [] in
  join [nl] imports.

(** [/^(k1|k2|...)\b/]: every keyword ends in a word character, so the
    boundary holds at the end of the input or before a non-word
    character. *)
Definition keywordAtStart (keywords : list string) (s : jsstring) : bool :=
  fullMatch (Cat (alts keywords) (Alt Eps (Cat nonWord anything))) s.

(** [/\{\s*$/] *)
Definition endsWithOpenBrace (s : jsstring) : bool :=
  searchToEnd (Cat (chr (ch "{")) (Star ws)) s.

Definition isBlockStart (line : jsstring) : bool :=
  if isOneOf languageId
       ["javascript"; "typescript"; "java"; "c"; "cpp"; "csharp"]%string then
    keywordAtStart ["function"; "class"; "if"; "for"; "while"; "switch";
                    "try"; "else if"; "else"; "do"]%string line
    (* /^[a-zA-Z0-9_$]+\s*\([^)]*\)\s*{/ *)
    || searchFromStart
         (seq [plus (Cls (fun c => isWordChar c || (c =? 36))%N); Star ws;
               chr (ch "("); Star (notChr (ch ")")); chr (ch ")"); Star ws;
               chr (ch "{")]) line
    (* /=>\s*{/ *)
    || search (seq [lit "=>"; Star ws; chr (ch "{")]) line
    (* /\(\s*\)\s*{/ *)
    || search (seq [chr (ch "("); Star ws; chr (ch ")"); Star ws;
                    chr (ch "{")]) line
    || endsWithOpenBrace line
  else if isOneOf languageId ["python"]%string then
    (* /^(def|class|if|for|while|try|elif|else|except|with)\b.*:$/ : the
       text after the keyword ends in a colon and starts with a non-word
       character *)
    fullMatch
      (Cat (alts ["def"; "class"; "if"; "for"; "while"; "try"; "elif";
                  "else"; "except"; "with"]%string)
           (Alt (chr (ch ":"))
                (seq [Cls (fun c => negb (isWordChar c)
                                    && negb ((c =? 10) || (c =? 13)
                                             || (c =? 8232) || (c =? 8233)))%N;
                      Star dot; chr (ch ":")]))) line
  else if isOneOf languageId ["ruby"]%string then
    keywordAtStart ["def"; "class"; "module"; "if"; "unless"; "while";
                    "until"; "for"; "begin"; "case"]%string line
    (* /\bdo(\s*\|[^|]*\|)?\s*$/ *)
    || fullMatch
         (seq [Alt Eps (Cat anything nonWord); lit "do";
               opt (seq [Star ws; chr (ch "|"); Star (notChr (ch "|"));
                         chr (ch "|")]);
               Star ws]) line
  else if isOneOf languageId ["go"]%string then
    keywordAtStart ["func"; "type"; "if"; "for"; "switch"; "select"; "case";
                    "default"]%string line
    || endsWithOpenBrace line
  else if isOneOf languageId ["rust"]%string then
    keywordAtStart ["fn"; "struct"; "enum"; "impl"; "trait"; "if"; "while";
                    "for"; "loop"; "match"]%string line
    || endsWithOpenBrace line
  else
    keywordAtStart ["function"; "class"; "if"; "for"; "while"; "try"]%string
      line
    || endsWithOpenBrace line.

(** [lines.slice(from, to + 1)], the lines pushed by the inner loops. *)
Definition linesFromTo (lines : list jsstring) (from to : nat)
    : list jsstring :=
  take (S to - from) (drop from lines).

(** How the backward walk of [getCurrentScope] ended. *)
Inductive ScopeExit :=
| FoundBlockStart   (* first [break] *)
| WentBack30        (* second [break] *)
| ReachedTop.       (* loop condition [i >= 0] failed *)

Record ScopeWalk := {
  scopeLines : list jsstring;
  examined : nat;        (* number of loop iterations performed *)
  exit : ScopeExit
}.

(** The [for (let i = position.line; i >= 0; i--)] loop, entered at
    index [i]. *)
Fixpoint scopeWalk (lines : list jsstring) (positionLine currentIndent : nat)
    (i : nat) : ScopeWalk :=
  let line := lines !!! i in
  let lineIndent := length (leadingWhitespace line) in
  if (lineIndent <? currentIndent)%nat && isBlockStart (trim line) then
    {| scopeLines := linesFromTo lines i positionLine;
       examined := 1; exit := FoundBlockStart |}
  else if (30 <=? positionLine - i)%nat then
    {| scopeLines := linesFromTo lines (positionLine - 30) positionLine;
       examined := 1; exit := WentBack30 |}
  else
    match i with
    | 0 => {| scopeLines := []; examined := 1; exit := ReachedTop |}
    | S i' =>
        let w := scopeWalk lines positionLine currentIndent i' in
        {| scopeLines := scopeLines w; examined := S (examined w);
           exit := exit w |}
    end.

Definition getCurrentScopeWalk (document : TextDocument)
    (position : Position) : Result ScopeWalk :=
  let textBefore := getTextFromLine document 0 position in
  let lines := splitLines textBefore in
  match lines !! line position with
  | None => Raise TypeError     (* lines[position.line] is undefined *)
  | Some current =>
      let currentIndent := length (leadingWhitespace current) in
      Ok (scopeWalk lines (line position) currentIndent (line position))
  end.

Definition getCurrentScope (document : TextDocument) (position : Position)
    : Result jsstring :=
  w ← getCurrentScopeWalk document position;
  Ok (join [nl] (scopeLines w)).

End WithLanguage.

Section Declarations.

Variable languageId : jsstring.

(** State of the [typescript] loop of [getGlobalDeclarations]. *)
Record DeclarationScan := {
  inDeclaration : bool;
  bracketCount : Z;
  declarationLines : list jsstring;
  declarations : list jsstring
}.

Definition bracketDelta (trimmed : jsstring) : Z :=
  (Z.of_nat (countChar (ch "{") trimmed)
   - Z.of_nat (countChar (ch "}") trimmed))%Z.

Definition typescriptStep (st : DeclarationScan) (line : jsstring)
    : DeclarationScan :=
  let trimmed := trim line in
  if negb (inDeclaration st)
     && startsWithAny trimmed ["interface "; "type "; "class "; "enum "]%string
  then
    let count := bracketDelta trimmed in
    if (count =? 0)%Z && includes trimmed (str ";") then
      {| inDeclaration := false; bracketCount := count;
         declarationLines := [];
         declarations := declarations st ++ [line] |}
    else
      {| inDeclaration := true; bracketCount := count;
         declarationLines := [line];
         declarations := declarations st |}
  else if inDeclaration st then
    let count := (bracketCount st + bracketDelta trimmed)%Z in
    if (count =? 0)%Z then
      {| inDeclaration := false; bracketCount := count;
         declarationLines := [];
         declarations :=
           declarations st ++ [join [nl] (declarationLines st ++ [line])] |}
    else
      {| inDeclaration := true; bracketCount := count;
         declarationLines := declarationLines st ++ [line];
         declarations := declarations st |}
  else st.

Definition getGlobalDeclarations (documentText : jsstring) : jsstring :=
  let lines := splitLines documentText in
  let imports := getImportStatements languageId documentText in
  let declarations0 := if truthy imports then [imports] else [] in
  let declarations1 :=
    if isOneOf languageId ["typescript"]%string then
      declarations
        (fold_left typescriptStep lines
           {| inDeclaration := false; bracketCount := 0;
              declarationLines := []; declarations := declarations0 |})
    else if isOneOf languageId ["javascript"]%string then
      declarations0
      ++ List.filter (fun line =>
           startsWithAny (trim line) ["class "; "const "; "export "]%string)
           lines
    else if isOneOf languageId ["python"]%string then
      declarations0
      ++ List.filter (fun line =>
           let trimmed := trim line in
           startsWith trimmed (str "class ")
           || searchFromStart constantAssignment trimmed) lines
    else declarations0 in
  join [nl] declarations1.

(** [\s*{?\s*$], the common tail of the patterns below. *)
Definition optionalBraceAtEnd : list regex :=
  [Star ws; opt (chr (ch "{")); Star ws].

(** The parameters [document] and [position] of the source function are
    not used by it. *)
Definition isAppropriateMultilineLocation (currentLineText : jsstring)
    : bool :=
  let trimmedLine := trim currentLineText in
  if isOneOf languageId ["javascript"; "typescript"]%string then
    endsWith trimmedLine (str "{")
    || endsWith trimmedLine (str "=>")
    || endsWith trimmedLine (str "=> {")
    (* /function\s*\([^)]*\)\s*{?\s*$/ *)
    || searchToEnd
         (seq ([lit "function"; Star ws; chr (ch "(");
                Star (notChr (ch ")")); chr (ch ")")] ++ optionalBraceAtEnd))
         trimmedLine
    (* /class\s+\w+(\s+extends\s+\w+)?\s*{?\s*$/ *)
    || searchToEnd
         (seq ([lit "class"; plus ws; plus word;
                opt (seq [plus ws; lit "extends"; plus ws; plus word])]
               ++ optionalBraceAtEnd))
         trimmedLine
  else if isOneOf languageId ["python"]%string then
    endsWith trimmedLine (str ":")
    (* /def\s+\w+\s*\([^)]*\)\s*:\s*$/ *)
    || searchToEnd
         (seq [lit "def"; plus ws; plus word; Star ws; chr (ch "(");
               Star (notChr (ch ")")); chr (ch ")"); Star ws; chr (ch ":");
               Star ws])
         trimmedLine
    (* /class\s+\w+(\s*\([^)]*\))?\s*:\s*$/ *)
    || searchToEnd
         (seq [lit "class"; plus ws; plus word;
               opt (seq [Star ws; chr (ch "("); Star (notChr (ch ")"));
                         chr (ch ")")]);
               Star ws; chr (ch ":"); Star ws])
         trimmedLine
  else if isOneOf languageId ["java"; "kotlin"; "c"; "cpp"; "csharp"]%string
  then
    endsWith trimmedLine (str "{")
    (* /\)\s*{?\s*$/ *)
    || searchToEnd (seq (chr (ch ")") :: optionalBraceAtEnd)) trimmedLine
    (* /class\s+\w+(\s+extends\s+\w+)?(\s+implements\s+\w+)?\s*{?\s*$/ *)
    || searchToEnd
         (seq ([lit "class"; plus ws; plus word;
                opt (seq [plus ws; lit "extends"; plus ws; plus word]);
                opt (seq [plus ws; lit "implements"; plus ws; plus word])]
               ++ optionalBraceAtEnd))
         trimmedLine
  else endsWith trimmedLine (str "{") || endsWith trimmedLine (str ":").

End Declarations.

(** Every language identifier named by a [case] label of the class. *)
Definition knownLanguages : list string :=
  ["javascript"; "typescript"; "java"; "c"; "cpp"; "csharp"; "go"; "rust";
   "swift"; "php"; "python"; "ruby"; "shell"; "bash"; "yaml"; "html"; "xml";
   "kotlin"]%string.

End LanguageFeatures.

(** ** helpers/utils.ts: cache, debounce and rate limiter

    The module-level variables ([callCount], [suggestionCache] and the
    [timer] captured by [debounce]) form the state.  The asynchronous
    parts are driven by events: a call of [getCachedSuggestion], the
    expiry of the armed timeout, the answer of the model to an upstream
    call, the one-minute interval, and a call of [rateLimitCheck]. *)

Module Utils.

Definition MAX_CALLS_PER_MINUTE : nat := 60.

(** The [resolve] function of the promise handed to a caller, with the
    arguments of the call.  Callers are numbered in call order. *)
Record Pending := { caller : nat; prompt : jsstring }.

(** How the promise returned by [getCachedSuggestion] was settled. *)
Inductive Settled :=
| Resolved (suggestion : jsstring)
| Rejected.

Record State := {
  callCount : nat;
  suggestionCache : gmap jsstring jsstring;
  timer : option Pending;         (* armed timeout of the debounced call *)
  inFlight : list Pending;        (* upstream calls not yet answered *)
  upstreamCalls : list jsstring;  (* prompts sent upstream, latest first *)
  settled : gmap nat Settled;     (* outcome seen by each caller *)
  nextCaller : nat
}.

Definition initial : State :=
  {| callCount := 0; suggestionCache := ∅; timer := None; inFlight := [];
     upstreamCalls := []; settled := ∅; nextCaller := 0 |}.

Definition getCacheKey (prompt : jsstring) : jsstring := prompt.

Definition rateLimitCheck (st : State) : bool * State :=
  if (MAX_CALLS_PER_MINUTE <=? callCount st)%nat then (false, st)
  else
    (true,
     {| callCount := S (callCount st);
        suggestionCache := suggestionCache st; timer := timer st;
        inFlight := inFlight st; upstreamCalls := upstreamCalls st;
        settled := settled st; nextCaller := nextCaller st |}).

(** The callback of [setInterval(..., 60000)]. *)
Definition resetCallCount (st : State) : State :=
  {| callCount := 0;
     suggestionCache := suggestionCache st; timer := timer st;
     inFlight := inFlight st; upstreamCalls := upstreamCalls st;
     settled := settled st; nextCaller := nextCaller st |}.

(** [getCachedSuggestion(prompt, model, token)] up to its first
    suspension.  On a hit the promise resolves with the cached value.  On
    a miss the debounced function is called: [clearTimeout] drops the
    armed timeout together with the only reference to the [resolve] of
    the caller it belonged to, and a new timeout is armed. *)
Definition getCachedSuggestion (st : State) (prompt : jsstring)
    : nat * State :=
  let me := nextCaller st in
  let key := getCacheKey prompt in
  match suggestionCache st !! key with
  | Some suggestion =>
      (me,
       {| callCount := callCount st; suggestionCache := suggestionCache st;
          timer := timer st; inFlight := inFlight st;
          upstreamCalls := upstreamCalls st;
          settled := <[me := Resolved suggestion]> (settled st);
          nextCaller := S me |})
  | None =>
      (me,
       {| callCount := callCount st; suggestionCache := suggestionCache st;
          timer := Some {| caller := me; prompt := prompt |};
          inFlight := inFlight st; upstreamCalls := upstreamCalls st;
          settled := settled st; nextCaller := S me |})
  end.

(** The timeout callback [() => resolve(fn(...args))]: [generateSuggestion]
    sends the prompt upstream and the promise of the caller follows the
    answer. *)
Definition timerFires (st : State) : State :=
  match timer st with
  | None => st
  | Some p =>
      {| callCount := callCount st; suggestionCache := suggestionCache st;
         timer := None; inFlight := inFlight st ++ [p];
         upstreamCalls := prompt p :: upstreamCalls st;
         settled := settled st; nextCaller := nextCaller st |}
  end.

(** The model answers the [k]-th upstream call in flight with [text]:
    [generateSuggestion] returns [response.text().trim()], and
    [getCachedSuggestion] resumes, stores the suggestion and returns it. *)
Definition responseArrives (st : State) (k : nat) (text : jsstring)
    : State :=
  match inFlight st !! k with
  | None => st
  | Some p =>
      let suggestion := trim text in
      {| callCount := callCount st;
         suggestionCache :=
           <[getCacheKey (prompt p) := suggestion]> (suggestionCache st);
         timer := timer st; inFlight := delete k (inFlight st);
         upstreamCalls := upstreamCalls st;
         settled := <[caller p := Resolved suggestion]> (settled st);
         nextCaller := nextCaller st |}
  end.

(** The [k]-th upstream call in flight fails: the error propagates
    through [getCachedSuggestion], nothing is cached. *)
Definition requestFails (st : State) (k : nat) : State :=
  match inFlight st !! k with
  | None => st
  | Some p =>
      {| callCount := callCount st; suggestionCache := suggestionCache st;
         timer := timer st; inFlight := delete k (inFlight st);
         upstreamCalls := upstreamCalls st;
         settled := <[caller p := Rejected]> (settled st);
         nextCaller := nextCaller st |}
  end.

Inductive Event :=
| Request (prompt : jsstring)
| TimerFires
| Response (k : nat) (text : jsstring)
| Failure (k : nat)
| MinuteTick
| RateLimitCheck.

Definition step (st : State) (e : Event) : State :=
  match e with
  | Request prompt => snd (getCachedSuggestion st prompt)
  | TimerFires => timerFires st
  | Response k text => responseArrives st k text
  | Failure k => requestFails st k
  | MinuteTick => resetCallCount st
  | RateLimitCheck => snd (rateLimitCheck st)
  end.

Definition run (events : list Event) (st : State) : State :=
  fold_left step events st.

(** [n] successive calls of [rateLimitCheck], with their answers. *)
Fixpoint rateLimitChecks (n : nat) (st : State) : list bool * State :=
  match n with
  | 0 => ([], st)
  | S n' =>
      let '(ok, st1) := rateLimitCheck st in
      let '(oks, st2) := rateLimitChecks n' st1 in
      (ok :: oks, st2)
  end.

Definition isCheck (e : Event) : bool :=
  match e with RateLimitCheck => true | _ => false end.

(** Number of calls of [rateLimitCheck] among the events. *)
Definition checksMade (events : list Event) : nat :=
  length (List.filter isCheck events).

(** A caller is orphaned when its promise is pending and nothing in the
    state can settle it any more: neither the armed timeout nor an
    upstream call in flight holds its [resolve]. *)
Definition orphaned (c : nat) (st : State) : Prop :=
  c < nextCaller st ∧ settled st !! c = None
  ∧ (∀ p, timer st = Some p → caller p ≠ c)
  ∧ (∀ p, p ∈ inFlight st → caller p ≠ c).

End Utils.

(** ** helpers/model-manager.ts *)

Module ModelManager.

Definition fence : jsstring := str "```".

(** The patterns [/^```[\w]*\n/] and [/\n```$/] of [sanitizeCompletion],
    without their anchors. *)
Definition fenceOpener : Regex.regex :=
  Regex.seq [Regex.lit' fence; Regex.Star Regex.word; Regex.chr nl].
Definition fenceCloser : Regex.regex := Regex.lit' (nl :: fence).

(** [s.replace(/^```[\w]*\n/, "")]: the class [\w] excludes the line
    feed, so the greedy run of word characters after the three backticks
    is the only candidate match. *)
Definition stripFenceOpen (s : jsstring) : jsstring :=
  if startsWith s fence then
    match dropWhile isWordChar (drop 3 s) with
    | c :: rest => if (c =? nl)%N then rest else s
    | [] => s
    end
  else s.

(** [s.replace(/\n```$/, "")]. *)
Definition stripFenceClose (s : jsstring) : jsstring :=
  if endsWith s (nl :: fence) then take (length s - 4) s else s.

Definition sanitizeCompletion (completion : jsstring) : jsstring :=
  let sanitized := trim completion in
  let sanitized := stripFenceClose (stripFenceOpen sanitized) in
  if includes sanitized [nl; nl] then beforeFirst sanitized [nl; nl]
  else sanitized.

(** The em dash of the prompt templates. *)
Definition emDash : jsstring := [8212%N].

Definition buildInlineCompletionPrompt (context language : jsstring)
    : jsstring :=
  join [nl]
    [str "You are an expert code assistant specializing in inline code completions. Given the following "
       ++ language
       ++ str " snippet, generate a minimal continuation that completes only the currently unfinished expression.";
     [];
     str "Rules:";
     str "1. Output ONLY pure code" ++ emDash
       ++ str "no explanations, comments, or extra text.";
     str "2. Complete ONLY the unfinished statement/expression; do not add any additional lines.";
     str "3. Match the existing indentation, naming conventions, and coding style.";
     str "4. Adhere to common patterns and syntax of " ++ language
       ++ str " within the given context.";
     str "5. Limit the output to a maximum of 150 characters.";
     str "6. If multiple completions are plausible, choose the most likely based on context.";
     str "7. End at a natural termination point (e.g., semicolon, closing bracket).";
     str "8. If the fragment is already complete, return nothing.";
     [];
     str "Code context:";
     context].

Definition buildMultilineCompletionPrompt (context language : jsstring)
    : jsstring :=
  join [nl]
    [str "You are an expert code assistant specializing in code completions. Given the following "
       ++ language
       ++ str " snippet, generate a logical continuation that completes the current function, class, or block.";
     [];
     str "Rules:";
     str "1. Output ONLY pure code" ++ emDash
       ++ str "no explanations, comments, or markdown formatting.";
     str "2. Complete the current function, class, or block in a logical way.";
     str "3. Match the existing indentation, naming conventions, and coding style.";
     str "4. Adhere to common patterns and syntax of " ++ language
       ++ str " within the given context.";
     str "5. Include comments similar to the style of the existing code if appropriate.";
     str "6. Limit the output to a maximum of 25 lines.";
     str "7. If multiple completions are plausible, choose the most comprehensive based on context.";
     str "8. If the fragment is already complete, return nothing.";
     [];
     str "Code context:";
     context].

(** [!apiKey || apiKey.trim() === ""] *)
Definition isBlank (apiKey : jsstring) : bool := negb (truthy (trim apiKey)).

(** [ensureInitialized]: the new value of [this.genAI !== null] and the
    answer. *)
Definition ensureInitialized (genAI : bool) (apiKey : jsstring)
    : bool * bool :=
  if genAI then (true, true)
  else if negb (isBlank apiKey) then (true, true)
  else (false, false).

(** What a call of [getInlineCompletions] or [getMultilineCompletions]
    has produced when control returns to the event loop. *)
Inductive Completions :=
| Returned (suggestions : list jsstring)
| Awaiting (caller : nat).   (* suspended on the debounced upstream call *)

(** The code after [await getCachedSuggestion(...)], for a resolved
    promise; [cancelled] is [token.isCancellationRequested] at that
    point. *)
Definition afterSuggestion (cancelled : bool) (suggestions : jsstring)
    : list jsstring :=
  if cancelled then [] else [sanitizeCompletion suggestions].

Definition getCompletions (prompt : jsstring) (genAI : bool)
    (apiKey : jsstring) (cancelled : bool) (st : Utils.State)
    : Completions * bool * Utils.State :=
  let '(genAI', ok) := ensureInitialized genAI apiKey in
  if negb ok then (Returned [], genAI', st)
  else
    let '(me, st') := Utils.getCachedSuggestion st prompt in
    match Utils.settled st' !! me with
    | Some (Utils.Resolved suggestions) =>
        (Returned (afterSuggestion cancelled suggestions), genAI', st')
    | _ => (Awaiting me, genAI', st')
    end.

Definition getInlineCompletions (context language : jsstring) :=
  getCompletions (buildInlineCompletionPrompt context language).

Definition getMultilineCompletions (context language : jsstring) :=
  getCompletions (buildMultilineCompletionPrompt context language).

End ModelManager.

(** ** Configuration ([vscode.workspace.getConfiguration("autogem")]) *)

Module Configuration.

Record Config := {
  apiKey : jsstring;
  enabledLanguages : list jsstring;
  contextLineCount : nat;
  includeImportsInContext : bool;
  useProjectContext : bool;
  skipInComments : bool;
  skipInStrings : bool;
  triggerCharacters : list jsstring;
  minTriggerLength : Z;
  multilineTriggers : list jsstring;
  multilineContextLineCount : nat
}.

(** The defaults passed to [config.get] in the sources. *)
Definition defaults (key : jsstring) : Config :=
  {| apiKey := key;
     enabledLanguages := [str "*"];
     contextLineCount := 50;
     includeImportsInContext := true;
     useProjectContext := true;
     skipInComments := true;
     skipInStrings := false;
     triggerCharacters := str <$> ["."; "("; "{"]%string;
     minTriggerLength := 3;
     multilineTriggers := str <$> ["{"; ":"; "=>"; "->"; "do"; "then"]%string;
     multilineContextLineCount := 100 |}.

(** The answers of the workspace: whether the document lies in a
    workspace folder, and the documents behind the files returned by
    [findFiles] ([Raise] when the lookup or the opening of a file throws). *)
Record Workspace := {
  hasWorkspaceFolder : bool;
  relatedDocuments : Result (list TextDocument)
}.

Inductive TriggerKind := Invoke | Automatic.

End Configuration.

Import Configuration.

(** ** helpers/multiline-provider.ts *)

Module MultilineProvider.

Record ContextData := {
  contextText : jsstring;
  indentation : jsstring;
  currentLineText : jsstring;
  isInComment : bool;
  isInString : bool
}.

(** [getContextData]; [projectContext] is the value of the awaited
    [this.getProjectContext(document)]. *)
Definition getContextData (document : TextDocument) (position : Position)
    (config : Config) (projectContext : jsstring) : Result ContextData :=
  let contextLineCount := multilineContextLineCount config in
  currentLine ← lineAt document (line position);
  let indentation := leadingWhitespace currentLine in
  let startLine := line position - contextLineCount in
  let contextText := getTextFromLine document startLine position in
  let imports :=
    LanguageFeatures.getImportStatements (languageId document)
      (getText document) in
  inComment ← LanguageFeatures.isPositionInComment (languageId document)
                 document position;
  inString ← LanguageFeatures.isPositionInString (languageId document)
                document position;
  mret {| contextText :=
            join [nl] (List.filter truthy [imports; projectContext; contextText]);
          indentation := indentation;
          currentLineText := currentLine;
          isInComment := inComment;
          isInString := inString |}.

Definition shouldTriggerMultilineCompletion (contextData : ContextData)
    (document : TextDocument) (position : Position) : bool :=
  if isInComment contextData || isInString contextData then false
  else
    LanguageFeatures.isAppropriateMultilineLocation (languageId document)
      (currentLineText contextData).

(** The decision taken by [provideInlineCompletionItems] before any
    request is made: [true] when the provider goes on to ask for
    completions.  Without an explicit invocation the line is read outside
    the [try] block, so an exception makes the call fail; inside it, an
    exception ends in [return null]. *)
Definition triggerDecision (config : Config) (document : TextDocument)
    (position : Position) (triggerKind : TriggerKind)
    (projectContext : jsstring) : bool :=
  let endsWithTrigger :=
    match triggerKind with
    | Invoke => Ok true
    | Automatic =>
        line ← lineAt document (line position);
        mret (existsb (fun trigger => endsWith (trimEnd line) trigger)
                (multilineTriggers config))
    end in
  match endsWithTrigger with
  | Raise _ => false
  | Ok false => false
  | Ok true =>
      match getContextData document position config projectContext with
      | Raise _ => false
      | Ok contextData =>
          shouldTriggerMultilineCompletion contextData document position
      end
  end.

(** The callback passed to [lines.map] in [applyIndentation]. *)
Definition indentLine (baseIndentation : jsstring) (index : nat)
    (line : jsstring) : jsstring :=
  if bool_decide (index = 0) then line
  else if negb (truthy (trim line)) then line
  else
    let lineIndent := leadingWhitespace line in
    if truthy lineIndent then
      if startsWith line baseIndentation then line
      else
        let relativeIndent := lineIndent in
        baseIndentation ++ substringFrom line (length relativeIndent)
    else baseIndentation ++ line.

Definition applyIndentation (suggestion baseIndentation : jsstring)
    : jsstring :=
  let lines := splitLines suggestion in
  if (length lines <=? 1)%nat then suggestion
  else join [nl] (imap (indentLine baseIndentation) lines).

End MultilineProvider.

(** ** extension.ts: the inline completion provider *)

Module InlineProvider.

Record ContextData := {
  contextText : jsstring;
  currentLine : jsstring;
  cursorPosition : Position;
  indentation : jsstring;
  isInComment : bool;
  isInString : bool
}.

(** The loop body of [getProjectContext]. *)
Definition addRelated (document : TextDocument) (projectContext : jsstring)
    (relatedDoc : TextDocument) : jsstring :=
  if eqb (fsPath relatedDoc) (fsPath document) then projectContext
  else
    let declarations :=
      LanguageFeatures.getGlobalDeclarations (languageId relatedDoc)
        (getText relatedDoc) in
    if truthy declarations then
      projectContext ++ nl :: str "// From " ++ relativePath relatedDoc
        ++ str ":" ++ nl :: declarations ++ [nl]
    else projectContext.

Definition getProjectContext (config : Config) (workspace : Workspace)
    (document : TextDocument) : jsstring :=
  if negb (useProjectContext config) then []
  else if negb (hasWorkspaceFolder workspace) then []
  else
    match relatedDocuments workspace with
    | Raise _ => []      (* catch: logger.warn, return "" *)
    | Ok files => fold_left (addRelated document) files []
    end.

(** The four sections combined by [getContextData], in the order of the
    array literal. *)
Definition contextSections (config : Config) (workspace : Workspace)
    (document : TextDocument) (position : Position)
    : Result (list jsstring) :=
  let projectContext :=
    if useProjectContext config
    then getProjectContext config workspace document else [] in
  let startLine := line position - contextLineCount config in
  let importStatements :=
    if includeImportsInContext config
    then LanguageFeatures.getImportStatements (languageId document)
           (getText document)
    else [] in
  currentScope ← LanguageFeatures.getCurrentScope (languageId document)
                    document position;
  let immediateContext := getTextFromLine document startLine position in
  mret [importStatements; projectContext; currentScope; immediateContext].

Definition getContextData (config : Config) (workspace : Workspace)
    (document : TextDocument) (position : Position) : Result ContextData :=
  sections ← contextSections config workspace document position;
  currentLine ← lineAt document (line position);
  inComment ← LanguageFeatures.isPositionInComment (languageId document)
                 document position;
  inString ← LanguageFeatures.isPositionInString (languageId document)
                document position;
  mret {| contextText := join [nl] (List.filter truthy sections);
          currentLine := currentLine;
          cursorPosition := position;
          indentation := leadingWhitespace currentLine;
          isInComment := inComment;
          isInString := inString |}.

Definition shouldTriggerCompletion (config : Config)
    (contextData : ContextData) (triggerKind : TriggerKind) : bool :=
  if skipInComments config && isInComment contextData then false
  else if skipInStrings config && isInString contextData then false
  else
    let endsWithTrigger :=
      existsb (fun char => endsWith (trimEnd (currentLine contextData)) char)
        (triggerCharacters config) in
    match triggerKind with
    | Invoke => true
    | Automatic =>
        if endsWithTrigger then true
        else
          (minTriggerLength config
           <=? Z.of_nat (length (trim (currentLine contextData))))%Z
    end.

(** Messages shown to the user. *)
Inductive Notice :=
| ConfigureApiKey       (* showErrorMessage *)
| RateLimitExceeded.    (* statusBar.showMessage *)

(** Process-wide state reached through the provider. *)
Record Extension := {
  utils : Utils.State;
  genAI : bool              (* modelManager.genAI !== null *)
}.

Record Reply := {
  completions : ModelManager.Completions;
  notice : option Notice
}.

Definition languageEnabled (config : Config) (language : jsstring) : bool :=
  existsb (eqb (str "*")) (enabledLanguages config)
  || existsb (eqb language) (enabledLanguages config).

(** [provideInlineCompletionItems], up to its return or to the
    suspension on the upstream call.  [cancelled] is the state of the
    cancellation token when the suggestion is available. *)
Definition provideInlineCompletionItems (ext : Extension) (config : Config)
    (workspace : Workspace) (document : TextDocument) (position : Position)
    (triggerKind : TriggerKind) (cancelled : bool) : Reply * Extension :=
  let none := ModelManager.Returned [] in
  if ModelManager.isBlank (apiKey config) then
    ({| completions := none; notice := Some ConfigureApiKey |}, ext)
  else if negb (languageEnabled config (languageId document)) then
    ({| completions := none; notice := None |}, ext)
  else
    let '(allowed, st) := Utils.rateLimitCheck (utils ext) in
    if negb allowed then
      ({| completions := none; notice := Some RateLimitExceeded |},
       {| utils := st; genAI := genAI ext |})
    else
      match getContextData config workspace document position with
      | Raise _ =>       (* catch: handleError, return [] *)
          ({| completions := none; notice := None |},
           {| utils := st; genAI := genAI ext |})
      | Ok contextData =>
          if negb (shouldTriggerCompletion config contextData triggerKind)
          then ({| completions := none; notice := None |},
                {| utils := st; genAI := genAI ext |})
          else
            let '(suggestions, genAI', st') :=
              ModelManager.getInlineCompletions (contextText contextData)
                (languageId document) (genAI ext) (apiKey config)
                cancelled st in
            ({| completions :=
                  match suggestions with
                  | ModelManager.Returned l =>
                      ModelManager.Returned (if cancelled then [] else l)
                  | ModelManager.Awaiting me => ModelManager.Awaiting me
                  end;
                notice := None |},
             {| utils := st'; genAI := genAI' |})
      end.

(** The trigger policy applied to a document position: [true] when
    [provideInlineCompletionItems] gets past [shouldTriggerCompletion]
    (an exception in [getContextData] is caught and ends in [return []]). *)
Definition triggerDecision (config : Config) (workspace : Workspace)
    (document : TextDocument) (position : Position)
    (triggerKind : TriggerKind) : bool :=
  match getContextData config workspace document position with
  | Raise _ => false
  | Ok contextData => shouldTriggerCompletion config contextData triggerKind
  end.

End InlineProvider.

(** ** helpers/multiline-provider.ts: the multi-line completion provider *)

Module MultilineCompletionProvider.

Import InlineProvider.

(** [provideInlineCompletionItems] of [MultilineCompletionProvider], up
    to its return or to the suspension on the upstream call; [null] is
    [Returned []].  Without an explicit invocation the line is read
    before the [try] block, so an exception there makes the call fail;
    inside the block an exception ends in [return null].
    [projectContext] is the value of the awaited [getProjectContext],
    [cancelled] the state of the cancellation token when the suggestion
    is available.  The function never calls [rateLimitCheck]. *)
Definition provideInlineCompletionItems (ext : Extension) (config : Config)
    (document : TextDocument) (position : Position)
    (triggerKind : TriggerKind) (projectContext : jsstring)
    (cancelled : bool) : Result ModelManager.Completions * Extension :=
  let none := ModelManager.Returned [] in
  let endsWithTrigger :=
    match triggerKind with
    | Invoke => Ok true
    | Automatic =>
        line ← lineAt document (line position);
        mret (existsb (fun trigger => endsWith (trimEnd line) trigger)
                (multilineTriggers config))
    end in
  match endsWithTrigger with
  | Raise e => (Raise e, ext)
  | Ok false => (Ok none, ext)
  | Ok true =>
      match MultilineProvider.getContextData document position config
              projectContext with
      | Raise _ => (Ok none, ext)      (* catch: logger.error, return null *)
      | Ok contextData =>
          if negb (MultilineProvider.shouldTriggerMultilineCompletion
                     contextData document position)
          then (Ok none, ext)
          else
            let '(suggestions, genAI', st') :=
              ModelManager.getMultilineCompletions
                (MultilineProvider.contextText contextData)
                (languageId document) (genAI ext) (apiKey config)
                cancelled (utils ext) in
            (Ok match suggestions with
                | ModelManager.Returned l =>
                    ModelManager.Returned
                      (if cancelled then []
                       else (fun suggestion =>
                               MultilineProvider.applyIndentation suggestion
                                 (MultilineProvider.indentation contextData))
                            <$> l)
                | ModelManager.Awaiting me => ModelManager.Awaiting me
                end,
             {| utils := st'; genAI := genAI' |})
      end
  end.

End MultilineCompletionProvider.

(** ** The extension at work: requests to the two providers and the
    asynchronous events between them *)

Module Session.

Import InlineProvider.

Inductive Event :=
| InlineRequest (config : Config) (workspace : Workspace)
    (document : TextDocument) (position : Position)
    (triggerKind : TriggerKind) (cancelled : bool)
| MultilineRequest (config : Config) (document : TextDocument)
    (position : Position) (triggerKind : TriggerKind)
    (projectContext : jsstring) (cancelled : bool)
| TimeoutExpires                           (* the debounce timeout *)
| ModelAnswers (k : nat) (text : jsstring)
| ModelFails (k : nat)
| MinutePasses.                            (* the one-minute interval *)

Definition onUtils (f : Utils.State -> Utils.State) (ext : Extension)
    : Extension :=
  {| utils := f (utils ext); genAI := genAI ext |}.

Definition step (ext : Extension) (e : Event) : Extension :=
  match e with
  | InlineRequest config workspace document position triggerKind cancelled =>
      snd (InlineProvider.provideInlineCompletionItems ext config workspace
             document position triggerKind cancelled)
  | MultilineRequest config document position triggerKind projectContext
      cancelled =>
      snd (MultilineCompletionProvider.provideInlineCompletionItems ext
             config document position triggerKind projectContext cancelled)
  | TimeoutExpires => onUtils Utils.timerFires ext
  | ModelAnswers k text =>
      onUtils (fun st => Utils.responseArrives st k text) ext
  | ModelFails k => onUtils (fun st => Utils.requestFails st k) ext
  | MinutePasses => onUtils Utils.resetCallCount ext
  end.

Definition run (events : list Event) (ext : Extension) : Extension :=
  fold_left step events ext.




End Session.

(** ** The specification's wording, for comparison with the code

    Definitions in this module follow the sentences of the design
    document, not the sources. *)

Module AsStated.

(** "Lines with no leading whitespace receive the base indentation
    prepended; lines whose leading whitespace already matches the base
    indentation are left untouched; lines with some other leading
    whitespace have that whitespace replaced by the base indentation." *)
Definition reindentLine (baseIndentation line : jsstring) : jsstring :=
  let lineIndent := leadingWhitespace line in
  if decide (lineIndent = []) then baseIndentation ++ line
  else if decide (lineIndent = baseIndentation) then line
  else baseIndentation ++ drop (length lineIndent) line.

(** "An assembled string composed of four ordered sections [...] joined
    with blank-line separators, empty sections omitted." *)
Fixpoint assemble (separator : jsstring) (sections : list jsstring)
    : jsstring :=
  match sections with
  | [] => []
  | section :: later =>
      if bool_decide (section = []) then assemble separator later
      else if forallb (fun s => bool_decide (s = [])) later then section
      else section ++ separator ++ assemble separator later
  end.

Definition blankLine : jsstring := [nl; nl].

(** "If no block-opener is found within 30 lines, returns the last 30
    lines verbatim": the last [n] lines of the text before the cursor. *)
Definition lastLinesBeforeCursor (n : nat) (document : TextDocument)
    (position : Position) : jsstring :=
  let lines := splitLines (getTextFromLine document 0 position) in
  join [nl] (drop (length lines - n) lines).

End AsStated.

(** ** Sample inputs used by the examples below *)

Module Samples.

Import Utils ModelManager InlineProvider.

(** Text made of the given lines. *)
Definition text (lines : list string) : jsstring := join [nl] (str <$> lines).

(** A session in which the prompt built for the position after [foo.]
    has been answered with [bar()], followed by some rate-limit checks. *)
Definition commentDocument : TextDocument :=
  {| languageId := str "javascript"; getText := str "// note";
     fsPath := str "/w/c.js"; relativePath := str "c.js" |}.

Definition shortDocument : TextDocument :=
  {| languageId := str "plaintext"; getText := text ["a"; "b"; "c"];
     fsPath := str "/w/notes.txt"; relativePath := str "notes.txt" |}.

(** Forty lines [x]. *)
Definition longDocument : TextDocument :=
  {| languageId := str "plaintext"; getText := text (replicate 40 "x"%string);
     fsPath := str "/w/long.txt"; relativePath := str "long.txt" |}.

Definition emptyDocument : TextDocument :=
  {| languageId := str "plaintext"; getText := [];
     fsPath := str "/w/empty.txt"; relativePath := str "empty.txt" |}.

Definition sampleDocument : TextDocument :=
  {| languageId := str "javascript";
     getText := text ["import a from 'a';"; "foo."];
     fsPath := str "/w/a.js"; relativePath := str "a.js" |}.

Definition samplePosition : Position := {| line := 1; character := 4 |}.

Definition sampleWorkspace : Workspace :=
  {| hasWorkspaceFolder := false; relatedDocuments := Ok [] |}.

Definition samplePrompt : jsstring :=
  buildInlineCompletionPrompt
    (text ["import a from 'a';"; "import a from 'a';"; "foo."])
    (str "javascript").

Definition sampleSession (checks : nat) : Extension :=
  {| utils :=
       run ([Request samplePrompt; TimerFires; Response 0 (str "bar()")]
            ++ replicate checks RateLimitCheck) initial;
     genAI := true |}.

Definition sampleRequest (ext : Extension) : Reply * Extension :=
  provideInlineCompletionItems ext (defaults (str "key")) sampleWorkspace
    sampleDocument samplePosition Automatic false.

(** A document whose only line opens a block, with the cursor at its
    end: both providers go on to ask for a completion there. *)
Definition blockDocument : TextDocument :=
  {| languageId := str "javascript"; getText := str "function f() {";
     fsPath := str "/w/b.js"; relativePath := str "b.js" |}.

Definition blockPosition : Position := {| line := 0; character := 14 |}.

End Samples.

(** ** The test made on each line by the walk of [getCurrentScope] *)

Module ScopeTest.

(** [lineIndent < currentIndent && this.isBlockStart(line.trim())] for
    the line of index [k]. *)
Definition opensScope (languageId : jsstring) (lines : list jsstring)
    (currentIndent k : nat) : bool :=
  (length (leadingWhitespace (lines !!! k)) <? currentIndent)%nat
  && LanguageFeatures.isBlockStart languageId (trim (lines !!! k)).

End ScopeTest.

(** ** Brace balance of a declaration *)

Module DeclarationTest.

(** As many [{] as [}]: the point at which the TypeScript scan closes a
    declaration. *)
Definition bracesBalanced (s : jsstring) : Prop :=
  countChar (LanguageFeatures.ch "{") s = countChar (LanguageFeatures.ch "}") s.

End DeclarationTest.

(** ** Histories of events *)

Module History.

Import Utils.

(** The prompts passed to [getCachedSuggestion], in call order. *)
Definition requested (events : list Event) : list jsstring :=
  omap (fun e => match e with Request prompt => Some prompt | _ => None end)
    events.

(** The texts with which the model answered. *)
Definition answers (events : list Event) : list jsstring :=
  omap (fun e => match e with Response _ text => Some text | _ => None end)
    events.

End History.

(** ** extension.ts, status-bar.ts, telemetry-reporter.ts: enabling and
    disabling

    The module-level disposables of [extension.ts] ([true] for a
    registered provider, [false] for [null]), the status bar item held by
    [StatusBarManager], and the counters that [TelemetryReporter] keeps in
    [globalState].  The settings are those read by each function through
    [getConfiguration("autogem")]; the model covers a period in which
    they do not change. *)

Module Lifecycle.

Record Settings := {
  showStatusBar : bool;
  enableMultilineCompletions : bool;
  enableCodeActions : bool;
  enableTelemetry : bool
}.

Record StatusBarItem := {
  text : jsstring;
  tooltip : jsstring;
  visible : bool
}.

Record State := {
  providerDisposable : bool;
  multilineProviderDisposable : bool;
  codeActionsDisposable : bool;
  statusBarItem : StatusBarItem;
  messageTimeout : bool;               (* a timeout of [showMessage] is armed *)
  globalState : gmap jsstring nat;     (* event counts *)
  information : list jsstring          (* [showInformationMessage], latest first *)
}.

(** The module-level variables as initialised when the module is loaded,
    around the status bar item created by the editor and the counters
    kept from earlier sessions. *)
Definition loaded (item : StatusBarItem) (counts : gmap jsstring nat)
    : State :=
  {| providerDisposable := false; multilineProviderDisposable := false;
     codeActionsDisposable := false; statusBarItem := item;
     messageTimeout := false; globalState := counts; information := [] |}.

Definition withStatusBarItem (st : State) (item : StatusBarItem) : State :=
  {| providerDisposable := providerDisposable st;
     multilineProviderDisposable := multilineProviderDisposable st;
     codeActionsDisposable := codeActionsDisposable st;
     statusBarItem := item;
     messageTimeout := messageTimeout st;
     globalState := globalState st; information := information st |}.

Definition showInformationMessage (message : string) (st : State) : State :=
  {| providerDisposable := providerDisposable st;
     multilineProviderDisposable := multilineProviderDisposable st;
     codeActionsDisposable := codeActionsDisposable st;
     statusBarItem := statusBarItem st;
     messageTimeout := messageTimeout st;
     globalState := globalState st;
     information := str message :: information st |}.

Section WithSettings.

Variable settings : Settings.

(** [StatusBarManager.update] *)
Definition update (isEnabled : bool) (st : State) : State :=
  let item := statusBarItem st in
  if negb (showStatusBar settings) then
    withStatusBarItem st
      {| text := text item; tooltip := tooltip item; visible := false |}
  else if isEnabled then
    withStatusBarItem st
      {| text := str "$(sparkle) AutoGem";
         tooltip := str "AutoGem is enabled. Click to disable.";
         visible := true |}
  else
    withStatusBarItem st
      {| text := str "$(circle-slash) AutoGem";
         tooltip := str "AutoGem is disabled. Click to enable.";
         visible := true |}.

(** [TelemetryReporter.trackEvent] *)
Definition trackEvent (eventName : string) (st : State) : State :=
  if negb (enableTelemetry settings) then st
  else
    let eventCount := default 0 (globalState st !! str eventName) in
    {| providerDisposable := providerDisposable st;
       multilineProviderDisposable := multilineProviderDisposable st;
       codeActionsDisposable := codeActionsDisposable st;
       statusBarItem := statusBarItem st;
       messageTimeout := messageTimeout st;
       globalState := <[str eventName := eventCount + 1]> (globalState st);
       information := information st |}.

Definition registerProviders (st : State) : State :=
  {| providerDisposable := true;
     multilineProviderDisposable :=
       if enableMultilineCompletions settings then true
       else multilineProviderDisposable st;
     codeActionsDisposable :=
       if enableCodeActions settings then true
       else codeActionsDisposable st;
     statusBarItem := statusBarItem st;
     messageTimeout := messageTimeout st;
     globalState := globalState st; information := information st |}.

(** The constructor of [StatusBarManager], [registerProviders] and
    [statusBar.update(true)], as [activate] runs them. *)
Definition activate (st : State) : State :=
  update true (registerProviders (update true st)).

Definition enableExtension (st : State) : State :=
  if negb (providerDisposable st) then
    showInformationMessage "AutoGem enabled successfully."
      (trackEvent "extension_enabled" (update true (registerProviders st)))
  else showInformationMessage "AutoGem is already enabled." st.

Definition disableExtension (st : State) : State :=
  if providerDisposable st then
    let disposed :=
      {| providerDisposable := false;
         multilineProviderDisposable := false;
         codeActionsDisposable := false;
         statusBarItem := statusBarItem st;
         messageTimeout := messageTimeout st;
         globalState := globalState st; information := information st |} in
    showInformationMessage "AutoGem disabled."
      (trackEvent "extension_disabled" (update false disposed))
  else showInformationMessage "AutoGem is already disabled." st.

(** [StatusBarManager.toggle]: the command is chosen from the text of
    the status bar item. *)
Definition toggle (st : State) : State :=
  let isDisabled := includes (text (statusBarItem st)) (str "circle-slash") in
  if isDisabled then enableExtension st else disableExtension st.

(** [StatusBarManager.showMessage] and the callback of its timeout. *)
Definition showMessage (message : jsstring) (st : State) : State :=
  {| providerDisposable := providerDisposable st;
     multilineProviderDisposable := multilineProviderDisposable st;
     codeActionsDisposable := codeActionsDisposable st;
     statusBarItem :=
       {| text := message; tooltip := tooltip (statusBarItem st);
          visible := true |};
     messageTimeout := true;
     globalState := globalState st; information := information st |}.

Definition messageTimeoutFires (st : State) : State :=
  if messageTimeout st then
    {| providerDisposable := providerDisposable st;
       multilineProviderDisposable := multilineProviderDisposable st;
       codeActionsDisposable := codeActionsDisposable st;
       statusBarItem :=
         {| text := text (statusBarItem st);
            tooltip := tooltip (statusBarItem st); visible := false |};
       messageTimeout := false;
       globalState := globalState st; information := information st |}
  else st.

(** The commands [autogem.enable], [autogem.disable] and
    [autogem.toggleStatusBar]. *)
Inductive Command := Enable | Disable | Toggle.

Definition execute (st : State) (command : Command) : State :=
  match command with
  | Enable => enableExtension st
  | Disable => disableExtension st
  | Toggle => toggle st
  end.

Inductive Event :=
| Run (command : Command)
| ShowMessage (message : jsstring)
| MessageTimeoutFires.

Definition step (st : State) (e : Event) : State :=
  match e with
  | Run command => execute st command
  | ShowMessage message => showMessage message st
  | MessageTimeoutFires => messageTimeoutFires st
  end.

Definition run (events : list Event) (st : State) : State :=
  fold_left step events st.

(** How often an event was counted. *)
Definition counted (eventName : string) (st : State) : nat :=
  default 0 (globalState st !! str eventName).

End WithSettings.

(** The status bar text names the state: it carries [circle-slash]
    exactly when no provider is registered. *)
Definition textNamesState (st : State) : Prop :=
  includes (text (statusBarItem st)) (str "circle-slash")
  = negb (providerDisposable st).

(** The counts of effective enabling and disabling, taken from [e0] and
    [d0], differ by one exactly when the providers are not registered. *)
Definition countsFollow (d0 e0 : nat) (st : State) : Prop :=
  counted "extension_disabled" st + e0
  = counted "extension_enabled" st + d0
    + (if providerDisposable st then 0 else 1).

End Lifecycle.

(** * Properties *)

(** ** Facts about the string primitives *)

Section StringFacts.

Implicit Types (s p t line : jsstring) (ls : list jsstring).

Lemma startsWith_spec s p : startsWith s p = true ↔ ∃ r, s = p ++ r.
Proof.
  revert s. induction p as [|a p IH]; intros s; simpl.
  - split; [intros _; by exists s | done].
  - destruct s as [|b s]; simpl.
    + split; [done | intros [r Hr]; discriminate].
    + rewrite andb_true_iff, N.eqb_eq, IH. split.
      * intros [-> [r ->]]. eauto.
      * intros [r Hr]. injection Hr as -> ->. eauto.
Qed.

Lemma startsWith_nil_l p : p ≠ [] → startsWith [] p = false.
Proof. by destruct p. Qed.

Lemma splitLines_nonempty s : splitLines s ≠ [].
Proof.
  destruct s as [|c s]; simpl; [done|].
  destruct (c =? nl)%N; [done|]. by destruct (splitLines s).
Qed.

Lemma splitLines_no_nl s : Forall (fun l => nl ∉ l) (splitLines s).
Proof.
  induction s as [|c s IH]; simpl.
  - repeat constructor. apply not_elem_of_nil.
  - destruct (N.eqb_spec c nl) as [->|Hc].
    + constructor; [apply not_elem_of_nil | done].
    + destruct (splitLines s) as [|l ls].
      * repeat constructor. rewrite list_elem_of_singleton. congruence.
      * inversion_clear IH. constructor; [|done].
        rewrite elem_of_cons. intros [?|?]; [congruence|done].
Qed.

Lemma join_cons2 sep p q ls : join sep (p :: q :: ls) = p ++ sep ++ join sep (q :: ls).
Proof. done. Qed.

Lemma join_splitLines s : join [nl] (splitLines s) = s.
Proof.
  induction s as [|c s IH]; simpl; [done|].
  destruct (N.eqb_spec c nl) as [->|Hc].
  - pose proof (splitLines_nonempty s).
    destruct (splitLines s) as [|l ls] eqn:E; [done|].
    rewrite join_cons2, IH. done.
  - pose proof (splitLines_nonempty s).
    destruct (splitLines s) as [|l ls] eqn:E; [done|].
    destruct ls as [|l' ls].
    + simpl in *. by rewrite IH.
    + rewrite join_cons2 in *. simpl. by rewrite <- IH.
Qed.

Lemma splitLines_single p : nl ∉ p → splitLines p = [p].
Proof.
  induction p as [|c p IH]; intros Hp; simpl; [done|].
  rewrite not_elem_of_cons in Hp. destruct Hp as [Hc Hp].
  destruct (N.eqb_spec c nl) as [->|_]; [done|]. by rewrite IH.
Qed.

Lemma splitLines_app_nl p t :
  nl ∉ p → splitLines (p ++ nl :: t) = p :: splitLines t.
Proof.
  induction p as [|c p IH]; intros Hp; simpl; [done|].
  rewrite not_elem_of_cons in Hp. destruct Hp as [Hc Hp].
  destruct (N.eqb_spec c nl) as [->|_]; [done|]. by rewrite IH.
Qed.

Lemma splitLines_join ls :
  ls ≠ [] → Forall (fun l => nl ∉ l) ls → splitLines (join [nl] ls) = ls.
Proof.
  induction ls as [|p ls IH]; intros Hne Hall; [done|].
  inversion_clear Hall as [|? ? Hp Hls].
  destruct ls as [|q ls].
  - simpl. by apply splitLines_single.
  - rewrite join_cons2. simpl app.
    rewrite splitLines_app_nl by done. f_equal. by apply IH.
Qed.

Lemma beforeFirst_prefix s sep : ∃ r, s = beforeFirst s sep ++ r.
Proof.
  induction s as [|c s [r IH]]; simpl.
  - destruct (startsWith [] sep); by exists [].
  - destruct (startsWith (c :: s) sep); [by eexists|].
    exists r. simpl. by rewrite <- IH.
Qed.

Lemma indexOf_neg s p : (indexOf s p < 0)%Z ↔ indexOf s p = (-1)%Z.
Proof.
  split; [|lia]. revert p. induction s as [|c s IH]; intros p; simpl.
  - destruct (startsWith [] p); lia.
  - destruct (startsWith (c :: s) p); [lia|].
    destruct (Z.ltb_spec (indexOf s p) 0); lia.
Qed.

Lemma indexOf_ge_m1 s p : (-1 <= indexOf s p)%Z.
Proof.
  induction s as [|c s IH]; simpl.
  - destruct (startsWith [] p); lia.
  - destruct (startsWith (c :: s) p); [lia|].
    destruct (Z.ltb_spec (indexOf s p) 0); lia.
Qed.

Lemma includes_cons_false c s p :
  startsWith (c :: s) p = false → includes s p = false →
  includes (c :: s) p = false.
Proof.
  unfold includes. simpl. intros -> H.
  apply Z.leb_gt in H. apply Z.leb_gt.
  destruct (Z.ltb_spec (indexOf s p) 0); lia.
Qed.

(** The text before the first occurrence of a separator does not contain
    the separator. *)
Lemma beforeFirst_not_includes s sep :
  sep ≠ [] → includes (beforeFirst s sep) sep = false.
Proof.
  intros Hsep. induction s as [|c s IH]; simpl.
  - assert (includes [] sep = false) as H.
    { unfold includes. simpl. by rewrite startsWith_nil_l. }
    by destruct (startsWith [] sep).
  - destruct (startsWith (c :: s) sep) eqn:E.
    + unfold includes. simpl. by rewrite startsWith_nil_l.
    + apply includes_cons_false; [|done].
      apply not_true_is_false. intros Hs. apply startsWith_spec in Hs as [r Hr].
      destruct (beforeFirst_prefix s sep) as [r' Hr'].
      assert (startsWith (c :: s) sep = true); [|congruence].
      apply startsWith_spec. exists (r ++ r').
      rewrite (app_assoc sep), <- Hr. simpl. by rewrite <- Hr'.
Qed.

Lemma takeWhile_dropWhile (q : N → bool) s :
  takeWhile q s ++ dropWhile q s = s.
Proof.
  induction s as [|c s IH]; simpl; [done|].
  destruct (q c); simpl; [by rewrite IH | done].
Qed.

Lemma takeWhile_forallb (q : N → bool) s : forallb q (takeWhile q s) = true.
Proof.
  induction s as [|c s IH]; simpl; [done|].
  destruct (q c) eqn:E; simpl; [by rewrite E | done].
Qed.

Lemma dropWhile_app_stop (q : N → bool) w c rest :
  forallb q w = true → q c = false →
  dropWhile q (w ++ c :: rest) = c :: rest.
Proof.
  intros Hw Hc. induction w as [|a w IH]; simpl in *.
  - by rewrite Hc.
  - apply andb_true_iff in Hw as [-> Hw]. by apply IH.
Qed.

End StringFacts.

(** ** The pattern matcher *)

Section RegexFacts.

Import Regex.

Implicit Types (r : regex) (s : jsstring) (c : N).

Lemma matches_Void s : matches Void s ↔ False.
Proof. split; [inversion 1 | done]. Qed.

Lemma matches_Eps s : matches Eps s ↔ s = [].
Proof. split; [by inversion 1 | intros ->; constructor]. Qed.

Lemma matches_Cls p s : matches (Cls p) s ↔ ∃ c, s = [c] ∧ p c = true.
Proof.
  split; [inversion 1; eauto | intros (c & -> & ?); by constructor].
Qed.

Lemma matches_Cat r1 r2 s :
  matches (Cat r1 r2) s
  ↔ ∃ s1 s2, s = s1 ++ s2 ∧ matches r1 s1 ∧ matches r2 s2.
Proof.
  split; [inversion 1; eauto | intros (s1 & s2 & -> & ? & ?); by constructor].
Qed.

Lemma matches_Alt r1 r2 s :
  matches (Alt r1 r2) s ↔ matches r1 s ∨ matches r2 s.
Proof.
  split; [inversion 1; eauto|].
  intros [?|?]; [by apply MatchAltL | by apply MatchAltR].
Qed.

Lemma matches_cat r1 r2 s : matches (cat r1 r2) s ↔ matches (Cat r1 r2) s.
Proof.
  rewrite matches_Cat. unfold cat.
  destruct r1; destruct r2;
    (split;
     [ first [ by intros ?%matches_Void
             | intros H; apply matches_Cat in H; exact H
             | intros H; exists [], s; repeat split; [constructor | exact H] ]
     | intros (s1 & s2 & -> & H1 & H2);
       first [ by apply matches_Void in H1
             | by apply matches_Void in H2
             | apply matches_Eps in H1; subst; exact H2
             | by constructor ] ]).
Qed.

Lemma matches_alt r1 r2 s : matches (alt r1 r2) s ↔ matches (Alt r1 r2) s.
Proof.
  rewrite matches_Alt. unfold alt.
  destruct r1; try (destruct r2);
    rewrite ?matches_Void, ?matches_Alt; tauto.
Qed.

Lemma nullable_spec r : nullable r = true ↔ matches r [].
Proof.
  induction r as [| |p|r1 IH1 r2 IH2|r1 IH1 r2 IH2|r IH]; simpl.
  - rewrite matches_Void. split; [discriminate | done].
  - by rewrite matches_Eps.
  - rewrite matches_Cls. split; [discriminate | by intros (? & ? & _)].
  - rewrite andb_true_iff, IH1, IH2, matches_Cat. split.
    + intros [? ?]. by exists [], [].
    + intros (s1 & s2 & Heq & ? & ?). symmetry in Heq.
      apply app_eq_nil in Heq as [-> ->]. done.
  - rewrite orb_true_iff, IH1, IH2, matches_Alt. done.
  - split; [constructor | done].
Qed.

(** A non-empty match of [Star r] starts with a non-empty match of [r]. *)
Lemma matches_Star_cons r c s :
  matches (Star r) (c :: s)
  → ∃ s1 s2, s = s1 ++ s2 ∧ matches r (c :: s1) ∧ matches (Star r) s2.
Proof.
  intros H. remember (Star r) as r' eqn:Er. remember (c :: s) as s' eqn:Es.
  revert c s Es.
  induction H as [| | | | | |r0 s1 s2 H1 _ H2 IH2]; intros a t Es;
    try discriminate.
  injection Er as ->. destruct s1 as [|c1 s1].
  - simpl in Es. by apply IH2.
  - injection Es as Hc Ht. subst. eauto.
Qed.

Lemma deriv_spec c r s : matches (deriv c r) s ↔ matches r (c :: s).
Proof.
  revert s. induction r as [| |p|r1 IH1 r2 IH2|r1 IH1 r2 IH2|r IH];
    intros s; simpl.
  - by rewrite !matches_Void.
  - rewrite matches_Void, matches_Eps. split; [done | discriminate].
  - rewrite matches_Cls. destruct (p c) eqn:Ep.
    + rewrite matches_Eps. split.
      * intros ->. eauto.
      * intros (? & Heq & _). by injection Heq.
    + rewrite matches_Void. split; [done|].
      intros (? & Heq & ?). injection Heq as Hc _. congruence.
  - assert (matches (cat (deriv c r1) r2) s
            ↔ ∃ s1 s2, s = s1 ++ s2 ∧ matches r1 (c :: s1) ∧ matches r2 s2)
      as Hcat.
    { rewrite matches_cat, matches_Cat. by setoid_rewrite IH1. }
    assert (matches (Cat r1 r2) (c :: s)
            ↔ (∃ s1 s2, s = s1 ++ s2 ∧ matches r1 (c :: s1) ∧ matches r2 s2)
              ∨ (matches r1 [] ∧ matches r2 (c :: s))) as Hsplit.
    { rewrite matches_Cat. split.
      - intros ([|c1 s1] & s2 & Heq & H1 & H2).
        + right. simpl in Heq. by subst.
        + left. injection Heq as <- ->. eauto.
      - intros [(s1 & s2 & -> & H1 & H2) | [H1 H2]].
        + by exists (c :: s1), s2.
        + by exists [], (c :: s). }
    rewrite Hsplit. destruct (nullable r1) eqn:En.
    + apply nullable_spec in En.
      rewrite matches_alt, matches_Alt, Hcat, IH2. tauto.
    + rewrite Hcat. split; [tauto|]. intros [?|[Hn _]]; [done|].
      apply nullable_spec in Hn. congruence.
  - by rewrite matches_alt, !matches_Alt, IH1, IH2.
  - rewrite matches_cat, matches_Cat. setoid_rewrite IH. split.
    + intros (s1 & s2 & -> & H1 & H2).
      by apply (MatchStarApp r (c :: s1) s2).
    + apply matches_Star_cons.
Qed.

Lemma matches_chr c s : matches (chr c) s ↔ s = [c].
Proof.
  unfold chr. rewrite matches_Cls. split.
  - by intros (x & -> & ->%N.eqb_eq).
  - intros ->. exists c. by rewrite N.eqb_refl.
Qed.

Lemma matches_lit' t s : matches (lit' t) s ↔ s = t.
Proof.
  revert s. induction t as [|c t IH]; intros s; simpl.
  - apply matches_Eps.
  - rewrite matches_Cat. setoid_rewrite matches_chr. setoid_rewrite IH.
    split; [by intros (? & ? & -> & -> & ->) | intros ->; by exists [c], t].
Qed.

Lemma matches_Star_Cls p s :
  matches (Star (Cls p)) s ↔ forallb p s = true.
Proof.
  split.
  - intros H. remember (Star (Cls p)) as r eqn:Er.
    induction H as [| | | | | |r0 s1 s2 H1 _ H2 IH2]; try discriminate; [done|].
    injection Er as ->. apply matches_Cls in H1 as (c & -> & Hc).
    simpl. rewrite Hc. by apply IH2.
  - induction s as [|c s IH]; simpl; [constructor|].
    intros [Hc Hs]%andb_true_iff.
    apply (MatchStarApp (Cls p) [c] s); [by constructor | by apply IH].
Qed.

(** The derivative matcher decides the language of the pattern. *)
Lemma fullMatch_spec r s : fullMatch r s = true ↔ matches r s.
Proof.
  revert r. induction s as [|c s IH]; intros r; simpl.
  - apply nullable_spec.
  - by rewrite IH, deriv_spec.
Qed.

Lemma matches_anything s : matches anything s.
Proof.
  induction s as [|c s IH]; [constructor|].
  apply (MatchStarApp anyChar [c] s); [by constructor | done].
Qed.

(** An unanchored pattern is looked for anywhere in the text. *)
Lemma search_spec r s :
  search r s = true ↔ ∃ before found after,
    s = before ++ found ++ after ∧ matches r found.
Proof.
  unfold search. rewrite fullMatch_spec, matches_Cat.
  setoid_rewrite matches_Cat. split.
  - intros (before & ? & -> & _ & found & after & -> & ? & _). eauto.
  - intros (before & found & after & -> & ?).
    exists before, (found ++ after).
    repeat split; [apply matches_anything|].
    exists found, after. repeat split; [done | apply matches_anything].
Qed.

Lemma searchFromStart_spec r s :
  searchFromStart r s = true ↔ ∃ found after,
    s = found ++ after ∧ matches r found.
Proof.
  unfold searchFromStart. rewrite fullMatch_spec, matches_Cat. split.
  - intros (found & after & -> & ? & _). eauto.
  - intros (found & after & -> & ?). exists found, after.
    repeat split; [done | apply matches_anything].
Qed.

Lemma searchToEnd_spec r s :
  searchToEnd r s = true ↔ ∃ before found,
    s = before ++ found ∧ matches r found.
Proof.
  unfold searchToEnd. rewrite fullMatch_spec, matches_Cat. split.
  - intros (before & found & -> & _ & ?). eauto.
  - intros (before & found & -> & ?). exists before, found.
    repeat split; [apply matches_anything | done].
Qed.

End RegexFacts.

(** ** The response sanitizer *)

Section Sanitizer.

Import ModelManager.

Import Regex.

Lemma matches_fenceOpener found :
  matches fenceOpener found
  ↔ ∃ w, found = fence ++ w ++ [nl] ∧ forallb isWordChar w = true.
Proof.
  unfold fenceOpener, seq. cbn [foldr]. split.
  - intros (s1 & s2 & -> & H1 & H2)%matches_Cat.
    apply matches_lit' in H1 as ->.
    apply matches_Cat in H2 as (w & s3 & -> & Hw & H3).
    apply matches_Star_Cls in Hw.
    apply matches_Cat in H3 as (s4 & s5 & -> & ->%matches_chr & ->%matches_Eps).
    exists w. by rewrite app_nil_r.
  - intros (w & -> & Hw). apply matches_Cat. exists fence, (w ++ [nl]).
    split; [done|]. split; [by apply matches_lit'|].
    apply matches_Cat. exists w, [nl].
    split; [done|]. split; [by apply matches_Star_Cls|].
    apply matches_Cat. exists [nl], [].
    split; [done|]. split; [by apply matches_chr | by apply matches_Eps].
Qed.

(** [stripFenceOpen] removes a match of the opening pattern at the start
    of the text, whichever it is, and keeps a text without such a match. *)
Lemma stripFenceOpen_match found rest :
  matches fenceOpener found → stripFenceOpen (found ++ rest) = rest.
Proof.
  intros (w & -> & Hw)%matches_fenceOpener. unfold stripFenceOpen.
  assert (startsWith ((fence ++ w ++ [nl]) ++ rest) fence = true) as ->.
  { apply startsWith_spec. exists (w ++ [nl] ++ rest).
    by rewrite <- !app_assoc. }
  replace (drop 3 ((fence ++ w ++ [nl]) ++ rest)) with (w ++ nl :: rest)
    by (rewrite <- !app_assoc; done).
  by rewrite dropWhile_app_stop.
Qed.

Lemma stripFenceOpen_no_match s :
  searchFromStart fenceOpener s = false → stripFenceOpen s = s.
Proof.
  intros Hno. unfold stripFenceOpen.
  destruct (startsWith s fence) eqn:Es; [|done].
  apply startsWith_spec in Es as [r ->].
  replace (drop 3 (fence ++ r)) with r by done.
  destruct (dropWhile isWordChar r) as [|c rest] eqn:Ed; [done|].
  destruct (N.eqb_spec c nl) as [->|]; [|done].
  assert (searchFromStart fenceOpener (fence ++ r) = true); [|congruence].
  apply searchFromStart_spec.
  exists (fence ++ takeWhile isWordChar r ++ [nl]), rest. split.
  - rewrite <- (takeWhile_dropWhile isWordChar r) at 1. rewrite Ed.
    by rewrite <- !app_assoc.
  - apply matches_fenceOpener. eexists. split; [done|].
    apply takeWhile_forallb.
Qed.

Lemma stripFenceClose_match before found :
  matches fenceCloser found → stripFenceClose (before ++ found) = before.
Proof.
  intros ->%matches_lit'. unfold stripFenceClose.
  assert (endsWith (before ++ nl :: fence) (nl :: fence) = true) as ->.
  { unfold endsWith. apply startsWith_spec. exists (rev before).
    apply rev_app_distr. }
  apply take_app_length'. rewrite length_app. simpl. lia.
Qed.

Lemma stripFenceClose_no_match s :
  searchToEnd fenceCloser s = false → stripFenceClose s = s.
Proof.
  intros Hno. unfold stripFenceClose.
  destruct (endsWith s (nl :: fence)) eqn:Es; [|done].
  assert (searchToEnd fenceCloser s = true); [|congruence].
  unfold endsWith in Es. apply startsWith_spec in Es as [r Hr].
  apply searchToEnd_spec. exists (rev r), (nl :: fence). split.
  - apply (f_equal (@rev _)) in Hr.
    by rewrite rev_involutive, rev_app_distr, rev_involutive in Hr.
  - by apply matches_lit'.
Qed.

(** After sanitizing, no blank line is left in the text. *)
Lemma sanitizeCompletion_no_blank_line x :
  includes (sanitizeCompletion x) [nl; nl] = false.
Proof.
  unfold sanitizeCompletion. cbv zeta.
  destruct (includes (stripFenceClose _) [nl; nl]) eqn:E; [|done].
  by apply beforeFirst_not_includes.
Qed.

(** C5, as stated, fails: the paragraph cut can expose trailing white
    space, which a second pass trims. *)
Lemma sanitize_not_idempotent :
  let x := str "a " ++ [nl; nl] ++ str "b" in
  sanitizeCompletion x = str "a " ∧
  sanitizeCompletion (sanitizeCompletion x) = str "a" ∧
  sanitizeCompletion (sanitizeCompletion x) ≠ sanitizeCompletion x.
Proof. by vm_compute. Qed.

(** The same happens with fenced answers: stripping the fences exposes
    the indentation of the first line, and a closing fence followed by a
    prose paragraph survives the first pass. *)
Lemma sanitize_fenced_twice :
  let x := join [nl] (str <$> ["```ts"; "  foo"; "```"]%string) in
  let y := join [nl] (str <$> ["```ts"; "foo();"; "```"; ""; "Done."]%string) in
  sanitizeCompletion x = str "  foo" ∧
  sanitizeCompletion (sanitizeCompletion x) = str "foo" ∧
  sanitizeCompletion y = join [nl] (str <$> ["foo();"; "```"]%string) ∧
  sanitizeCompletion (sanitizeCompletion y) = str "foo();".
Proof. by vm_compute. Qed.

Lemma dropWhile_shrinking p : shrinking (dropWhile p).
Proof.
  intros s. induction s as [|c s [IHle IHeq]]; simpl; [done|].
  destruct (p c); simpl; [|done]. split; lia.
Qed.

Lemma trimEnd_shrinking : shrinking trimEnd.
Proof.
  intros s. unfold trimEnd, trimStart.
  destruct (dropWhile_shrinking isWhiteSpace (rev s)) as [Hle Heq].
  rewrite length_rev in *. split; [done|].
  intros H. rewrite (Heq H). apply rev_involutive.
Qed.

Lemma shrinking_compose f g : shrinking f → shrinking g → shrinking (g ∘ f).
Proof.
  intros Hf Hg s. unfold compose.
  destruct (Hf s) as [Hfle Hfeq]. destruct (Hg (f s)) as [Hgle Hgeq].
  split; [lia|]. intros H. rewrite Hgeq by lia. apply Hfeq. lia.
Qed.

Lemma trim_shrinking : shrinking trim.
Proof.
  apply (shrinking_compose trimStart trimEnd);
    [apply dropWhile_shrinking | apply trimEnd_shrinking].
Qed.

Lemma stripFenceOpen_shrinking : shrinking stripFenceOpen.
Proof.
  intros s. unfold stripFenceOpen.
  destruct (startsWith s fence); [|done].
  destruct (dropWhile isWordChar (drop 3 s)) as [|c rest] eqn:E; [done|].
  destruct (c =? nl)%N; [|done].
  pose proof (proj1 (dropWhile_shrinking isWordChar (drop 3 s))) as Hle.
  rewrite E, length_drop in Hle. simpl in Hle. split; lia.
Qed.

Lemma endsWith_length s p : endsWith s p = true → length p ≤ length s.
Proof.
  unfold endsWith. intros [r Hr]%startsWith_spec.
  apply (f_equal length) in Hr. rewrite length_app, !length_rev in Hr. lia.
Qed.

Lemma stripFenceClose_shrinking : shrinking stripFenceClose.
Proof.
  intros s. unfold stripFenceClose.
  destruct (endsWith s (nl :: fence)) eqn:E; [|done].
  apply endsWith_length in E. cbn in E. rewrite length_take. split; lia.
Qed.

Lemma firstParagraph_shrinking :
  shrinking (fun s => if includes s [nl; nl] then beforeFirst s [nl; nl]
                      else s).
Proof.
  intros s. destruct (includes s [nl; nl]); [|done].
  destruct (beforeFirst_prefix s [nl; nl]) as [r Hr].
  pose proof (f_equal length Hr) as Hlen. rewrite length_app in Hlen.
  split; [lia|]. intros H. destruct r; [|simpl in Hlen; lia].
  by rewrite app_nil_r in Hr.
Qed.

(** The texts that [sanitizeCompletion] leaves unchanged. *)
Lemma sanitizeCompletion_fixed_point y :
  sanitizeCompletion y = y
  ↔ trim y = y ∧ stripFenceOpen y = y ∧ stripFenceClose y = y
    ∧ includes y [nl; nl] = false.
Proof.
  split.
  - intros Hfix.
    pose proof (trim_shrinking y) as [Ht Hteq].
    pose proof (stripFenceOpen_shrinking (trim y)) as [Ho Hoeq].
    pose proof (stripFenceClose_shrinking (stripFenceOpen (trim y)))
      as [Hc Hceq].
    pose proof (firstParagraph_shrinking
                  (stripFenceClose (stripFenceOpen (trim y)))) as [Hp _].
    cbv beta in Hp. fold (sanitizeCompletion y) in Hp. rewrite Hfix in Hp.
    assert (trim y = y) as Htrim by (apply Hteq; lia).
    rewrite Htrim in *.
    assert (stripFenceOpen y = y) as Hopen by (apply Hoeq; lia).
    rewrite Hopen in *.
    assert (stripFenceClose y = y) as Hclose by (apply Hceq; lia).
    repeat split; try done.
    rewrite <- Hfix. apply sanitizeCompletion_no_blank_line.
  - intros (Htrim & Hopen & Hclose & Hpara). unfold sanitizeCompletion.
    cbv zeta. by rewrite Htrim, Hopen, Hclose, Hpara.
Qed.

(** C5 (amended): a second pass changes nothing exactly when the first
    result is already trimmed and carries no fence line that the
    stripping steps would remove; the cut at the first blank line never
    needs a second pass. *)
Theorem sanitize_idempotent_on_clean_output x :
  let y := sanitizeCompletion x in
  sanitizeCompletion y = y
  ↔ trim y = y ∧ stripFenceOpen y = y ∧ stripFenceClose y = y.
Proof.
  intros y. rewrite sanitizeCompletion_fixed_point.
  pose proof (sanitizeCompletion_no_blank_line x). fold y in H. tauto.
Qed.

Lemma sanitize_idempotent_on_clean_output_witness :
  let x := join [nl] (str <$> ["```ts"; "foo();"; "```"]%string) in
  sanitizeCompletion x = str "foo();" ∧
  sanitizeCompletion (sanitizeCompletion x) = sanitizeCompletion x.
Proof.
  split; [by vm_compute|].
  apply sanitize_idempotent_on_clean_output; by vm_compute.
Defined.

End Sanitizer.

(** ** Re-indentation of multi-line suggestions *)

Section Reindentation.

Import MultilineProvider.

Implicit Types (suggestion base line : jsstring).

Lemma dropWhile_nil_iff p s : dropWhile p s = [] ↔ forallb p s = true.
Proof.
  induction s as [|c s IH]; simpl; [done|].
  destruct (p c); simpl; [done|]. split; discriminate.
Qed.

Lemma dropWhile_head p s c t : dropWhile p s = c :: t → p c = false.
Proof.
  induction s as [|a s IH]; simpl; [done|].
  destruct (p a) eqn:E; [done|]. by intros [= -> _].
Qed.

Lemma forallb_rev {A} (p : A → bool) (l : list A) :
  forallb p (rev l) = forallb p l.
Proof.
  induction l as [|a l IH]; simpl; [done|].
  rewrite forallb_app, IH. simpl. rewrite andb_true_r. apply andb_comm.
Qed.

(** [!line.trim()] holds exactly for the lines made of white space only
    (the empty line included). *)
Lemma trim_nil_iff line : trim line = [] ↔ forallb isWhiteSpace line = true.
Proof.
  unfold trim, trimEnd, trimStart. split.
  - intros H. apply (f_equal (@rev _)) in H. rewrite rev_involutive in H.
    simpl in H. apply dropWhile_nil_iff in H. rewrite forallb_rev in H.
    destruct (dropWhile isWhiteSpace line) as [|c t] eqn:E.
    + by apply dropWhile_nil_iff.
    + apply dropWhile_head in E. simpl in H. by rewrite E in H.
  - intros H. apply dropWhile_nil_iff in H. by rewrite H.
Qed.

Lemma indentLine_no_nl base i line :
  nl ∉ base → nl ∉ line → nl ∉ indentLine base i line.
Proof.
  intros Hb Hl. unfold indentLine, substringFrom.
  repeat case_match; try done; rewrite elem_of_app; intros [?|Hd]; try done.
  by apply subseteq_drop in Hd.
Qed.

Lemma indentLine_later base i line :
  0 < i → trim line ≠ [] →
  indentLine base i line
  = match leadingWhitespace line with
    | [] => base ++ line
    | _ :: _ =>
        if startsWith line base then line
        else base ++ drop (length (leadingWhitespace line)) line
    end.
Proof.
  intros Hpos Hvis. unfold indentLine, substringFrom.
  rewrite bool_decide_eq_false_2 by lia.
  destruct (trim line); [done|]. by destruct (leadingWhitespace line).
Qed.

(** Line by line, [applyIndentation] is the map of [indentLine]. *)
Lemma applyIndentation_lines suggestion base :
  nl ∉ base →
  splitLines (applyIndentation suggestion base)
  = imap (indentLine base) (splitLines suggestion).
Proof.
  intros Hb. unfold applyIndentation.
  pose proof (splitLines_nonempty suggestion) as Hne.
  pose proof (splitLines_no_nl suggestion) as Hnl.
  destruct (Nat.leb_spec (length (splitLines suggestion)) 1) as [Hlen|Hlen].
  - destruct (splitLines suggestion) as [|l [|l' ls]]; simpl in *; [done|done|lia].
  - apply splitLines_join.
    + destruct (splitLines suggestion); simpl in *; [lia|done].
    + apply Forall_lookup. intros i out. rewrite list_lookup_imap.
      destruct (splitLines suggestion !! i) as [line|] eqn:E; [|done].
      intros [= <-]. apply indentLine_no_nl; [done|].
      eapply Forall_lookup_1 in Hnl; eauto.
Qed.

(** C10: re-indentation keeps the number of lines, the first line and
    every line made of white space only.  The base indentation is the
    leading white space of a document line, hence free of line feeds. *)
Theorem applyIndentation_frame suggestion base :
  nl ∉ base →
  length (splitLines (applyIndentation suggestion base))
  = length (splitLines suggestion) ∧
  ∀ i line,
    splitLines suggestion !! i = Some line →
    i = 0 ∨ forallb isWhiteSpace line = true →
    splitLines (applyIndentation suggestion base) !! i = Some line.
Proof.
  intros Hb. rewrite applyIndentation_lines by done. split.
  - apply length_imap.
  - intros i line Hi Hcase. rewrite list_lookup_imap, Hi. simpl. f_equal.
    unfold indentLine. destruct Hcase as [->|Hws]; [done|].
    apply trim_nil_iff in Hws. rewrite Hws. simpl. by case_bool_decide.
Qed.

Lemma base_two_spaces_no_nl : nl ∉ str "  ".
Proof. by apply (bool_decide_unpack _). Qed.

Lemma applyIndentation_frame_witness :
  let suggestion := join [nl] (str <$> ["if (x) {"; "   "; "y();"; "}"]%string) in
  length (splitLines (applyIndentation suggestion (str "  "))) = 4 ∧
  splitLines (applyIndentation suggestion (str "  ")) !! 1 = Some (str "   ").
Proof.
  intros suggestion.
  destruct (applyIndentation_frame suggestion (str "  ") base_two_spaces_no_nl)
    as [Hlen Hkeep].
  split; [by rewrite Hlen|].
  apply Hkeep; [done|]. by right.
Defined.

(** C6, as stated, fails: a line indented deeper than the base
    indentation starts with it and is therefore kept as it is, although
    its leading white space is not the base indentation. *)
Lemma applyIndentation_keeps_deeper_indentation :
  let suggestion := join [nl] (str <$> ["foo() {"; "    bar();"; "}"]%string) in
  let base := str "  " in
  leadingWhitespace (str "    bar();") ≠ base ∧
  AsStated.reindentLine base (str "    bar();") = str "  bar();" ∧
  splitLines (applyIndentation suggestion base) !! 1 = Some (str "    bar();") ∧
  splitLines (applyIndentation suggestion base) !! 1
  ≠ Some (AsStated.reindentLine base (str "    bar();")).
Proof. by vm_compute. Qed.

(** C6 (amended): the first line is kept; a later line with visible
    content receives the base indentation when it has no leading white
    space, is kept when it starts with the base indentation, and
    otherwise has its leading white space replaced by the base
    indentation.  The example of the design document is an instance of
    the first case. *)
Theorem applyIndentation_cases suggestion base :
  nl ∉ base →
  let lines := splitLines suggestion in
  let out := splitLines (applyIndentation suggestion base) in
  out !! 0 = lines !! 0 ∧
  (∀ i line, lines !! i = Some line → 0 < i → trim line ≠ [] →
     (leadingWhitespace line = [] → out !! i = Some (base ++ line)) ∧
     (leadingWhitespace line ≠ [] → startsWith line base = true →
        out !! i = Some line) ∧
     (leadingWhitespace line ≠ [] → startsWith line base = false →
        out !! i
        = Some (base ++ drop (length (leadingWhitespace line)) line))) ∧
  (∀ rest,
     splitLines (applyIndentation
                   (str "foo() {" ++ nl :: str "bar();" ++ nl :: rest)
                   (str "  ")) !! 1
     = Some (str "  bar();")).
Proof.
  intros Hb lines out.
  assert (∀ i, out !! i = indentLine base i <$> lines !! i) as Hlook.
  { intros i. subst out lines. rewrite applyIndentation_lines by done.
    apply list_lookup_imap. }
  clearbody out lines. split; [|split].
  - rewrite Hlook. by destruct (lines !! 0).
  - intros i line Hi Hpos Hvis. rewrite Hlook, Hi.
    change (indentLine base i <$> Some line) with (Some (indentLine base i line)).
    rewrite indentLine_later by done.
    destruct (leadingWhitespace line) eqn:El.
    + split; [done|]. split; by intros [].
    + split; [done|]. split; by intros _ ->.
  - intros rest. rewrite applyIndentation_lines by apply base_two_spaces_no_nl.
    rewrite (splitLines_app_nl (str "foo() {")) by by apply (bool_decide_unpack _).
    rewrite (splitLines_app_nl (str "bar();")) by by apply (bool_decide_unpack _).
    done.
Qed.

Lemma applyIndentation_cases_witness :
  let suggestion := join [nl] (str <$> ["foo() {"; "bar();"; "	baz();"; "}"]%string) in
  let out := splitLines (applyIndentation suggestion (str "  ")) in
  out !! 0 = Some (str "foo() {") ∧ out !! 1 = Some (str "  bar();").
Proof.
  intros suggestion out.
  destruct (applyIndentation_cases suggestion (str "  ") base_two_spaces_no_nl)
    as (H0 & Hcases & _).
  split; [exact H0|].
  destruct (Hcases 1 (str "bar();")) as (Ha & _ & _); [done|lia|done|].
  by apply Ha.
Defined.

End Reindentation.

(** ** The rate limiter *)

Section RateLimiter.

Import Utils.

Lemma rateLimitCheck_fst st :
  fst (rateLimitCheck st) = bool_decide (callCount st < MAX_CALLS_PER_MINUTE).
Proof.
  unfold rateLimitCheck.
  destruct (Nat.leb_spec MAX_CALLS_PER_MINUTE (callCount st)); simpl.
  - by rewrite bool_decide_eq_false_2 by lia.
  - by rewrite bool_decide_eq_true_2 by lia.
Qed.

Lemma rateLimitCheck_snd st :
  callCount st ≤ MAX_CALLS_PER_MINUTE →
  callCount (snd (rateLimitCheck st))
  = S (callCount st) `min` MAX_CALLS_PER_MINUTE.
Proof.
  intros Hle. unfold rateLimitCheck.
  destruct (Nat.leb_spec MAX_CALLS_PER_MINUTE (callCount st));
    cbn [snd callCount]; lia.
Qed.

Lemma step_callCount st e :
  e ≠ MinuteTick → callCount st ≤ MAX_CALLS_PER_MINUTE →
  callCount (step st e)
  = (callCount st + (if isCheck e then 1 else 0)) `min` MAX_CALLS_PER_MINUTE.
Proof.
  intros Hne Hle. destruct e; cbn [step isCheck]; try done.
  - unfold getCachedSuggestion. destruct (_ !! _); cbn [snd callCount]; lia.
  - unfold timerFires. destruct (timer st); cbn [callCount]; lia.
  - unfold responseArrives. destruct (_ !! _); cbn [callCount]; lia.
  - unfold requestFails. destruct (_ !! _); cbn [callCount]; lia.
  - rewrite rateLimitCheck_snd by done. lia.
Qed.

Lemma run_callCount events st :
  MinuteTick ∉ events → callCount st ≤ MAX_CALLS_PER_MINUTE →
  callCount (run events st)
  = (callCount st + checksMade events) `min` MAX_CALLS_PER_MINUTE.
Proof.
  revert st. induction events as [|e events IH]; intros st Hno Hle.
  - unfold checksMade. cbn [run fold_left List.filter length]. lia.
  - apply not_elem_of_cons in Hno as [Hne Hno].
    change (run (e :: events) st) with (run events (step st e)).
    pose proof (step_callCount st e (not_eq_sym Hne) Hle) as Hstep.
    rewrite IH by (done || lia). rewrite Hstep.
    unfold checksMade. cbn [List.filter].
    destruct (isCheck e); cbn [length]; lia.
Qed.

Lemma step_callCount_le st e :
  callCount st ≤ MAX_CALLS_PER_MINUTE →
  callCount (step st e) ≤ MAX_CALLS_PER_MINUTE.
Proof.
  intros Hle. destruct e; try (rewrite step_callCount by done; lia).
  cbn [step resetCallCount callCount]. lia.
Qed.

Lemma run_callCount_le events st :
  callCount st ≤ MAX_CALLS_PER_MINUTE →
  callCount (run events st) ≤ MAX_CALLS_PER_MINUTE.
Proof.
  revert st. induction events as [|e events IH]; intros st Hle; [done|].
  apply IH. by apply step_callCount_le.
Qed.

(** Calls of [rateLimitCheck]: in a window, i.e. after a reset and
    before the next one, the counter is the number of calls made, capped
    at the ceiling of 60; a further call passes exactly when fewer than
    60 were made.  Over any history the counter stays within the
    ceiling. *)
Lemma rate_limit_window :
  (∀ st events,
     MinuteTick ∉ events →
     let window := run events (resetCallCount st) in
     callCount window = checksMade events `min` MAX_CALLS_PER_MINUTE ∧
     fst (rateLimitCheck window)
     = bool_decide (checksMade events < MAX_CALLS_PER_MINUTE)) ∧
  (∀ events, callCount (run events initial) ≤ MAX_CALLS_PER_MINUTE) ∧
  MAX_CALLS_PER_MINUTE = 60.
Proof.
  split; [|split; [|done]].
  - intros st events Hno window.
    assert (callCount window = checksMade events `min` MAX_CALLS_PER_MINUTE)
      as Hcount.
    { unfold window. rewrite run_callCount;
        cbn [resetCallCount callCount]; [done|done|lia]. }
    split; [done|]. rewrite rateLimitCheck_fst, Hcount.
    apply bool_decide_ext. unfold MAX_CALLS_PER_MINUTE. lia.
  - intros events. apply run_callCount_le. cbn [initial callCount]. lia.
Qed.

End RateLimiter.

(** ** Cache and debounce *)

Section Debounce.

Import Utils.

Implicit Types (st : State) (prompt text : jsstring).

Lemma getCachedSuggestion_hit st prompt suggestion :
  suggestionCache st !! prompt = Some suggestion →
  getCachedSuggestion st prompt
  = (nextCaller st,
     {| callCount := callCount st; suggestionCache := suggestionCache st;
        timer := timer st; inFlight := inFlight st;
        upstreamCalls := upstreamCalls st;
        settled := <[nextCaller st := Resolved suggestion]> (settled st);
        nextCaller := S (nextCaller st) |}).
Proof. unfold getCachedSuggestion, getCacheKey. by intros ->. Qed.

Lemma getCachedSuggestion_miss st prompt :
  suggestionCache st !! prompt = None →
  getCachedSuggestion st prompt
  = (nextCaller st,
     {| callCount := callCount st; suggestionCache := suggestionCache st;
        timer := Some {| caller := nextCaller st; prompt := prompt |};
        inFlight := inFlight st; upstreamCalls := upstreamCalls st;
        settled := settled st; nextCaller := S (nextCaller st) |}).
Proof. unfold getCachedSuggestion, getCacheKey. by intros ->. Qed.

Lemma orphaned_step c st e : orphaned c st → orphaned c (step st e).
Proof.
  intros Horph. pose proof Horph as (Hlt & Hnone & Htimer & Hfly).
  destruct e as [prompt| |k text|k| |]; cbn [step].
  - unfold getCachedSuggestion.
    destruct (suggestionCache st !! getCacheKey prompt); cbn [snd];
      (split; [cbn; lia|]); (split; [cbn|]).
    + rewrite lookup_insert_ne by lia. done.
    + done.
    + done.
    + split; [|done]. cbn. intros p [= <-]. cbn. lia.
  - unfold timerFires. destruct (timer st) as [p|] eqn:Et; [|done].
    repeat split; cbn; [done|done|done|].
    intros q [Hq| ->%list_elem_of_singleton]%elem_of_app; [by apply Hfly|].
    by apply Htimer.
  - unfold responseArrives. destruct (inFlight st !! k) as [p|] eqn:Ek; [|done].
    assert (caller p ≠ c) by (eapply Hfly, list_elem_of_lookup_2; eauto).
    repeat split; cbn; [done| |done|].
    + by rewrite lookup_insert_ne.
    + intros q Hq%list_elem_of_delete_inv. by apply Hfly.
  - unfold requestFails. destruct (inFlight st !! k) as [p|] eqn:Ek; [|done].
    assert (caller p ≠ c) by (eapply Hfly, list_elem_of_lookup_2; eauto).
    repeat split; cbn; [done| |done|].
    + by rewrite lookup_insert_ne.
    + intros q Hq%list_elem_of_delete_inv. by apply Hfly.
  - done.
  - unfold rateLimitCheck. by destruct (_ <=? _)%nat.
Qed.

Lemma orphaned_run c events st : orphaned c st → orphaned c (run events st).
Proof.
  revert st. induction events as [|e events IH]; intros st H; [done|].
  apply IH. by apply orphaned_step.
Qed.

(** A request that misses the cache while a timeout is armed orphans the
    caller the timeout belonged to. *)
Lemma superseded_caller_orphaned st p prompt :
  timer st = Some p → caller p < nextCaller st →
  settled st !! caller p = None →
  (∀ q, q ∈ inFlight st → caller q ≠ caller p) →
  suggestionCache st !! prompt = None →
  orphaned (caller p) (step st (Request prompt)).
Proof.
  intros Ht Hlt Hs Hfly Hmiss. cbn [step].
  rewrite getCachedSuggestion_miss by done.
  split; [cbn; lia|]. split; [done|]. split; [|done].
  cbn. intros q [= <-]. cbn. lia.
Qed.

(** The state after two requests with the same prompt made back to back
    on an empty cache, the expiry of the timeout and the answer of the
    model. *)
Lemma back_to_back_state prompt text :
  run [Request prompt; Request prompt; TimerFires; Response 0 text] initial
  = {| callCount := 0;
       suggestionCache := {[ prompt := trim text ]};
       timer := None; inFlight := [];
       upstreamCalls := [prompt];
       settled := {[ 1 := Resolved (trim text) ]};
       nextCaller := 2 |}.
Proof.
  unfold run. cbn [fold_left step].
  rewrite (getCachedSuggestion_miss initial) by apply lookup_empty.
  cbn [snd]. rewrite getCachedSuggestion_miss by apply lookup_empty.
  done.
Qed.

(** C1 (defect): two requests with the same prompt made back to back
    lead to exactly one upstream call, and the second caller receives
    its trimmed answer; the promise of the first caller stays pending
    whatever happens later, because [clearTimeout] discarded its timeout
    without resolving it. *)
Theorem superseded_caller_never_answered prompt text later :
  let st :=
    run [Request prompt; Request prompt; TimerFires; Response 0 text]
      initial in
  length (upstreamCalls st) = 1
  ∧ settled st !! 1 = Some (Resolved (trim text))
  ∧ settled st !! 0 = None
  ∧ settled (run later st) !! 0 = None.
Proof.
  intros st. unfold st. rewrite back_to_back_state.
  split; [done|]. split; [done|]. split; [done|].
  eapply (orphaned_run 0 later).
  split; [cbn; lia|]. split; [done|]. split; [done|].
  intros p Hp. by apply elem_of_nil in Hp.
Qed.

(** The instance of the design document. *)
Lemma complete_x_requested_twice :
  let prompt := str "complete: x = " in
  let st :=
    run [Request prompt; Request prompt; TimerFires; Response 0 (str "42")]
      initial in
  upstreamCalls st = [prompt]
  ∧ settled st !! 1 = Some (Resolved (str "42"))
  ∧ settled st !! 0 = None.
Proof. by vm_compute. Qed.

(** When the second request is made after the first one was answered,
    it is served from the cache: one upstream call, the same suggestion
    for both callers. *)
Lemma second_request_after_answer_hits_cache prompt text :
  let st :=
    run [Request prompt; TimerFires; Response 0 text; Request prompt]
      initial in
  upstreamCalls st = [prompt]
  ∧ settled st !! 0 = Some (Resolved (trim text))
  ∧ settled st !! 1 = Some (Resolved (trim text)).
Proof.
  intros st. unfold st, run. cbn [fold_left step].
  rewrite (getCachedSuggestion_miss initial) by apply lookup_empty.
  cbn [snd]. unfold timerFires, responseArrives. cbn.
  erewrite getCachedSuggestion_hit by apply lookup_insert_eq.
  done.
Qed.

(** Prompts that differ are different cache keys: answered one after the
    other they cause two upstream calls. *)
Lemma different_prompts_two_upstream_calls prompt1 prompt2 text1 text2 :
  prompt1 ≠ prompt2 →
  upstreamCalls
    (run [Request prompt1; TimerFires; Response 0 text1;
          Request prompt2; TimerFires; Response 0 text2] initial)
  = [prompt2; prompt1].
Proof.
  intros Hne. unfold run. cbn [fold_left step].
  rewrite (getCachedSuggestion_miss initial) by apply lookup_empty.
  cbn [snd]. unfold timerFires at 2, responseArrives at 2. cbn.
  rewrite getCachedSuggestion_miss
    by (cbn; rewrite lookup_insert_ne by done; apply lookup_empty).
  done.
Qed.

(** A cache hit in [getCachedSuggestion] itself touches neither the
    counter of the rate limiter nor the upstream side. *)
Lemma getCachedSuggestion_hit_frame st prompt suggestion :
  suggestionCache st !! prompt = Some suggestion →
  let '(me, st') := getCachedSuggestion st prompt in
  settled st' !! me = Some (Resolved suggestion)
  ∧ callCount st' = callCount st
  ∧ upstreamCalls st' = upstreamCalls st
  ∧ timer st' = timer st ∧ inFlight st' = inFlight st
  ∧ suggestionCache st' = suggestionCache st.
Proof.
  intros Hhit. rewrite (getCachedSuggestion_hit _ _ _ Hhit). cbn.
  by rewrite lookup_insert_eq.
Qed.

End Debounce.

(** ** Cache hits at the provider *)

Section ProviderCacheHit.

Import Utils ModelManager InlineProvider Samples.




(** C4 (amended): for a request of the inline provider that reaches the
    model manager with a prompt present in the cache, no upstream call is
    made, no timeout is armed and the cache is unchanged; but the rate
    limiter is consulted before the cache: below the ceiling the counter
    is incremented and the sanitized cached completion is returned, at
    the ceiling the request is refused and the cached completion is not
    returned.  For a request of the multi-line provider with a prompt
    present in the cache the claim holds as stated: the cached
    completion, sanitized and re-indented, is returned whatever the
    counter, which is left unchanged, and no upstream call is made. *)
Theorem cache_hit_behind_rate_limiter :
  (∀ ext config workspace document position triggerKind cancelled contextData
     suggestion,
     isBlank (apiKey config) = false →
     languageEnabled config (languageId document) = true →
     getContextData config workspace document position = Ok contextData →
     shouldTriggerCompletion config contextData triggerKind = true →
     suggestionCache (utils ext)
       !! buildInlineCompletionPrompt (contextText contextData)
            (languageId document)
     = Some suggestion →
     let '(reply, ext') :=
       provideInlineCompletionItems ext config workspace document position
         triggerKind cancelled in
     upstreamCalls (utils ext') = upstreamCalls (utils ext)
     ∧ timer (utils ext') = timer (utils ext)
     ∧ inFlight (utils ext') = inFlight (utils ext)
     ∧ suggestionCache (utils ext') = suggestionCache (utils ext)
     ∧ if bool_decide (callCount (utils ext) < MAX_CALLS_PER_MINUTE) then
         callCount (utils ext') = S (callCount (utils ext))
         ∧ completions reply
           = Returned (if cancelled then []
                       else [sanitizeCompletion suggestion])
       else
         callCount (utils ext') = callCount (utils ext)
         ∧ completions reply = Returned []
         ∧ notice reply = Some RateLimitExceeded)
  ∧ (∀ ext config document position triggerKind projectContext cancelled
       contextData suggestion,
       genAI ext = true ∨ isBlank (apiKey config) = false →
       MultilineProvider.triggerDecision config document position
         triggerKind projectContext = true →
       MultilineProvider.getContextData document position config
         projectContext = Ok contextData →
       suggestionCache (utils ext)
         !! buildMultilineCompletionPrompt
              (MultilineProvider.contextText contextData)
              (languageId document)
       = Some suggestion →
       let '(outcome, ext') :=
         MultilineCompletionProvider.provideInlineCompletionItems ext config
           document position triggerKind projectContext cancelled in
       outcome
       = Ok (Returned
               (if cancelled then []
                else [MultilineProvider.applyIndentation
                        (sanitizeCompletion suggestion)
                        (MultilineProvider.indentation contextData)]))
       ∧ callCount (utils ext') = callCount (utils ext)
       ∧ upstreamCalls (utils ext') = upstreamCalls (utils ext)
       ∧ timer (utils ext') = timer (utils ext)
       ∧ inFlight (utils ext') = inFlight (utils ext)
       ∧ suggestionCache (utils ext') = suggestionCache (utils ext)).
Proof.
  split.
  - intros ext config workspace document position triggerKind cancelled
      contextData suggestion Hkey Hlang Hctx Htrigger Hhit.
    unfold provideInlineCompletionItems. rewrite Hkey, Hlang. cbn [negb].
    unfold rateLimitCheck.
    destruct (Nat.leb_spec MAX_CALLS_PER_MINUTE (callCount (utils ext)))
      as [Hfull|Hroom].
    + cbn. rewrite bool_decide_eq_false_2 by lia. done.
    + cbn [negb]. rewrite Hctx, Htrigger. cbn [negb].
      unfold getInlineCompletions, getCompletions.
      assert (ensureInitialized (genAI ext) (apiKey config) = (true, true))
        as ->.
      { unfold ensureInitialized. rewrite Hkey. by destruct (genAI ext). }
      cbn [negb]. erewrite getCachedSuggestion_hit by exact Hhit.
      cbn. rewrite lookup_insert_eq, bool_decide_eq_true_2 by lia.
      unfold afterSuggestion. by destruct cancelled.
  - intros ext config document position triggerKind projectContext cancelled
      contextData suggestion Hready Hdecision Hctx Hhit.
    unfold MultilineProvider.triggerDecision in Hdecision.
    unfold MultilineCompletionProvider.provideInlineCompletionItems.
    destruct (match triggerKind with Invoke => _ | Automatic => _ end)
      as [[]|]; [|done|done].
    rewrite Hctx in *. rewrite Hdecision. cbn [negb].
    unfold getMultilineCompletions, getCompletions.
    assert (ensureInitialized (genAI ext) (apiKey config) = (true, true))
      as ->.
    { unfold ensureInitialized.
      destruct (genAI ext) eqn:Einit; [done|].
      by destruct Hready as [Hinit| ->]. }
    cbn [negb]. erewrite getCachedSuggestion_hit by exact Hhit.
    cbn. rewrite lookup_insert_eq.
    unfold afterSuggestion. by destruct cancelled.
Qed.

(** C4, as stated, fails: the request served from the cache has moved
    the counter of the rate limiter, and once the ceiling is reached the
    cached completion is not returned at all. *)
Lemma cache_hit_consumes_rate_budget :
  suggestionCache (utils (sampleSession 0)) !! samplePrompt = Some (str "bar()")
  ∧ completions (fst (sampleRequest (sampleSession 0))) = Returned [str "bar()"]
  ∧ callCount (utils (sampleSession 0)) = 0
  ∧ callCount (utils (snd (sampleRequest (sampleSession 0)))) = 1
  ∧ suggestionCache (utils (sampleSession 60)) !! samplePrompt
    = Some (str "bar()")
  ∧ completions (fst (sampleRequest (sampleSession 60))) = Returned []
  ∧ notice (fst (sampleRequest (sampleSession 60))) = Some RateLimitExceeded.
Proof. by vm_compute. Qed.

Lemma cache_hit_behind_rate_limiter_witness :
  let prompt :=
    buildMultilineCompletionPrompt (str "function f() {")
      (str "javascript") in
  let busy :=
    {| utils :=
         run ([Request prompt; TimerFires; Response 0 (str "return 1;")]
              ++ replicate 60 RateLimitCheck) initial;
       genAI := true |} in
  (completions (fst (sampleRequest (sampleSession 3)))
   = Returned [str "bar()"]
   ∧ callCount (utils (snd (sampleRequest (sampleSession 3)))) = 4)
  ∧ callCount (utils busy) = 60
  ∧ fst (MultilineCompletionProvider.provideInlineCompletionItems busy
           (defaults (str "key")) blockDocument blockPosition Automatic []
           false)
    = Ok (Returned [str "return 1;"]).
Proof.
  intros prompt busy.
  destruct cache_hit_behind_rate_limiter as [Hinline Hmultiline]. split.
  - pose proof (Hinline (sampleSession 3)
                  (defaults (str "key")) sampleWorkspace sampleDocument
                  samplePosition Automatic false
                  {| contextText :=
                       join [nl] (str <$> ["import a from 'a';";
                                           "import a from 'a';";
                                           "foo."]%string);
                     currentLine := str "foo.";
                     cursorPosition := samplePosition;
                     indentation := [];
                     isInComment := false; isInString := false |}
                  (str "bar()")) as H.
    fold (sampleRequest (sampleSession 3)) in H.
    destruct (sampleRequest (sampleSession 3)) as [reply ext'].
    cbn [fst snd].
    destruct H as (_ & _ & _ & _ & H); [by vm_compute..|].
    rewrite bool_decide_eq_true_2 in H by (vm_compute; lia).
    destruct H as [Hcount Hreply]. split; [exact Hreply|].
    rewrite Hcount. by vm_compute.
  - split; [by vm_compute|].
    pose proof (Hmultiline busy (defaults (str "key")) blockDocument
                  blockPosition Automatic [] false
                  {| MultilineProvider.contextText := str "function f() {";
                     MultilineProvider.indentation := [];
                     MultilineProvider.currentLineText :=
                       str "function f() {";
                     MultilineProvider.isInComment := false;
                     MultilineProvider.isInString := false |}
                  (str "return 1;")) as H.
    destruct (MultilineCompletionProvider.provideInlineCompletionItems
                _ _ _ _ _ _ _) as [outcome ext'].
    cbn [fst].
    destruct H as (-> & _); [by left | by vm_compute..|].
    by vm_compute.
Defined.

End ProviderCacheHit.

(** ** The rate limiter and the requests that reach it *)

Section RequestsAndLimiter.

Import Utils ModelManager InlineProvider Session Samples.

Implicit Types (ext : Extension) (events : list Session.Event).








End RequestsAndLimiter.

(** ** Documents and positions *)

Section Documents.

Implicit Types (document : TextDocument) (position : Position).

Lemma lineCount_pos document : 0 < lineCount document.
Proof.
  unfold lineCount, documentLines.
  pose proof (splitLines_nonempty (getText document)).
  destruct (splitLines (getText document)); simpl; [done|lia].
Qed.

Lemma lineAt_in_range document n :
  n < lineCount document →
  lineAt document n = Ok (documentLines document !!! n).
Proof.
  intros Hn. unfold lineAt.
  destruct (lookup_lt_is_Some_2 (documentLines document) n Hn) as [l Hl].
  rewrite Hl. f_equal. symmetry. by apply list_lookup_total_correct.
Qed.

Lemma lineAt_out_of_range document n :
  lineCount document ≤ n → lineAt document n = Raise IllegalLine.
Proof.
  intros Hn. unfold lineAt. by rewrite lookup_ge_None_2.
Qed.

Lemma documentLines_no_nl document n : nl ∉ documentLines document !!! n.
Proof.
  pose proof (splitLines_no_nl (getText document)) as Hall.
  destruct (decide (n < lineCount document)) as [Hn|Hn].
  - destruct (lookup_lt_is_Some_2 (documentLines document) n Hn) as [l Hl].
    rewrite (list_lookup_total_correct _ _ _ Hl).
    by eapply (Forall_lookup_1 _ _ _ _ Hall).
  - rewrite list_lookup_total_alt, lookup_ge_None_2 by (unfold lineCount in Hn; lia).
    apply not_elem_of_nil.
Qed.

Lemma take_no_nl n (l : jsstring) : nl ∉ l → nl ∉ take n l.
Proof. intros Hl Hin. apply Hl. by eapply subseteq_take. Qed.

Lemma take_min_length {A} n (l : list A) : take (n `min` length l) l = take n l.
Proof.
  destruct (Nat.le_ge_cases n (length l)).
  - by rewrite Nat.min_l.
  - by rewrite Nat.min_r, !take_ge by lia.
Qed.

(** The text before a position inside the document, split again: the
    lines above the cursor line, then the cursor line up to the cursor. *)
Lemma textBefore_lines document position :
  line position < lineCount document →
  splitLines (getTextFromLine document 0 position)
  = take (line position) (documentLines document)
    ++ [take (character position)
          (documentLines document !!! line position)].
Proof.
  intros Hin. unfold getTextFromLine, validatePosition.
  fold (lineCount document).
  replace (lineCount document - 1 <? 0)%nat with false
    by (symmetry; apply Nat.ltb_ge; lia).
  replace (lineCount document - 1 <? line position)%nat with false
    by (symmetry; apply Nat.ltb_ge; lia).
  cbn [line character]. rewrite Nat.sub_0_r, drop_0, take_min_length.
  apply splitLines_join; [by destruct (take _ _)|].
  apply Forall_app. split.
  - apply Forall_take, splitLines_no_nl.
  - repeat constructor. apply take_no_nl, documentLines_no_nl.
Qed.

(** For a line beyond the document the text before the position is the
    whole document, which has no such line. *)
Lemma textBefore_lines_out_of_range document position :
  lineCount document ≤ line position →
  splitLines (getTextFromLine document 0 position) !! line position = None.
Proof.
  intros Hout. pose proof (lineCount_pos document) as Hpos.
  unfold getTextFromLine, validatePosition. fold (lineCount document).
  replace (lineCount document - 1 <? 0)%nat with false
    by (symmetry; apply Nat.ltb_ge; lia).
  replace (lineCount document - 1 <? line position)%nat with true
    by (symmetry; apply Nat.ltb_lt; lia).
  cbn [line character].
  rewrite Nat.sub_0_r, drop_0, (take_ge (documentLines document !!! _)) by lia.
  rewrite splitLines_join.
  - apply lookup_ge_None_2. rewrite length_app, length_take. simpl.
    unfold lineCount in *. lia.
  - by destruct (take _ _).
  - apply Forall_app. split.
    + apply Forall_take, splitLines_no_nl.
    + repeat constructor. apply documentLines_no_nl.
Qed.

Lemma lineAt_no_nl document n text : lineAt document n = Ok text → nl ∉ text.
Proof.
  unfold lineAt. destruct (documentLines document !! n) as [l|] eqn:E; [|done].
  intros [= <-].
  by eapply (Forall_lookup_1 _ _ _ _ (splitLines_no_nl (getText document))).
Qed.

Lemma leadingWhitespace_no_nl (text : jsstring) :
  nl ∉ text → nl ∉ leadingWhitespace text.
Proof.
  intros H Hin. apply H.
  rewrite <- (takeWhile_dropWhile isWhiteSpace text).
  apply elem_of_app. by left.
Qed.

(** The base indentation that the multi-line provider hands to
    [applyIndentation] is the leading white space of the cursor line; it
    never contains a line feed. *)
Lemma provider_indentation_no_nl document position config projectContext
    contextData :
  MultilineProvider.getContextData document position config projectContext
  = Ok contextData →
  nl ∉ MultilineProvider.indentation contextData.
Proof.
  unfold MultilineProvider.getContextData.
  destruct (lineAt document (line position)) as [text|] eqn:Eline; [|done].
  cbn [mbind Result_bind].
  destruct (LanguageFeatures.isPositionInComment _ _ _); [|done].
  cbn [mbind Result_bind].
  destruct (LanguageFeatures.isPositionInString _ _ _); [|done].
  intros [= <-]. cbn. by eapply leadingWhitespace_no_nl, lineAt_no_nl.
Qed.

End Documents.

(** ** The language heuristics *)

Section Heuristics.

Import LanguageFeatures.

Implicit Types (languageId : jsstring) (document : TextDocument)
  (position : Position).

Lemma isOneOf_false_incl s (l l' : list string) :
  isOneOf s l = false → (∀ c, In c l' → In c l) → isOneOf s l' = false.
Proof.
  unfold isOneOf. intros Hl Hincl. apply not_true_is_false.
  intros (c & Hc & Heq)%existsb_exists.
  assert (existsb (fun c => JS.eqb s (str c)) l = true); [|congruence].
  apply existsb_exists. eauto.
Qed.

Ltac unknown_language H :=
  repeat match goal with
  | |- context [isOneOf ?s ?l] =>
      rewrite (isOneOf_false_incl s knownLanguages l H)
        by (intros ?; unfold knownLanguages, cFamily; cbn; tauto)
  end.

Lemma isPositionInComment_total languageId document position :
  line position < lineCount document →
  ∃ inComment,
    isPositionInComment languageId document position = Ok inComment.
Proof.
  intros Hin. unfold isPositionInComment.
  rewrite lineAt_in_range by done. cbn.
  repeat case_match; eauto.
Qed.

Lemma isPositionInString_total languageId document position :
  line position < lineCount document →
  ∃ inString, isPositionInString languageId document position = Ok inString.
Proof.
  intros Hin. unfold isPositionInString.
  rewrite lineAt_in_range by done. cbn.
  repeat case_match; eauto.
Qed.

Lemma getCurrentScopeWalk_total languageId document position :
  line position < lineCount document →
  getCurrentScopeWalk languageId document position
  = Ok (scopeWalk languageId
          (splitLines (getTextFromLine document 0 position))
          (line position)
          (length (leadingWhitespace
                     (take (character position)
                        (documentLines document !!! line position))))
          (line position)).
Proof.
  intros Hin. unfold getCurrentScopeWalk.
  assert (splitLines (getTextFromLine document 0 position) !! line position
          = Some (take (character position)
                    (documentLines document !!! line position))) as ->; [|done].
  rewrite textBefore_lines by done.
  rewrite lookup_app_r; rewrite length_take; unfold lineCount in Hin.
  - by replace (line position - _) with 0 by lia.
  - lia.
Qed.

Lemma getCurrentScope_total languageId document position :
  line position < lineCount document →
  ∃ scope, getCurrentScope languageId document position = Ok scope.
Proof.
  intros Hin. unfold getCurrentScope.
  rewrite getCurrentScopeWalk_total by done. cbn. eauto.
Qed.

Lemma getImportStatements_empty languageId :
  getImportStatements languageId [] = [].
Proof. unfold getImportStatements. by repeat case_match. Qed.

Lemma getGlobalDeclarations_empty languageId :
  getGlobalDeclarations languageId [] = [].
Proof.
  unfold getGlobalDeclarations. rewrite getImportStatements_empty.
  by repeat case_match.
Qed.

Lemma getImportStatements_unknown languageId documentText :
  isOneOf languageId knownLanguages = false →
  getImportStatements languageId documentText = [].
Proof. intros H. unfold getImportStatements. by unknown_language H. Qed.

Lemma getGlobalDeclarations_unknown languageId documentText :
  isOneOf languageId knownLanguages = false →
  getGlobalDeclarations languageId documentText = [].
Proof.
  intros H. unfold getGlobalDeclarations.
  rewrite getImportStatements_unknown by done. by unknown_language H.
Qed.

(** A line outside the document makes the position-based heuristics
    raise, whatever the language. *)
Lemma heuristics_raise_outside languageId document position :
  lineCount document ≤ line position →
  isPositionInComment languageId document position = Raise IllegalLine
  ∧ isPositionInString languageId document position = Raise IllegalLine
  ∧ getCurrentScope languageId document position = Raise TypeError.
Proof.
  intros Hout.
  unfold isPositionInComment, isPositionInString, getCurrentScope,
    getCurrentScopeWalk.
  rewrite lineAt_out_of_range, textBefore_lines_out_of_range by done.
  done.
Qed.

(** C9, as stated, fails: on an empty document of an unsupported
    language, a position on line 5 makes comment detection, string
    detection and scope extraction raise. *)
Lemma heuristics_raise_on_empty_document :
  let position := {| line := 5; character := 0 |} in
  getText Samples.emptyDocument = []
  ∧ isOneOf (languageId Samples.emptyDocument) knownLanguages = false
  ∧ isPositionInComment (languageId Samples.emptyDocument)
      Samples.emptyDocument position = Raise IllegalLine
  ∧ isPositionInString (languageId Samples.emptyDocument)
      Samples.emptyDocument position = Raise IllegalLine
  ∧ getCurrentScope (languageId Samples.emptyDocument)
      Samples.emptyDocument position = Raise TypeError.
Proof. by vm_compute. Qed.

(** C9 (amended): for every text and every language identifier the
    heuristics return without raising when the line of the position lies
    in the document, and the position-based ones raise when it does not;
    for an identifier that no [case] label names, comment and string
    detection answer [false] and the extraction of imports and
    declarations is empty; on the empty text these extractions are empty
    for every language. *)
Theorem heuristics_degrade_inside_document languageId document position :
  (line position < lineCount document →
     (∃ inComment inString scope,
        isPositionInComment languageId document position = Ok inComment
        ∧ isPositionInString languageId document position = Ok inString
        ∧ getCurrentScope languageId document position = Ok scope)
     ∧ (isOneOf languageId knownLanguages = false →
          isPositionInComment languageId document position = Ok false
          ∧ isPositionInString languageId document position = Ok false))
  ∧ (lineCount document ≤ line position →
       isPositionInComment languageId document position = Raise IllegalLine
       ∧ isPositionInString languageId document position = Raise IllegalLine
       ∧ getCurrentScope languageId document position = Raise TypeError)
  ∧ (isOneOf languageId knownLanguages = false →
       getImportStatements languageId (getText document) = []
       ∧ getGlobalDeclarations languageId (getText document) = [])
  ∧ getImportStatements languageId [] = []
  ∧ getGlobalDeclarations languageId [] = [].
Proof.
  split; [|split; [|split; [|split]]].
  - intros Hin. split.
    + destruct (isPositionInComment_total languageId document position Hin)
        as [inComment ?].
      destruct (isPositionInString_total languageId document position Hin)
        as [inString ?].
      destruct (getCurrentScope_total languageId document position Hin)
        as [scope ?].
      by exists inComment, inString, scope.
    + intros Hunknown. split.
      * unfold isPositionInComment. rewrite lineAt_in_range by done.
        cbn [mbind Result_bind]. by unknown_language Hunknown.
      * unfold isPositionInString. rewrite lineAt_in_range by done.
        cbn [mbind Result_bind]. by unknown_language Hunknown.
  - apply heuristics_raise_outside.
  - intros Hunknown. split.
    + by apply getImportStatements_unknown.
    + by apply getGlobalDeclarations_unknown.
  - apply getImportStatements_empty.
  - apply getGlobalDeclarations_empty.
Qed.

Lemma heuristics_degrade_inside_document_witness :
  let position := {| line := 0; character := 0 |} in
  isPositionInComment (str "plaintext") Samples.emptyDocument position
  = Ok false
  ∧ isPositionInString (str "plaintext") Samples.emptyDocument position
    = Ok false
  ∧ getImportStatements (str "plaintext") [] = [].
Proof.
  intros position.
  destruct (heuristics_degrade_inside_document (str "plaintext")
              Samples.emptyDocument position) as (Hinside & _ & _ & Hempty & _).
  destruct Hinside as [_ Hunknown]; [vm_compute; lia|].
  destruct Hunknown as [Hc Hs]; [by vm_compute|].
  by repeat split.
Defined.

End Heuristics.

(** ** Enclosing-scope extraction *)

Section ScopeExtraction.

Import LanguageFeatures.

Implicit Types (languageId : jsstring) (lines : list jsstring).

Lemma scopeWalk_unfold languageId lines L currentIndent i :
  scopeWalk languageId lines L currentIndent i
  = if (length (leadingWhitespace (lines !!! i)) <? currentIndent)%nat
       && isBlockStart languageId (trim (lines !!! i))
    then {| scopeLines := linesFromTo lines i L; examined := 1;
            exit := FoundBlockStart |}
    else if (30 <=? L - i)%nat
    then {| scopeLines := linesFromTo lines (L - 30) L; examined := 1;
            exit := WentBack30 |}
    else match i with
         | 0 => {| scopeLines := []; examined := 1; exit := ReachedTop |}
         | S i' =>
             let w := scopeWalk languageId lines L currentIndent i' in
             {| scopeLines := scopeLines w; examined := S (examined w);
                exit := exit w |}
         end.
Proof. by destruct i. Qed.

(** The walk entered at index [i], at most 30 lines above the cursor
    line [L]: how many lines it examines and what it returns when it
    does not stop at a block start. *)
Lemma scopeWalk_bound languageId lines L currentIndent i :
  i ≤ L → L - i ≤ 30 →
  let w := scopeWalk languageId lines L currentIndent i in
  examined w + (L - i) ≤ 31
  ∧ examined w ≤ S i
  ∧ (exit w = WentBack30 →
       30 ≤ L ∧ examined w + (L - i) = 31
       ∧ scopeLines w = linesFromTo lines (L - 30) L)
  ∧ (exit w = ReachedTop →
       L < 30 ∧ examined w = S i ∧ scopeLines w = []).
Proof.
  induction i as [|i IH]; intros Hle Hnear; cbn zeta;
    rewrite scopeWalk_unfold.
  - destruct (_ && _); [|destruct (Nat.leb_spec 30 (L - 0))]; cbn;
      repeat split; try (done || lia).
  - destruct (_ && _); [|destruct (Nat.leb_spec 30 (L - S i))]; cbn.
    + repeat split; try (done || lia).
    + repeat split; try (done || lia).
    + destruct IH as (Hsum & Hex & Hback & Htop); [lia..|].
      split; [lia|]. split; [lia|]. split.
      * intros Hexit. destruct (Hback Hexit) as (? & ? & ?).
        repeat split; (done || lia).
      * intros Hexit. destruct (Htop Hexit) as (? & ? & ?).
        repeat split; (done || lia).
Qed.

(** If none of the lines walked over is a less indented block start, the
    walk does not stop at a block start. *)
Lemma scopeWalk_no_block_start languageId lines L currentIndent i :
  (∀ j, j ≤ i →
     (length (leadingWhitespace (lines !!! j)) <? currentIndent)%nat
     && isBlockStart languageId (trim (lines !!! j)) = false) →
  exit (scopeWalk languageId lines L currentIndent i) ≠ FoundBlockStart.
Proof.
  induction i as [|i IH]; intros Hnone; rewrite scopeWalk_unfold;
    rewrite (Hnone _ (Nat.le_refl _)).
  - by destruct (30 <=? _)%nat.
  - destruct (30 <=? _)%nat; [done|]. cbn. apply IH.
    intros j Hj. apply Hnone. lia.
Qed.

(** C8, as stated, fails: with the cursor on the third line of a short
    text without block starts, the walk reaches the top of the text and
    the result is empty, not the lines before the cursor. *)
Lemma scope_empty_near_top :
  let position := {| line := 2; character := 1 |} in
  getCurrentScopeWalk (str "plaintext") Samples.shortDocument position
  = Ok {| scopeLines := []; examined := 3; exit := ReachedTop |}
  ∧ getCurrentScope (str "plaintext") Samples.shortDocument position = Ok []
  ∧ AsStated.lastLinesBeforeCursor 30 Samples.shortDocument position
    = Samples.text ["a"; "b"; "c"]
  ∧ getCurrentScope (str "plaintext") Samples.shortDocument position
    ≠ Ok (AsStated.lastLinesBeforeCursor 30 Samples.shortDocument position).
Proof. by vm_compute. Qed.

(** C8 (amended): for a position inside the document the walk examines
    at most 31 lines, whatever the length of the document.  When it does
    not stop at a block start and the cursor is on line 30 or below, it
    examines exactly 31 lines and returns the 30 lines above the cursor
    line followed by the cursor line up to the cursor, verbatim; when
    the cursor is on an earlier line it examines every line down to the
    first one and returns the empty text. *)
Theorem scope_fallback languageId document position :
  line position < lineCount document →
  ∃ walk,
    getCurrentScopeWalk languageId document position = Ok walk
    ∧ getCurrentScope languageId document position
      = Ok (join [nl] (scopeLines walk))
    ∧ examined walk ≤ 31
    ∧ (exit walk ≠ FoundBlockStart →
         (30 ≤ line position →
            examined walk = 31
            ∧ scopeLines walk
              = drop (line position - 30)
                  (take (line position) (documentLines document))
                ++ [take (character position)
                      (documentLines document !!! line position)])
         ∧ (line position < 30 →
              examined walk = S (line position) ∧ scopeLines walk = [])).
Proof.
  intros Hin. eexists. split; [by apply getCurrentScopeWalk_total|].
  split; [unfold getCurrentScope; by rewrite getCurrentScopeWalk_total|].
  match goal with |- context [scopeWalk ?a ?b ?c ?d ?e] =>
    pose proof (scopeWalk_bound a b c d e (Nat.le_refl _)) as Hbound;
    remember (scopeWalk a b c d e) as walk eqn:Hwalk
  end.
  cbn zeta in Hbound. rewrite Nat.sub_diag in Hbound.
  destruct Hbound as (Hsum & Hex & Hback & Htop); [lia|].
  split; [lia|]. intros Hexit. split.
  - intros Hdeep. destruct (exit walk) eqn:Hout; [done| |].
    + destruct Hback as (_ & Hn & ->); [done|]. split; [lia|].
      rewrite textBefore_lines by done. unfold linesFromTo.
      unfold lineCount in Hin.
      rewrite drop_app_le by (rewrite length_take; lia).
      apply take_ge. rewrite length_app, length_drop, length_take. simpl. lia.
    + destruct Htop as (? & _); [done|]. lia.
  - intros Hshallow. destruct (exit walk) eqn:Hout; [done| |].
    + destruct Hback as (? & _); [done|]. lia.
    + destruct Htop as (_ & ? & ?); done.
Qed.

Lemma scope_fallback_witness :
  let position := {| line := 35; character := 1 |} in
  getCurrentScope (str "plaintext") Samples.longDocument position
  = Ok (Samples.text (replicate 31 "x"%string)).
Proof.
  intros position.
  destruct (scope_fallback (str "plaintext") Samples.longDocument position)
    as (walk & Hwalk & -> & _ & Hfallback); [vm_compute; lia|].
  f_equal.
  assert (exit walk ≠ FoundBlockStart) as Hexit.
  { vm_compute in Hwalk. by injection Hwalk as <-. }
  destruct (Hfallback Hexit) as [Hdeep _].
  destruct Hdeep as [_ ->]; [cbn; lia|]. by vm_compute.
Defined.

End ScopeExtraction.

(** ** The trigger policy *)

Section TriggerPolicy.

Import LanguageFeatures.

(** C2, as stated, fails: with the default settings an explicit
    invocation inside a line comment does not fire, for the single-line
    provider as for the multi-line one. *)
Lemma explicit_invocation_in_comment_does_not_fire :
  let position := {| line := 0; character := 7 |} in
  let config := defaults (str "key") in
  isPositionInComment (str "javascript") Samples.commentDocument position
  = Ok true
  ∧ InlineProvider.triggerDecision config Samples.sampleWorkspace
      Samples.commentDocument position Invoke = false
  ∧ MultilineProvider.triggerDecision config Samples.commentDocument
      position Invoke [] = false.
Proof. by vm_compute. Qed.

(** C2 (amended): for every language and every position inside the
    document, an explicit invocation makes the single-line policy fire
    unless the position is in a comment while [skipInComments] is set, or
    in a string while [skipInStrings] is set; the multi-line policy fires
    on an explicit invocation when the position is neither in a comment
    nor in a string and the line is an appropriate place for a block. *)
Theorem explicit_invocation_policy config workspace document position
    projectContext :
  line position < lineCount document →
  ∃ inComment inString,
    isPositionInComment (languageId document) document position
    = Ok inComment
    ∧ isPositionInString (languageId document) document position
      = Ok inString
    ∧ InlineProvider.triggerDecision config workspace document position
        Invoke
      = negb (skipInComments config && inComment)
        && negb (skipInStrings config && inString)
    ∧ MultilineProvider.triggerDecision config document position Invoke
        projectContext
      = negb (inComment || inString)
        && isAppropriateMultilineLocation (languageId document)
             (documentLines document !!! line position).
Proof.
  intros Hin.
  destruct (isPositionInComment_total (languageId document) document
              position Hin) as [inComment HinComment].
  destruct (isPositionInString_total (languageId document) document
              position Hin) as [inString HinString].
  destruct (getCurrentScope_total (languageId document) document
              position Hin) as [scope Hscope].
  exists inComment, inString. split; [done|]. split; [done|]. split.
  - unfold InlineProvider.triggerDecision, InlineProvider.getContextData,
      InlineProvider.contextSections.
    rewrite Hscope, lineAt_in_range, HinComment, HinString by done.
    cbn [mbind mret Result_bind Result_ret].
    unfold InlineProvider.shouldTriggerCompletion.
    cbn [InlineProvider.isInComment InlineProvider.isInString].
    by destruct (skipInComments config), inComment,
      (skipInStrings config), inString.
  - unfold MultilineProvider.triggerDecision,
      MultilineProvider.getContextData.
    rewrite lineAt_in_range, HinComment, HinString by done.
    cbn [mbind mret Result_bind Result_ret].
    unfold MultilineProvider.shouldTriggerMultilineCompletion.
    cbn [MultilineProvider.isInComment MultilineProvider.isInString
         MultilineProvider.currentLineText].
    by destruct inComment, inString.
Qed.

Lemma explicit_invocation_policy_witness :
  InlineProvider.triggerDecision (defaults (str "key"))
    Samples.sampleWorkspace Samples.sampleDocument Samples.samplePosition
    Invoke = true.
Proof.
  destruct (explicit_invocation_policy (defaults (str "key"))
              Samples.sampleWorkspace Samples.sampleDocument
              Samples.samplePosition [])
    as (inComment & inString & HinComment & HinString & -> & _);
    [vm_compute; lia|].
  vm_compute in HinComment. by injection HinComment as <-.
Defined.

End TriggerPolicy.

(** ** Context assembly *)

Section ContextAssembly.

Import LanguageFeatures InlineProvider.

Lemma filter_truthy_nil (sections : list jsstring) :
  List.filter truthy sections = []
  ↔ forallb (fun s => bool_decide (s = [])) sections = true.
Proof.
  induction sections as [|[|c s] later IH]; cbn; [done|done|].
  split; discriminate.
Qed.

(** [filter(Boolean).join(separator)] keeps the order of the sections,
    omits the empty ones and puts one separator between neighbours. *)
Lemma join_filter_assemble separator (sections : list jsstring) :
  join separator (List.filter truthy sections)
  = AsStated.assemble separator sections.
Proof.
  induction sections as [|[|c s] later IH]; cbn [List.filter truthy]; [done..|].
  cbn [AsStated.assemble]. rewrite bool_decide_eq_false_2 by done.
  rewrite <- IH.
  destruct (List.filter truthy later) as [|l ls] eqn:E.
  - by rewrite (proj1 (filter_truthy_nil later) E).
  - destruct (forallb _ later) eqn:Eall; [|done].
    apply filter_truthy_nil in Eall. congruence.
Qed.

(** C7, as stated, fails: imports and pre-cursor window, the two
    non-empty sections here, are separated by a single line feed, not by
    a blank line. *)
Lemma context_sections_not_separated_by_blank_lines :
  let config := defaults (str "key") in
  let imports := str "import a from 'a';" in
  let window := Samples.text ["import a from 'a';"; "foo."] in
  contextSections config Samples.sampleWorkspace Samples.sampleDocument
    Samples.samplePosition
  = Ok [imports; []; []; window]
  ∧ getContextData config Samples.sampleWorkspace Samples.sampleDocument
      Samples.samplePosition
    = Ok {| contextText := imports ++ nl :: window;
            currentLine := str "foo.";
            cursorPosition := Samples.samplePosition;
            indentation := [];
            isInComment := false; isInString := false |}
  ∧ AsStated.assemble AsStated.blankLine [imports; []; []; window]
    = imports ++ nl :: nl :: window
  ∧ imports ++ nl :: window
    ≠ AsStated.assemble AsStated.blankLine [imports; []; []; window].
Proof. by vm_compute. Qed.

(** C7 (amended): for every document and position inside it the context
    bundle consists of imports, cross-file project context, enclosing
    scope and pre-cursor window in this order, empty sections omitted,
    with a single line feed between neighbouring sections. *)
Theorem context_bundle_assembly config workspace document position :
  line position < lineCount document →
  ∃ contextData currentScope,
    getContextData config workspace document position = Ok contextData
    ∧ getCurrentScope (languageId document) document position
      = Ok currentScope
    ∧ contextText contextData
      = AsStated.assemble [nl]
          [if includeImportsInContext config
           then getImportStatements (languageId document) (getText document)
           else [];
           getProjectContext config workspace document;
           currentScope;
           getTextFromLine document
             (line position - contextLineCount config) position].
Proof.
  intros Hin.
  destruct (isPositionInComment_total (languageId document) document
              position Hin) as [inComment HinComment].
  destruct (isPositionInString_total (languageId document) document
              position Hin) as [inString HinString].
  destruct (getCurrentScope_total (languageId document) document
              position Hin) as [scope Hscope].
  eexists _, scope. split; [|split; [done|]].
  - unfold getContextData, contextSections.
    rewrite Hscope, lineAt_in_range, HinComment, HinString by done.
    cbn [mbind mret Result_bind Result_ret]. reflexivity.
  - cbn [contextText]. rewrite join_filter_assemble. do 2 f_equal.
    unfold getProjectContext. by destruct (useProjectContext config).
Qed.

Lemma context_bundle_assembly_witness :
  ∃ contextData,
    getContextData (defaults (str "key")) Samples.sampleWorkspace
      Samples.sampleDocument Samples.samplePosition = Ok contextData
    ∧ contextText contextData
      = Samples.text ["import a from 'a';"; "import a from 'a';"; "foo."].
Proof.
  destruct (context_bundle_assembly (defaults (str "key"))
              Samples.sampleWorkspace Samples.sampleDocument
              Samples.samplePosition)
    as (contextData & scope & Hdata & Hscope & Htext); [vm_compute; lia|].
  exists contextData. split; [done|]. rewrite Htext.
  vm_compute in Hscope. injection Hscope as <-. by vm_compute.
Defined.

End ContextAssembly.

(** * Further properties of the sources *)

(** ** utils.ts: debounce and cache over whole histories *)

Section Histories.

Import Utils History.

Implicit Types (st : State) (events : list Event) (prompt text : jsstring).

Lemma run_app events1 events2 st :
  run (events1 ++ events2) st = run events2 (run events1 st).
Proof. apply fold_left_app. Qed.

Lemma run_snoc events e st : run (events ++ [e]) st = step (run events st) e.
Proof. by rewrite run_app. Qed.

(** A burst of requests that all miss the cache leaves a single armed
    timeout, the one of the last request. *)
Lemma burst_state prompts last st :
  (∀ p, p ∈ prompts ++ [last] → suggestionCache st !! p = None) →
  run (Request <$> prompts ++ [last]) st
  = {| callCount := callCount st; suggestionCache := suggestionCache st;
       timer := Some {| caller := nextCaller st + length prompts;
                        prompt := last |};
       inFlight := inFlight st; upstreamCalls := upstreamCalls st;
       settled := settled st;
       nextCaller := S (nextCaller st + length prompts) |}.
Proof.
  revert st. induction prompts as [|p prompts IH]; intros st Hmiss.
  - cbn [app fmap list_fmap run fold_left step].
    rewrite getCachedSuggestion_miss
      by (apply Hmiss, list_elem_of_singleton; done).
    cbn. by rewrite Nat.add_0_r.
  - cbn [app fmap list_fmap run fold_left step].
    rewrite getCachedSuggestion_miss by (apply Hmiss, elem_of_cons; by left).
    cbn [snd]. fold (run (Request <$> prompts ++ [last])).
    rewrite IH by (intros q Hq; cbn; apply Hmiss, elem_of_cons; by right).
    cbn. do 2 f_equal; try (do 2 f_equal); lia.
Qed.

(** X1: of any number of requests made back to back on an empty cache,
    only the last one is sent upstream when the timeout expires, and
    none of the earlier callers is ever answered. *)
Theorem burst_sends_last_request_only prompts last later i :
  let st := run ((Request <$> prompts ++ [last]) ++ [TimerFires]) initial in
  upstreamCalls st = [last]
  ∧ inFlight st = [{| caller := length prompts; prompt := last |}]
  ∧ (i < length prompts → settled (run later st) !! i = None).
Proof.
  intros st. unfold st. rewrite run_snoc, burst_state by (intros; apply lookup_empty).
  cbn. split; [done|]. split; [done|]. intros Hi.
  eapply (orphaned_run i later).
  split; [cbn; lia|]. split; [done|]. split; [done|].
  cbn. intros p ->%list_elem_of_singleton. cbn. lia.
Qed.

Lemma burst_sends_last_request_only_witness :
  let st :=
    run [Request (str "a"); Request (str "ab"); Request (str "abc");
         TimerFires] initial in
  upstreamCalls st = [str "abc"]
  ∧ settled (run [Response 0 (str "x"); Request (str "a")] st) !! 1 = None.
Proof.
  destruct (burst_sends_last_request_only [str "a"; str "ab"] (str "abc")
              [Response 0 (str "x"); Request (str "a")] 1) as (Hup & _ & Hnever).
  split; [exact Hup|]. apply Hnever. cbn. lia.
Defined.



Lemma dropWhile_snoc_stop (q : N → bool) (l : jsstring) c :
  q c = false → dropWhile q (l ++ [c]) = dropWhile q l ++ [c].
Proof.
  intros Hc. induction l as [|a l IH]; simpl; [by rewrite Hc|].
  by destruct (q a).
Qed.

Lemma trimStart_fixed (s : jsstring) c :
  isWhiteSpace c = false → trimStart (c :: s) = c :: s.
Proof. intros Hc. unfold trimStart. simpl. by rewrite Hc. Qed.

(** [trim] has nothing left to remove from a trimmed text. *)
Lemma trim_idempotent (s : jsstring) : trim (trim s) = trim s.
Proof.
  unfold trim at 2 3.
  destruct (trimStart s) as [|c t] eqn:Es; [done|].
  apply dropWhile_head in Es.
  assert (trimEnd (c :: t) = c :: rev (dropWhile isWhiteSpace (rev t))) as Hshape.
  { unfold trimEnd, trimStart. cbn [rev].
    by rewrite dropWhile_snoc_stop, rev_app_distr by done. }
  unfold trim. rewrite Hshape, trimStart_fixed by done.
  rewrite <- Hshape. unfold trimEnd, trimStart.
  rewrite rev_involutive.
  assert (∀ l : jsstring,
            dropWhile isWhiteSpace (dropWhile isWhiteSpace l)
            = dropWhile isWhiteSpace l) as Hidem.
  { induction l as [|a l IH]; simpl; [done|].
    destruct (isWhiteSpace a) eqn:Ea; [done|]. simpl. by rewrite Ea. }
  by rewrite Hidem.
Qed.

Lemma requested_snoc events e :
  requested (events ++ [e])
  = requested events
    ++ match e with Request prompt => [prompt] | _ => [] end.
Proof. unfold requested. rewrite omap_app. by destruct e. Qed.

Lemma answers_snoc events e :
  answers (events ++ [e])
  = answers events
    ++ match e with Response _ text => [text] | _ => [] end.
Proof. unfold answers. rewrite omap_app. by destruct e. Qed.

(** What holds of the state after every history. *)
Lemma history_invariant events :
  let st := run events initial in
  (∀ p, p ∈ upstreamCalls st → p ∈ requested events)
  ∧ (∀ q, timer st = Some q → prompt q ∈ requested events)
  ∧ (∀ q, q ∈ inFlight st → prompt q ∈ upstreamCalls st)
  ∧ (∀ p s, suggestionCache st !! p = Some s →
       p ∈ upstreamCalls st ∧ ∃ text, text ∈ answers events ∧ s = trim text)
  ∧ length (upstreamCalls st)
    + match timer st with Some _ => 1 | None => 0 end
    ≤ length (requested events).
Proof.
  induction events as [|e events IH] using rev_ind.
  - cbn. split; [by intros p ?%elem_of_nil|]. split; [done|].
    split; [by intros q ?%elem_of_nil|].
    split; [intros p s Hs; by rewrite lookup_empty in Hs | lia].
  - cbn zeta in *. rewrite run_snoc, requested_snoc, answers_snoc.
    destruct IH as (Hup & Htimer & Hfly & Hcache & Hcount).
    set (st := run events initial) in *.
    assert (∀ extra p s, suggestionCache st !! p = Some s →
              p ∈ upstreamCalls st
              ∧ ∃ text, text ∈ answers events ++ extra ∧ s = trim text)
      as Hcache'.
    { intros extra p s Hs. destruct (Hcache p s Hs) as (? & text & ? & ?).
      split; [done|]. exists text. split; [|done]. apply elem_of_app. by left. }
    assert (∀ extra p, p ∈ upstreamCalls st → p ∈ requested events ++ extra)
      as Hup'.
    { intros extra p Hp. apply elem_of_app. left. by apply Hup. }
    destruct e as [prompt| |k text|k| |]; cbn [step].
    + unfold getCachedSuggestion.
      destruct (suggestionCache st !! getCacheKey prompt); cbn [snd];
        cbn [upstreamCalls timer inFlight suggestionCache].
      * split; [apply Hup'|]. split.
        { intros q Hq. apply elem_of_app. left. by apply Htimer. }
        split; [done|]. split; [apply Hcache'|].
        rewrite length_app. cbn. lia.
      * split; [apply Hup'|]. split.
        { intros q [= <-]. cbn. apply elem_of_app. right.
          by apply list_elem_of_singleton. }
        split; [done|]. split; [apply Hcache'|].
        rewrite length_app. cbn. destruct (timer st); lia.
    + unfold timerFires. destruct (timer st) as [q|] eqn:Et;
        cbn [upstreamCalls timer inFlight suggestionCache].
      * split.
        { intros p [->|Hp]%elem_of_cons; [|by apply Hup'].
          rewrite app_nil_r. by apply Htimer. }
        split; [done|]. split.
        { intros q' [Hq| ->%list_elem_of_singleton]%elem_of_app.
          - apply elem_of_cons. right. by apply Hfly.
          - apply elem_of_cons. by left. }
        split.
        { intros p s Hs. destruct (Hcache' [] p s Hs) as [? ?].
          split; [|done]. apply elem_of_cons. by right. }
        rewrite app_nil_r. cbn. lia.
      * rewrite Et. split; [apply Hup'|]. split; [done|].
        split; [done|]. split; [apply Hcache'|]. by rewrite app_nil_r.
    + unfold responseArrives.
      destruct (inFlight st !! k) as [q|] eqn:Ek;
        cbn [upstreamCalls timer inFlight suggestionCache].
      * split; [apply Hup'|]. split.
        { intros q' Hq'. rewrite app_nil_r. by apply Htimer. }
        split.
        { intros q' Hq'%list_elem_of_delete_inv. by apply Hfly. }
        split; [|by rewrite app_nil_r].
        intros p s Hs. unfold getCacheKey in Hs.
        destruct (decide (prompt q = p)) as [<-|Hne].
        -- rewrite lookup_insert_eq in Hs. injection Hs as <-. split.
           ++ by eapply Hfly, list_elem_of_lookup_2.
           ++ exists text. split; [|done]. apply elem_of_app. right.
              by apply list_elem_of_singleton.
        -- rewrite lookup_insert_ne in Hs by done. by apply Hcache'.
      * split; [apply Hup'|]. split.
        { intros q' Hq'. rewrite app_nil_r. by apply Htimer. }
        split; [done|]. split; [apply Hcache'|]. by rewrite app_nil_r.
    + unfold requestFails.
      destruct (inFlight st !! k) as [q|] eqn:Ek;
        cbn [upstreamCalls timer inFlight suggestionCache].
      * split; [apply Hup'|]. split.
        { intros q' Hq'. rewrite app_nil_r. by apply Htimer. }
        split.
        { intros q' Hq'%list_elem_of_delete_inv. by apply Hfly. }
        split; [apply Hcache'|]. by rewrite app_nil_r.
      * split; [apply Hup'|]. split.
        { intros q' Hq'. rewrite app_nil_r. by apply Htimer. }
        split; [done|]. split; [apply Hcache'|]. by rewrite app_nil_r.
    + cbn [resetCallCount upstreamCalls timer inFlight suggestionCache].
      split; [apply Hup'|]. split.
      { intros q' Hq'. rewrite app_nil_r. by apply Htimer. }
      split; [done|]. split; [apply Hcache'|]. by rewrite app_nil_r.
    + unfold rateLimitCheck. destruct (_ <=? _)%nat; cbn [snd];
        cbn [upstreamCalls timer inFlight suggestionCache];
        (split; [apply Hup'|]); (split;
          [intros q' Hq'; rewrite app_nil_r; by apply Htimer|]);
        (split; [done|]); (split; [apply Hcache'|]); by rewrite app_nil_r.
Qed.

(** X3: over any history, every prompt sent upstream was passed to
    [getCachedSuggestion] before, and there are at most as many upstream
    calls as requests. *)
Theorem upstream_calls_bounded_by_requests events :
  let st := run events initial in
  (∀ p, p ∈ upstreamCalls st → p ∈ requested events)
  ∧ length (upstreamCalls st) ≤ length (requested events).
Proof.
  destruct (history_invariant events) as (Hup & _ & _ & _ & Hcount).
  cbn zeta. split; [exact Hup | lia].
Qed.

(** X4: over any history, a cached suggestion belongs to a prompt that
    was sent upstream, is the trimmed text of an answer of the model,
    and so carries no surrounding white space. *)
Theorem cache_holds_trimmed_answers events p s :
  suggestionCache (run events initial) !! p = Some s →
  p ∈ upstreamCalls (run events initial)
  ∧ (∃ text, text ∈ answers events ∧ s = trim text)
  ∧ trim s = s.
Proof.
  intros Hs.
  destruct (history_invariant events) as (_ & _ & _ & Hcache & _).
  destruct (Hcache p s Hs) as (Hp & text & Htext & ->).
  split; [done|]. split; [eauto|]. apply trim_idempotent.
Qed.

Lemma cache_holds_trimmed_answers_witness :
  let events := [Request (str "p"); TimerFires; Response 0 (str " x ")] in
  str "p" ∈ upstreamCalls (run events initial) ∧ trim (str "x") = str "x".
Proof.
  intros events.
  destruct (cache_holds_trimmed_answers events (str "p") (str "x"))
    as (Hp & _ & Htrim); [by vm_compute|].
  by split.
Defined.

End Histories.

(** ** model-manager.ts: sanitizer and prompts *)

Section SanitizerAndPrompts.

Import ModelManager Regex.

Implicit Types (x s code lang context language : jsstring).

Lemma trimEnd_prefix s : ∃ w, s = trimEnd s ++ w.
Proof.
  unfold trimEnd, trimStart. exists (rev (takeWhile isWhiteSpace (rev s))).
  rewrite <- rev_app_distr, takeWhile_dropWhile. by rewrite rev_involutive.
Qed.

Lemma stripFenceOpen_suffix s : ∃ a, s = a ++ stripFenceOpen s.
Proof.
  unfold stripFenceOpen. destruct (startsWith s fence); [|by exists []].
  destruct (dropWhile isWordChar (drop 3 s)) as [|c rest] eqn:E;
    [by exists []|].
  destruct (c =? nl)%N; [|by exists []].
  exists (take 3 s ++ takeWhile isWordChar (drop 3 s) ++ [c]).
  rewrite <- (take_drop 3 s) at 1.
  rewrite <- (takeWhile_dropWhile isWordChar (drop 3 s)) at 1.
  rewrite E, <- !app_assoc. done.
Qed.

Lemma stripFenceClose_prefix s : ∃ b, s = stripFenceClose s ++ b.
Proof.
  unfold stripFenceClose. destruct (endsWith s (nl :: fence)).
  - exists (drop (length s - 4) s). by rewrite take_drop.
  - exists []. by rewrite app_nil_r.
Qed.

(** X5: the sanitizer only removes text: its result is a contiguous part
    of the raw completion. *)
Theorem sanitizeCompletion_is_part_of_input x :
  ∃ before after, x = before ++ sanitizeCompletion x ++ after.
Proof.
  unfold sanitizeCompletion. cbv zeta.
  pose proof (takeWhile_dropWhile isWhiteSpace x) as Hstart.
  fold (trimStart x) in Hstart.
  destruct (trimEnd_prefix (trimStart x)) as [w Hend]. fold (trim x) in Hend.
  destruct (stripFenceOpen_suffix (trim x)) as [a Ha].
  destruct (stripFenceClose_prefix (stripFenceOpen (trim x))) as [b Hb].
  set (t := stripFenceClose (stripFenceOpen (trim x))) in *.
  assert (∃ r, t = (if includes t [nl; nl] then beforeFirst t [nl; nl] else t)
                   ++ r) as [r Hr].
  { destruct (includes t [nl; nl]); [apply beforeFirst_prefix|].
    exists []. by rewrite app_nil_r. }
  exists (takeWhile isWhiteSpace x ++ a), (r ++ b ++ w).
  rewrite <- Hstart at 1. rewrite Hend at 1. rewrite Ha at 1.
  rewrite Hb at 1. rewrite Hr at 1. by rewrite <- !app_assoc.
Qed.

Lemma trim_fixed_ends c s d :
  isWhiteSpace c = false → isWhiteSpace d = false →
  trim (c :: s ++ [d]) = c :: s ++ [d].
Proof.
  intros Hc Hd. unfold trim. rewrite trimStart_fixed by done.
  unfold trimEnd. change (c :: s ++ [d]) with ((c :: s) ++ [d]).
  rewrite rev_app_distr. cbn [rev app]. rewrite trimStart_fixed by done.
  change (d :: rev s ++ [c]) with (rev [d] ++ rev (c :: s)).
  by rewrite <- rev_app_distr, rev_involutive.
Qed.

(** X6: a completion wrapped in a code fence with a language tag made of
    word characters is unwrapped: the result is the fenced text up to
    its first blank line. *)
Theorem sanitizeCompletion_unwraps_fence lang code :
  forallb isWordChar lang = true →
  sanitizeCompletion (fence ++ lang ++ nl :: code ++ nl :: fence)
  = if includes code [nl; nl] then beforeFirst code [nl; nl] else code.
Proof.
  intros Hlang. unfold sanitizeCompletion. cbv zeta.
  assert (trim (fence ++ lang ++ nl :: code ++ nl :: fence)
          = fence ++ lang ++ nl :: code ++ nl :: fence) as ->.
  { replace (fence ++ lang ++ nl :: code ++ nl :: fence)
      with (96%N :: ([96; 96]%N ++ lang ++ nl :: code ++ [nl; 96; 96]%N)
            ++ [96%N]).
    - by apply trim_fixed_ends.
    - unfold fence. cbn [str app]. do 3 f_equal.
      rewrite <- !app_assoc. f_equal. cbn [app]. f_equal.
      by rewrite <- !app_assoc. }
  replace (fence ++ lang ++ nl :: code ++ nl :: fence)
    with ((fence ++ lang ++ [nl]) ++ (code ++ nl :: fence))
    by (by rewrite <- !app_assoc).
  rewrite stripFenceOpen_match
    by (apply matches_fenceOpener; by exists lang).
  rewrite stripFenceClose_match by by apply matches_lit'.
  done.
Qed.

Lemma sanitizeCompletion_unwraps_fence_witness :
  sanitizeCompletion
    (fence ++ str "ts" ++ nl :: str "foo();" ++ nl :: fence)
  = str "foo();".
Proof.
  rewrite sanitizeCompletion_unwraps_fence by by vm_compute.
  by vm_compute.
Defined.

Lemma join_snoc sep (parts : list jsstring) last :
  parts ≠ [] → join sep (parts ++ [last]) = join sep parts ++ sep ++ last.
Proof.
  induction parts as [|p parts IH]; [done|]. intros _.
  destruct parts as [|q parts]; [done|].
  change ((p :: q :: parts) ++ [last]) with (p :: (q :: parts) ++ [last]).
  change (join sep (p :: (q :: parts) ++ [last]))
    with (p ++ sep ++ join sep ((q :: parts) ++ [last])).
  rewrite IH by done. rewrite join_cons2. by rewrite <- !app_assoc.
Qed.

(** X7: for one language, prompts built from different contexts are
    different cache keys, and a prompt of the inline provider is never a
    prompt of the multi-line provider. *)
Theorem prompts_distinguish_requests context1 context2 language language' :
  (buildInlineCompletionPrompt context1 language
   = buildInlineCompletionPrompt context2 language → context1 = context2)
  ∧ (buildMultilineCompletionPrompt context1 language
     = buildMultilineCompletionPrompt context2 language →
     context1 = context2)
  ∧ buildInlineCompletionPrompt context1 language
    ≠ buildMultilineCompletionPrompt context2 language'.
Proof.
  split; [|split].
  - unfold buildInlineCompletionPrompt.
    match goal with |- join _ ?l = _ → _ =>
      change l with (take 13 l ++ [context1]) end.
    match goal with |- _ = join _ ?l → _ =>
      change l with (take 13 l ++ [context2]) end.
    cbn [take]. rewrite !join_snoc by done.
    intros H. apply app_inv_head in H. by injection H.
  - unfold buildMultilineCompletionPrompt.
    match goal with |- join _ ?l = _ → _ =>
      change l with (take 13 l ++ [context1]) end.
    match goal with |- _ = join _ ?l → _ =>
      change l with (take 13 l ++ [context2]) end.
    cbn [take]. rewrite !join_snoc by done.
    intros H. apply app_inv_head in H. by injection H.
  - intros H. apply (f_equal (take 60)) in H.
    unfold buildInlineCompletionPrompt, buildMultilineCompletionPrompt in H.
    vm_compute in H. discriminate.
Qed.

End SanitizerAndPrompts.

(** ** language-features.ts: imports and enclosing scope *)

Section ImportsAndScope.

Import LanguageFeatures ScopeTest.

Implicit Types (languageId : jsstring) (lines : list jsstring).

Lemma filter_sublist {A} (f : A → bool) (l : list A) :
  List.filter f l `sublist_of` l.
Proof.
  induction l as [|a l IH]; cbn; [constructor|].
  destruct (f a); by constructor.
Qed.

Lemma goImportStep_fold lines inBlock imports :
  ∃ kept,
    snd (fold_left goImportStep lines (inBlock, imports)) = imports ++ kept
    ∧ kept `sublist_of` lines.
Proof.
  revert inBlock imports.
  induction lines as [|line lines IH]; intros inBlock imports.
  - exists []. cbn. by rewrite app_nil_r.
  - cbn [fold_left].
    assert (∃ b, goImportStep (inBlock, imports) line = (b, imports ++ [line])
                 ∨ goImportStep (inBlock, imports) line = (b, imports))
      as [b [-> | ->]].
    { unfold goImportStep. repeat case_match; eauto. }
    + destruct (IH b (imports ++ [line])) as (kept & -> & Hkept).
      exists (line :: kept). rewrite <- app_assoc. split; [done|].
      by constructor.
    + destruct (IH b imports) as (kept & -> & Hkept).
      exists kept. split; [done|]. by constructor.
Qed.

(** X8: for every language and every text, import extraction returns
    whole lines of the text, in their order, joined by line feeds. *)
Theorem getImportStatements_selects_lines languageId documentText :
  ∃ kept,
    kept `sublist_of` splitLines documentText
    ∧ getImportStatements languageId documentText = join [nl] kept.
Proof.
  unfold getImportStatements. cbv zeta.
  repeat case_match;
    try (eexists; split; [apply filter_sublist | reflexivity]).
  - destruct (goImportStep_fold (splitLines documentText) false [])
      as (kept & -> & Hkept).
    by exists kept.
  - exists []. split; [apply sublist_nil_l | done].
Qed.

Lemma join_app_suffix sep (a b : list jsstring) :
  ∃ before, join sep (a ++ b) = before ++ join sep b.
Proof.
  induction a as [|p a [before IH]]; [by exists []|].
  destruct (a ++ b) as [|q rest] eqn:E.
  - apply app_eq_nil in E as [-> ->]. exists p. cbn. by rewrite app_nil_r.
  - cbn [app]. rewrite E, join_cons2, IH.
    exists (p ++ sep ++ before). by rewrite <- !app_assoc.
Qed.

(** Where the walk entered at index [i] stops. *)
Lemma scopeWalk_result languageId lines L currentIndent i :
  i ≤ L → L - i ≤ 30 →
  let w := scopeWalk languageId lines L currentIndent i in
  (scopeLines w = []
   ∨ ∃ j, j ≤ L ∧ L - j ≤ 30 ∧ scopeLines w = linesFromTo lines j L)
  ∧ (exit w = FoundBlockStart →
       ∃ j, j ≤ i ∧ L - j ≤ 30
            ∧ scopeLines w = linesFromTo lines j L
            ∧ opensScope languageId lines currentIndent j = true
            ∧ ∀ k, j < k ≤ i →
                opensScope languageId lines currentIndent k = false).
Proof.
  induction i as [|i IH]; intros Hle Hnear; cbn zeta;
    rewrite scopeWalk_unfold.
  - fold (opensScope languageId lines currentIndent 0).
    destruct (opensScope languageId lines currentIndent 0) eqn:E.
    + cbn [scopeLines exit]. split.
      * right. exists 0. split; [lia|]. split; [lia|done].
      * intros _. exists 0. split; [lia|]. split; [lia|].
        split; [done|]. split; [done|]. intros k Hk. lia.
    + destruct (Nat.leb_spec 30 (L - 0)); cbn [scopeLines exit];
        (split; [|done]).
      * right. exists (L - 30). split; [lia|]. split; [lia|done].
      * by left.
  - fold (opensScope languageId lines currentIndent (S i)).
    destruct (opensScope languageId lines currentIndent (S i)) eqn:E.
    + cbn [scopeLines exit]. split.
      * right. exists (S i). split; [lia|]. split; [lia|done].
      * intros _. exists (S i). split; [lia|]. split; [lia|].
        split; [done|]. split; [done|]. intros k Hk. lia.
    + destruct (Nat.leb_spec 30 (L - S i)); cbn [scopeLines exit].
      * split; [|done]. right. exists (L - 30).
        split; [lia|]. split; [lia|done].
      * destruct IH as [Hshape Hfound]; [lia..|]. split; [done|].
        intros Hexit. destruct (Hfound Hexit) as (j & ? & ? & ? & ? & Hnone).
        exists j. split; [lia|]. split; [lia|].
        split; [done|]. split; [done|].
        intros k Hk. destruct (decide (k = S i)) as [->|]; [done|].
        apply Hnone. lia.
Qed.

Lemma linesFromTo_drop lines j L :
  length lines = S L → linesFromTo lines j L = drop j lines.
Proof.
  intros Hlen. unfold linesFromTo. apply take_ge. rewrite length_drop. lia.
Qed.

Lemma textBefore_length document position :
  line position < lineCount document →
  length (splitLines (getTextFromLine document 0 position))
  = S (line position).
Proof.
  intros Hin. rewrite textBefore_lines by done.
  rewrite length_app, length_take. unfold lineCount in Hin. cbn. lia.
Qed.

(** X9: for a position inside the document, the enclosing scope is a
    final part of the text before the cursor and has at most 31 lines. *)
Theorem scope_is_recent_text languageId document position :
  line position < lineCount document →
  ∃ scope before,
    getCurrentScope languageId document position = Ok scope
    ∧ getTextFromLine document 0 position = before ++ scope
    ∧ length (splitLines scope) ≤ 31.
Proof.
  intros Hin. unfold getCurrentScope.
  rewrite getCurrentScopeWalk_total by done. cbn [mbind Result_bind].
  set (lines := splitLines (getTextFromLine document 0 position)).
  match goal with |- context [scopeWalk ?a ?b ?c ?d ?e] =>
    destruct (scopeWalk_result a b c d e (Nat.le_refl _)) as [Hshape _];
      [lia|]; set (walk := scopeWalk a b c d e) in *
  end.
  pose proof (textBefore_length document position Hin) as Hlen.
  fold lines in Hlen.
  destruct Hshape as [-> | (j & Hj & Hnear & ->)].
  - exists [], (getTextFromLine document 0 position).
    split; [done|]. split; [by rewrite app_nil_r | cbn; lia].
  - rewrite linesFromTo_drop by done.
    destruct (join_app_suffix [nl] (take j lines) (drop j lines))
      as [before Hbefore].
    rewrite take_drop in Hbefore. unfold lines in Hbefore at 1.
    rewrite join_splitLines in Hbefore.
    eexists _, before. split; [done|]. split; [done|].
    rewrite splitLines_join.
    + rewrite length_drop. lia.
    + intros Hnil. apply (f_equal length) in Hnil.
      rewrite length_drop, Hlen in Hnil. change (length []) with 0 in Hnil.
      lia.
    + apply Forall_drop, splitLines_no_nl.
Qed.

Lemma scope_is_recent_text_witness :
  ∃ scope before,
    getCurrentScope (str "plaintext") Samples.longDocument
      {| line := 35; character := 1 |} = Ok scope
    ∧ getTextFromLine Samples.longDocument 0 {| line := 35; character := 1 |}
      = before ++ scope
    ∧ length (splitLines scope) ≤ 31.
Proof. apply scope_is_recent_text. vm_compute. lia. Defined.



End ImportsAndScope.

(** ** language-features.ts: comment detection and declarations *)

Section CommentsAndDeclarations.

Import LanguageFeatures DeclarationTest.

Implicit Types (languageId s p line : jsstring).

Lemma indexOf_none s p :
  indexOf s p = (-1)%Z → ∀ i, startsWith (drop i s) p = false.
Proof.
  induction s as [|c s IH]; cbn [indexOf].
  - destruct (startsWith [] p) eqn:E; [discriminate|].
    intros _ i. by rewrite drop_nil.
  - destruct (startsWith (c :: s) p) eqn:E; [discriminate|].
    intros H i. destruct i as [|i]; [done|]. cbn [drop]. apply IH.
    apply indexOf_neg. destruct (Z.ltb_spec (indexOf s p) 0); lia.
Qed.

Lemma indexOf_first s p n :
  indexOf s p = Z.of_nat n →
  startsWith (drop n s) p = true
  ∧ ∀ i, i < n → startsWith (drop i s) p = false.
Proof.
  revert n. induction s as [|c s IH]; intros n; cbn [indexOf].
  - destruct (startsWith [] p) eqn:E; [|lia].
    intros Hn. assert (n = 0) as -> by lia. split; [done|]. lia.
  - destruct (startsWith (c :: s) p) eqn:E.
    + intros Hn. assert (n = 0) as -> by lia. split; [done|]. lia.
    + destruct (Z.ltb_spec (indexOf s p) 0); [lia|]. intros Hn.
      destruct n as [|n]; [lia|].
      destruct (IH n) as [Hat Hbefore]; [lia|]. split; [done|].
      intros i Hi. destruct i as [|i]; [done|]. cbn [drop]. apply Hbefore. lia.
Qed.

(** The test [pos >= 0 && character > pos] on the first occurrence of a
    marker: some occurrence of the marker starts before the column. *)
Lemma marker_before_column line marker (character : nat) :
  (0 <=? indexOf line marker)%Z
  && (indexOf line marker <? Z.of_nat character)%Z = true
  ↔ ∃ i, i < character ∧ startsWith (drop i line) marker = true.
Proof.
  rewrite andb_true_iff, Z.leb_le, Z.ltb_lt. split.
  - intros [Hpos Hlt].
    destruct (indexOf_first line marker (Z.to_nat (indexOf line marker)))
      as [Hat _]; [lia|].
    exists (Z.to_nat (indexOf line marker)). split; [lia | done].
  - intros (i & Hi & Hat).
    pose proof (indexOf_ge_m1 line marker) as Hge.
    destruct (decide (indexOf line marker = (-1)%Z)) as [Hnone|Hsome].
    + rewrite (indexOf_none line marker Hnone i) in Hat. discriminate.
    + split; [lia|].
      destruct (indexOf_first line marker (Z.to_nat (indexOf line marker)))
        as [_ Hbefore]; [lia|].
      destruct (decide (i < Z.to_nat (indexOf line marker))) as [Hlt|Hge'];
        [|lia].
      rewrite (Hbefore i Hlt) in Hat. discriminate.
Qed.

(** X11: in a language with [//] line comments a position of the
    document is reported inside a comment exactly when some [//] starts
    on its line before its column; likewise with [#] for the languages
    with hash comments. *)
Theorem comment_detection_looks_left languageId document position :
  line position < lineCount document →
  let text := documentLines document !!! line position in
  (isOneOf languageId cFamily = true →
     isPositionInComment languageId document position = Ok true
     ↔ ∃ i, i < character position
            ∧ startsWith (drop i text) (str "//") = true)
  ∧ (isOneOf languageId cFamily = false →
     isOneOf languageId ["python"; "ruby"; "shell"; "bash"; "yaml"]%string
     = true →
     isPositionInComment languageId document position = Ok true
     ↔ ∃ i, i < character position
            ∧ startsWith (drop i text) (str "#") = true).
Proof.
  intros Hin text. unfold isPositionInComment.
  rewrite lineAt_in_range by done. cbn [mbind Result_bind]. cbv zeta.
  fold text. split.
  - intros ->.
    pose proof (marker_before_column text (str "//") (character position))
      as Hmarker.
    split; [intros [= Htest]; by apply Hmarker|].
    intros Htest%Hmarker. by f_equal.
  - intros -> ->.
    pose proof (marker_before_column text (str "#") (character position))
      as Hmarker.
    split; [intros [= Htest]; by apply Hmarker|].
    intros Htest%Hmarker. by f_equal.
Qed.

Lemma comment_detection_looks_left_witness :
  isPositionInComment (str "javascript") Samples.commentDocument
    {| line := 0; character := 1 |} = Ok true.
Proof.
  destruct (comment_detection_looks_left (str "javascript")
              Samples.commentDocument {| line := 0; character := 1 |})
    as [Hslash _]; [vm_compute; lia|].
  apply Hslash; [by vm_compute|]. exists 0. split; [cbn; lia | by vm_compute].
Defined.

Lemma countChar_app c (a b : jsstring) :
  countChar c (a ++ b) = countChar c a + countChar c b.
Proof. unfold countChar. by rewrite filter_app, length_app. Qed.

Lemma countChar_cons c a (s : jsstring) :
  countChar c (a :: s) = (if decide (a = c) then 1 else 0) + countChar c s.
Proof.
  unfold countChar. rewrite filter_cons. by destruct (decide (a = c)).
Qed.

Lemma countChar_whitespace c (w : jsstring) :
  isWhiteSpace c = false → forallb isWhiteSpace w = true → countChar c w = 0.
Proof.
  intros Hc. induction w as [|a w IH]; [done|]. cbn [forallb].
  intros [Ha Hw]%andb_true_iff. rewrite countChar_cons, IH by done.
  destruct (decide (a = c)) as [->|]; [congruence | done].
Qed.

(** Trimming removes white space only. *)
Lemma countChar_trim c s :
  isWhiteSpace c = false → countChar c (trim s) = countChar c s.
Proof.
  intros Hc. unfold trim.
  rewrite <- (takeWhile_dropWhile isWhiteSpace s) at 2.
  fold (trimStart s). unfold trimEnd at 1.
  set (t := trimStart s).
  rewrite <- (rev_involutive t) at 2.
  rewrite <- (takeWhile_dropWhile isWhiteSpace (rev t)) at 2.
  rewrite rev_app_distr, !countChar_app.
  rewrite (countChar_whitespace c (takeWhile _ s))
    by (done || apply takeWhile_forallb).
  rewrite (countChar_whitespace c (rev (takeWhile _ (rev t))));
    [unfold trimStart; lia|done|].
  rewrite forallb_rev. apply takeWhile_forallb.
Qed.

Lemma countChar_join c (parts : list jsstring) :
  c ≠ nl →
  countChar c (join [nl] parts) = foldr (fun p n => countChar c p + n) 0 parts.
Proof.
  intros Hc. induction parts as [|p parts IH]; [done|].
  destruct parts as [|q parts]; [cbn [join foldr]; lia|].
  rewrite join_cons2, !countChar_app, IH. cbn [foldr].
  rewrite (countChar_cons c nl []).
  destruct (decide (nl = c)); [congruence|].
  change (countChar c []) with 0. lia.
Qed.

Lemma bracketDelta_sum (ls : list jsstring) :
  foldr (fun l n => (bracketDelta (trim l) + n)%Z) 0%Z ls = 0%Z →
  bracesBalanced (join [nl] ls).
Proof.
  intros Hsum. unfold bracesBalanced. rewrite !countChar_join by done.
  assert (∀ ls : list jsstring,
            foldr (fun l n => (bracketDelta (trim l) + n)%Z) 0%Z ls
            = (Z.of_nat (foldr (fun p n => countChar (ch "{") p + n)%nat 0%nat ls)
               - Z.of_nat
                   (foldr (fun p n => countChar (ch "}") p + n)%nat 0%nat ls))%Z)
    as Hrel.
  { clear. induction ls as [|l ls IH]; [done|]. cbn [foldr]. rewrite IH.
    unfold bracketDelta. rewrite !countChar_trim by done. lia. }
  rewrite Hrel in Hsum. lia.
Qed.

(** The scan keeps the running brace count of the open declaration and
    only closes declarations whose braces are balanced. *)
Lemma typescriptStep_fold lines st :
  (inDeclaration st = true →
   bracketCount st
   = foldr (fun l n => (bracketDelta (trim l) + n)%Z) 0%Z
       (declarationLines st)) →
  ∃ found,
    declarations (fold_left typescriptStep lines st)
    = declarations st ++ found
    ∧ Forall bracesBalanced found.
Proof.
  revert st. induction lines as [|line lines IH]; intros st Hinv.
  - exists []. cbn. by rewrite app_nil_r.
  - cbn [fold_left].
    assert (∀ ls l,
              foldr (fun l n => (bracketDelta (trim l) + n)%Z) 0%Z (ls ++ [l])
              = (foldr (fun l n => (bracketDelta (trim l) + n)%Z) 0%Z ls
                 + bracketDelta (trim l))%Z) as Hsnoc.
    { clear. induction ls as [|a ls IH]; intros l; cbn [app foldr]; [lia|].
      rewrite IH. lia. }
    unfold typescriptStep at 2.
    destruct (negb (inDeclaration st) && _) eqn:Estart.
    + destruct ((bracketDelta (trim line) =? 0)%Z && _) eqn:Eone.
      * apply andb_true_iff in Eone as [Hzero%Z.eqb_eq _].
        edestruct IH as (found & -> & Hfound); [done|].
        cbn [declarations]. exists (line :: found).
        rewrite <- app_assoc. split; [done|]. constructor; [|done].
        apply (bracketDelta_sum [line]). cbn [foldr]. lia.
      * edestruct IH as (found & -> & Hfound); [|by exists found].
        intros _. cbn. lia.
    + destruct (inDeclaration st) eqn:Ein.
      * specialize (Hinv eq_refl).
        destruct ((bracketCount st + bracketDelta (trim line) =? 0)%Z)
          eqn:Ezero.
        -- apply Z.eqb_eq in Ezero.
           edestruct IH as (found & -> & Hfound); [done|].
           cbn [declarations].
           exists (join [nl] (declarationLines st ++ [line]) :: found).
           rewrite <- app_assoc. split; [done|]. constructor; [|done].
           apply bracketDelta_sum. rewrite Hsnoc. lia.
        -- edestruct IH as (found & -> & Hfound); [|by exists found].
           intros _. cbn [bracketCount declarationLines].
           rewrite Hsnoc. lia.
      * apply IH. rewrite Ein. done.
Qed.

(** X12: for TypeScript, the result consists of the import block, if
    any, followed by declarations whose braces are balanced. *)
Theorem typescript_declarations_are_balanced documentText :
  let imports := getImportStatements (str "typescript") documentText in
  ∃ found,
    getGlobalDeclarations (str "typescript") documentText
    = join [nl] ((if truthy imports then [imports] else []) ++ found)
    ∧ Forall bracesBalanced found.
Proof.
  intros imports. unfold getGlobalDeclarations. cbv zeta. fold imports.
  change (isOneOf (str "typescript") ["typescript"%string]) with true.
  cbv iota.
  edestruct typescriptStep_fold as (found & -> & Hfound); [done|].
  by exists found.
Qed.

End CommentsAndDeclarations.

(** ** multiline-provider.ts: re-indentation with a white-space base *)

Section WhiteSpaceBase.

Import MultilineProvider.

Implicit Types (base line suggestion : jsstring).

Lemma takeWhile_app_stop (q : N → bool) w c rest :
  forallb q w = true → q c = false → takeWhile q (w ++ c :: rest) = w.
Proof.
  intros Hw Hc. induction w as [|a w IH]; simpl in *.
  - by rewrite Hc.
  - apply andb_true_iff in Hw as [-> Hw]. by rewrite IH.
Qed.

(** A line with visible content: its leading white space, then a
    character that is not white space. *)
Lemma visible_line line :
  trim line ≠ [] →
  ∃ c rest, isWhiteSpace c = false
            ∧ line = leadingWhitespace line ++ c :: rest
            ∧ drop (length (leadingWhitespace line)) line = c :: rest.
Proof.
  intros Hvis. unfold leadingWhitespace.
  destruct (dropWhile isWhiteSpace line) as [|c rest] eqn:Erest.
  - apply dropWhile_nil_iff, trim_nil_iff in Erest. done.
  - exists c, rest. split; [by eapply dropWhile_head|].
    pose proof (takeWhile_dropWhile isWhiteSpace line) as Hsplit.
    rewrite Erest in Hsplit. split; [done|].
    rewrite <- Hsplit at 2. by rewrite drop_app_length.
Qed.

Lemma visible_after_base base c rest :
  isWhiteSpace c = false → trim (base ++ c :: rest) ≠ [].
Proof.
  intros Hc Hblank%trim_nil_iff. rewrite forallb_app in Hblank.
  apply andb_true_iff in Hblank as [_ Hrest]. cbn in Hrest.
  by rewrite Hc in Hrest.
Qed.

(** What [indentLine] does to a later line with visible content, in terms
    of the text after its leading white space. *)
Lemma indentLine_visible base i line :
  0 < i → trim line ≠ [] →
  ∃ c rest, isWhiteSpace c = false
    ∧ line = leadingWhitespace line ++ c :: rest
    ∧ (indentLine base i line = line ∧ startsWith line base = true
       ∨ indentLine base i line = base ++ c :: rest).
Proof.
  intros Hpos Hvis.
  destruct (visible_line line Hvis) as (c & rest & Hc & Hline & Hdrop).
  exists c, rest. split; [done|]. split; [done|].
  rewrite indentLine_later by done.
  destruct (leadingWhitespace line) as [|a w] eqn:Ew.
  - right. by rewrite Hline at 1.
  - destruct (startsWith line base) eqn:Estart; [by left|right].
    by rewrite Hdrop.
Qed.

Lemma indentLine_settled base i c rest :
  forallb isWhiteSpace base = true → isWhiteSpace c = false →
  indentLine base i (base ++ c :: rest) = base ++ c :: rest.
Proof.
  intros Hbase Hc. unfold indentLine.
  destruct (bool_decide (i = 0)); [done|].
  destruct (trim (base ++ c :: rest)) eqn:Etrim;
    [by apply visible_after_base in Etrim|].
  cbn [truthy negb]. unfold leadingWhitespace.
  rewrite takeWhile_app_stop by done.
  destruct base as [|b base]; [done|]. cbn [truthy].
  replace (startsWith ((b :: base) ++ c :: rest) (b :: base)) with true; [done|].
  symmetry. apply startsWith_spec. by exists (c :: rest).
Qed.

Lemma indentLine_idempotent base i line :
  forallb isWhiteSpace base = true →
  indentLine base i (indentLine base i line) = indentLine base i line.
Proof.
  intros Hbase. destruct (decide (i = 0)) as [->|Hpos]; [done|].
  destruct (decide (trim line = [])) as [Hblank|Hvis].
  - assert (indentLine base i line = line) as Hsame; [|by rewrite !Hsame].
    unfold indentLine. by rewrite bool_decide_eq_false_2, Hblank by done.
  - destruct (indentLine_visible base i line)
      as (c & rest & Hc & _ & [[Hsame _]|Hnew]);
      [lia | done | by rewrite !Hsame |].
    rewrite Hnew. by apply indentLine_settled.
Qed.

(** X13: with a base indentation made of white space other than line
    feeds, as the provider passes it, re-indenting an already re-indented
    suggestion changes nothing. *)
Theorem applyIndentation_idempotent suggestion base :
  nl ∉ base → forallb isWhiteSpace base = true →
  applyIndentation (applyIndentation suggestion base) base
  = applyIndentation suggestion base.
Proof.
  intros Hnl Hbase. unfold applyIndentation at 1.
  rewrite applyIndentation_lines, length_imap by done.
  destruct (length (splitLines suggestion) <=? 1)%nat eqn:Elen; [done|].
  unfold applyIndentation. rewrite Elen. f_equal.
  apply list_eq. intros i. rewrite !list_lookup_imap.
  destruct (splitLines suggestion !! i) as [line|]; [|done].
  cbn. f_equal. by apply indentLine_idempotent.
Qed.

Lemma applyIndentation_idempotent_witness :
  let suggestion := Samples.text ["if (x) {"; " y();"; "}"] in
  applyIndentation (applyIndentation suggestion (str "  ")) (str "  ")
  = applyIndentation suggestion (str "  ").
Proof.
  intros suggestion.
  apply (applyIndentation_idempotent suggestion (str "  "));
    [apply base_two_spaces_no_nl | reflexivity].
Defined.

(** X14: with such a base, re-indentation only changes leading white
    space: every line of the result has the text of the corresponding
    line of the suggestion after its leading white space. *)
Theorem applyIndentation_changes_leading_white_space_only suggestion base i :
  nl ∉ base → forallb isWhiteSpace base = true →
  trimStart <$> splitLines (applyIndentation suggestion base) !! i
  = trimStart <$> splitLines suggestion !! i.
Proof.
  intros Hnl Hbase. rewrite applyIndentation_lines, list_lookup_imap by done.
  destruct (splitLines suggestion !! i) as [line|]; [|done].
  cbn. f_equal.
  destruct (decide (i = 0)) as [->|Hpos]; [done|].
  destruct (decide (trim line = [])) as [Hblank|Hvis].
  - unfold indentLine. by rewrite bool_decide_eq_false_2, Hblank by done.
  - destruct (indentLine_visible base i line)
      as (c & rest & Hc & Hline & [[Hsame _]|Hnew]);
      [lia | done | by rewrite Hsame |].
    rewrite Hnew, Hline. unfold trimStart.
    rewrite !dropWhile_app_stop; try done. apply takeWhile_forallb.
Qed.

Lemma applyIndentation_changes_leading_white_space_only_witness :
  let suggestion := Samples.text ["if (x) {"; " y();"; "}"] in
  trimStart <$> splitLines (applyIndentation suggestion (str "  ")) !! 1
  = Some (str "y();").
Proof.
  intros suggestion.
  rewrite (applyIndentation_changes_leading_white_space_only suggestion
             (str "  ") 1);
    [reflexivity | apply base_two_spaces_no_nl | reflexivity].
Defined.

End WhiteSpaceBase.

(** ** extension.ts: what a request does to the shared state *)

Section ProviderRequests.

Import Utils ModelManager InlineProvider.

Lemma getCompletions_frame prompt genAI apiKey cancelled st :
  let '(suggestions, _, st') :=
    getCompletions prompt genAI apiKey cancelled st in
  upstreamCalls st' = upstreamCalls st
  ∧ inFlight st' = inFlight st
  ∧ suggestionCache st' = suggestionCache st
  ∧ callCount st' = callCount st
  ∧ ∀ me, suggestions = Awaiting me →
      timer st' = Some {| caller := me; prompt := prompt |}
      ∧ suggestionCache st !! prompt = None.
Proof.
  unfold getCompletions. destruct (ensureInitialized genAI apiKey) as [g ok].
  destruct ok; cbn [negb]; [|done].
  unfold getCachedSuggestion, getCacheKey.
  destruct (suggestionCache st !! prompt) as [suggestion|] eqn:Ecache.
  - cbn. rewrite lookup_insert_eq. done.
  - cbn. destruct (settled st !! nextCaller st) as [[]|];
      (do 4 (split; [done|])); by intros waiting [= <-].
Qed.

(** X15: whatever the request, [provideInlineCompletionItems] itself
    sends nothing upstream and leaves the cache as it is; when it has to
    wait for a completion, its prompt is not in the cache and its call is
    the armed timeout of the debounced function. *)
Theorem provider_sends_nothing_upstream_itself ext config workspace document
    position triggerKind cancelled :
  let '(reply, ext') :=
    provideInlineCompletionItems ext config workspace document position
      triggerKind cancelled in
  upstreamCalls (utils ext') = upstreamCalls (utils ext)
  ∧ inFlight (utils ext') = inFlight (utils ext)
  ∧ suggestionCache (utils ext') = suggestionCache (utils ext)
  ∧ ∀ me, completions reply = Awaiting me →
      ∃ prompt,
        timer (utils ext') = Some {| caller := me; prompt := prompt |}
        ∧ suggestionCache (utils ext) !! prompt = None.
Proof.
  unfold provideInlineCompletionItems.
  destruct (isBlank (apiKey config)); [done|].
  destruct (languageEnabled config (languageId document)); cbn [negb];
    [|done].
  unfold rateLimitCheck.
  destruct (MAX_CALLS_PER_MINUTE <=? callCount (utils ext))%nat;
    cbn [negb]; [done|].
  destruct (getContextData config workspace document position)
    as [contextData|]; [|done].
  destruct (shouldTriggerCompletion config contextData triggerKind);
    cbn [negb]; [|done].
  unfold getInlineCompletions.
  match goal with
  | |- context [getCompletions ?p ?g ?k ?c ?st] =>
      pose proof (getCompletions_frame p g k c st) as Hframe;
      destruct (getCompletions p g k c st) as [[suggestions genAI'] st']
  end.
  destruct Hframe as (Hup & Hfl & Hcache & _ & Hwait).
  cbn in *. repeat split; try done.
  intros me Hme. destruct suggestions as [l|me']; [done|].
  injection Hme as ->. destruct (Hwait me eq_refl) as [Htimer Hmiss].
  eauto.
Qed.

(** X16: a request that passes the key and language checks below the
    ceiling uses up one call of the rate budget even when the trigger
    policy then turns it down and nothing is requested. *)
Theorem untriggered_request_consumes_rate_budget ext config workspace
    document position triggerKind cancelled :
  isBlank (apiKey config) = false →
  languageEnabled config (languageId document) = true →
  callCount (utils ext) < MAX_CALLS_PER_MINUTE →
  triggerDecision config workspace document position triggerKind = false →
  let '(reply, ext') :=
    provideInlineCompletionItems ext config workspace document position
      triggerKind cancelled in
  reply = {| completions := Returned []; notice := None |}
  ∧ callCount (utils ext') = S (callCount (utils ext))
  ∧ timer (utils ext') = timer (utils ext)
  ∧ nextCaller (utils ext') = nextCaller (utils ext).
Proof.
  intros Hkey Hlang Hbelow Hpolicy. unfold provideInlineCompletionItems.
  rewrite Hkey, Hlang. cbn [negb]. unfold rateLimitCheck.
  replace (MAX_CALLS_PER_MINUTE <=? callCount (utils ext))%nat with false
    by (symmetry; apply Nat.leb_gt; lia).
  cbn [negb]. unfold triggerDecision in Hpolicy.
  destruct (getContextData config workspace document position)
    as [contextData|]; [|done].
  by rewrite Hpolicy.
Qed.

Lemma untriggered_request_consumes_rate_budget_witness :
  let ext := {| utils := initial; genAI := false |} in
  callCount
    (utils
       (snd (provideInlineCompletionItems ext (defaults (str "key"))
               Samples.sampleWorkspace Samples.commentDocument
               {| line := 0; character := 5 |} Automatic false)))
  = 1.
Proof.
  intros ext.
  pose proof (untriggered_request_consumes_rate_budget ext
                (defaults (str "key")) Samples.sampleWorkspace
                Samples.commentDocument {| line := 0; character := 5 |}
                Automatic false) as Hbudget.
  destruct (provideInlineCompletionItems _ _ _ _ _ _ _) as [reply ext'].
  cbn [snd].
  destruct Hbudget as (_ & Hcount & _);
    [reflexivity | reflexivity | vm_compute; lia | by vm_compute | done].
Defined.

Lemma addRelated_skip document files :
  ∀ projectContext,
    fold_left (addRelated document) files projectContext
    = fold_left (addRelated document)
        (filter (fun d => fsPath d ≠ fsPath document) files) projectContext.
Proof.
  induction files as [|d files IH]; intros projectContext; [done|].
  cbn [fold_left]. rewrite filter_cons.
  destruct (decide (fsPath d ≠ fsPath document)) as [Hother|Hsame].
  - cbn [fold_left]. apply IH.
  - rewrite <- IH. f_equal. unfold addRelated, eqb.
    rewrite bool_decide_eq_true_2; [done|].
    by destruct (decide (fsPath d = fsPath document)).
Qed.

(** X17: the project context never draws on the current document: it is
    the same as for a workspace whose files do not include it. *)
Theorem project_context_leaves_out_current_document config hasFolder files
    document :
  let others := filter (fun d => fsPath d ≠ fsPath document) files in
  getProjectContext config
    {| hasWorkspaceFolder := hasFolder; relatedDocuments := Ok files |}
    document
  = getProjectContext config
      {| hasWorkspaceFolder := hasFolder; relatedDocuments := Ok others |}
      document.
Proof.
  intros others. unfold getProjectContext.
  cbn [hasWorkspaceFolder relatedDocuments].
  destruct (negb (useProjectContext config)); [done|].
  destruct (negb hasFolder); [done|].
  apply addRelated_skip.
Qed.

End ProviderRequests.

(** ** extension.ts: the text taken before the cursor *)

Section ContextWindow.

Import InlineProvider.

Lemma textFrom_lines document startLine position :
  line position < lineCount document → startLine ≤ line position →
  getTextFromLine document startLine position
  = join [nl]
      (drop startLine (splitLines (getTextFromLine document 0 position))).
Proof.
  intros Hin Hstart. rewrite textBefore_lines by done.
  unfold getTextFromLine, validatePosition. fold (lineCount document).
  replace (lineCount document - 1 <? startLine)%nat with false
    by (symmetry; apply Nat.ltb_ge; lia).
  replace (lineCount document - 1 <? line position)%nat with false
    by (symmetry; apply Nat.ltb_ge; lia).
  cbn [line character]. rewrite take_min_length. f_equal.
  rewrite drop_app_le by (rewrite length_take; unfold lineCount in Hin; lia).
  f_equal. by rewrite take_drop_commute, Nat.add_comm, Nat.sub_add.
Qed.

(** X18: the immediate context put into the prompt is the end of the
    text before the cursor, and has at most [contextLineCount + 1]
    lines. *)
Theorem immediate_context_window config workspace document position
    sections :
  contextSections config workspace document position = Ok sections →
  ∃ imports project scope immediate before,
    sections = [imports; project; scope; immediate]
    ∧ getTextFromLine document 0 position = before ++ immediate
    ∧ length (splitLines immediate) ≤ contextLineCount config + 1.
Proof.
  unfold contextSections.
  destruct (LanguageFeatures.getCurrentScope _ _ _) as [scope|] eqn:Escope;
    [|done].
  cbn [mbind mret Result_bind Result_ret]. intros [= <-].
  assert (line position < lineCount document) as Hin.
  { destruct (decide (line position < lineCount document)) as [|Hout];
      [done|].
    destruct (heuristics_raise_outside (languageId document) document
                position) as (_ & _ & Hraise); [lia|].
    by rewrite Hraise in Escope. }
  set (startLine := line position - contextLineCount config).
  rewrite (textFrom_lines document startLine position) by (done || lia).
  pose proof (textBefore_length document position Hin) as Hlen.
  set (lines := splitLines (getTextFromLine document 0 position)) in *.
  destruct (join_app_suffix [nl] (take startLine lines) (drop startLine lines))
    as [before Hbefore].
  rewrite take_drop in Hbefore.
  eexists _, _, scope, _, before. split; [done|]. split.
  - rewrite <- Hbefore. subst lines. by rewrite join_splitLines.
  - rewrite splitLines_join.
    + rewrite length_drop, Hlen. unfold startLine. lia.
    + intros Hnil. apply (f_equal length) in Hnil.
      rewrite length_drop, Hlen in Hnil. unfold startLine in Hnil.
      change (length []) with 0 in Hnil. lia.
    + apply Forall_drop. subst lines. apply splitLines_no_nl.
Qed.

Lemma immediate_context_window_witness :
  ∃ sections immediate,
    contextSections (defaults (str "key")) Samples.sampleWorkspace
      Samples.sampleDocument Samples.samplePosition = Ok sections
    ∧ sections !! 3 = Some immediate
    ∧ length (splitLines immediate) ≤ 51.
Proof.
  destruct (contextSections (defaults (str "key")) Samples.sampleWorkspace
              Samples.sampleDocument Samples.samplePosition)
    as [sections|] eqn:Esections; [|by vm_compute in Esections].
  destruct (immediate_context_window _ _ _ _ _ Esections)
    as (imports & project & scope & immediate & before & -> & _ & Hlen).
  by exists [imports; project; scope; immediate], immediate.
Defined.

End ContextWindow.

(** ** language-features.ts: what counts as the start of a block *)

Section BlockStarts.

Import Regex LanguageFeatures.

Implicit Types (languageId s p line : jsstring).

Lemma endsWith_spec s p : endsWith s p = true ↔ ∃ before, s = before ++ p.
Proof.
  unfold endsWith. rewrite startsWith_spec. split.
  - intros [r Hr]. exists (rev r).
    apply (f_equal (@rev _)) in Hr.
    by rewrite rev_involutive, rev_app_distr, rev_involutive in Hr.
  - intros [before ->]. exists (rev before). by rewrite rev_app_distr.
Qed.

Lemma endsWithOpenBrace_after line :
  endsWith line (str "{") = true → endsWithOpenBrace line = true.
Proof.
  intros [before ->]%endsWith_spec. apply searchToEnd_spec.
  exists before, (str "{"). split; [done|].
  apply (MatchCat _ _ [ch "{"] []); [by apply matches_chr | constructor].
Qed.

Lemma matches_alts keywords s :
  matches (alts keywords) s ↔ ∃ k, In k keywords ∧ s = str k.
Proof.
  induction keywords as [|k keywords IH]; cbn [alts foldr].
  - rewrite matches_Void. split; [done | by intros (k & [] & _)].
  - fold (alts keywords). rewrite matches_Alt, IH. unfold lit.
    rewrite matches_lit'. split.
    + intros [->|(k' & Hin & ->)]; [exists k | exists k']; cbn; tauto.
    + intros (k' & [<-|Hin] & ->); [by left | right; eauto].
Qed.

(** X19: in every language other than Python and Ruby, a line whose
    last character is an opening brace is the start of a block. *)
Theorem open_brace_starts_block languageId line :
  isOneOf languageId ["python"; "ruby"]%string = false →
  endsWith line (str "{") = true →
  isBlockStart languageId line = true.
Proof.
  intros Hlanguage Hbrace%endsWithOpenBrace_after. unfold isBlockStart.
  rewrite (isOneOf_false_incl languageId ["python"; "ruby"]%string
             ["python"%string] Hlanguage) by (cbn; tauto).
  rewrite (isOneOf_false_incl languageId ["python"; "ruby"]%string
             ["ruby"%string] Hlanguage) by (cbn; tauto).
  rewrite Hbrace. repeat case_match; by rewrite ?orb_true_r.
Qed.

Lemma open_brace_starts_block_witness :
  isBlockStart (str "go") (str "func main() {") = true.
Proof.
  apply (open_brace_starts_block (str "go") (str "func main() {"));
    reflexivity.
Defined.

(** X20: in Python, a block starts only on a line that begins with one
    of the ten keywords and ends in a colon. *)
Theorem python_block_start_shape line :
  isBlockStart (str "python") line = true →
  endsWith line (str ":") = true
  ∧ startsWithAny line
      ["def"; "class"; "if"; "for"; "while"; "try"; "elif"; "else";
       "except"; "with"]%string = true.
Proof.
  unfold isBlockStart.
  change (isOneOf (str "python")
            ["javascript"; "typescript"; "java"; "c"; "cpp"; "csharp"]%string)
    with false.
  change (isOneOf (str "python") ["python"%string]) with true. cbv iota.
  rewrite fullMatch_spec.
  intros (keyword & tail & -> & Hkeyword & Htail)%matches_Cat.
  apply matches_alts in Hkeyword as (k & Hin & ->). split.
  - apply endsWith_spec. apply matches_Alt in Htail as [Hcolon|Hlong].
    + apply matches_chr in Hcolon as ->. by exists (str k).
    + unfold seq in Hlong. cbn [foldr] in Hlong.
      apply matches_Cat in Hlong as (a & rest1 & -> & _ & Hrest1).
      apply matches_Cat in Hrest1 as (b & rest2 & -> & _ & Hrest2).
      apply matches_Cat in Hrest2 as (c & rest3 & -> & Hc & Hrest3).
      apply matches_chr in Hc as ->. apply matches_Eps in Hrest3 as ->.
      exists (str k ++ a ++ b). by rewrite app_nil_r, <- !app_assoc.
  - unfold startsWithAny. apply existsb_exists. exists k. split; [done|].
    apply startsWith_spec. by exists tail.
Qed.

Lemma python_block_start_shape_witness :
  endsWith (str "def f(x):") (str ":") = true.
Proof.
  by destruct (python_block_start_shape (str "def f(x):"));
    [vm_compute|].
Defined.

End BlockStarts.

(** ** extension.ts and status-bar.ts: enabling, disabling, toggling *)

Section LifecycleFacts.

Import Lifecycle.

Variable settings : Settings.

Implicit Types (st : State) (commands : list Command)
  (events : list Event).

Lemma enableExtension_names_state st :
  showStatusBar settings = true → textNamesState st →
  textNamesState (enableExtension settings st).
Proof.
  intros Hshow Hst. unfold textNamesState, enableExtension in *.
  destruct (providerDisposable st) eqn:Eprovider; cbn [negb];
    [unfold showInformationMessage; cbn [providerDisposable statusBarItem];
     by rewrite Eprovider|].
  unfold trackEvent, update. rewrite Hshow.
  by destruct (enableTelemetry settings).
Qed.

Lemma disableExtension_names_state st :
  showStatusBar settings = true → textNamesState st →
  textNamesState (disableExtension settings st).
Proof.
  intros Hshow Hst. unfold textNamesState, disableExtension in *.
  destruct (providerDisposable st) eqn:Eprovider; cbn [negb];
    [|unfold showInformationMessage; cbn [providerDisposable statusBarItem];
      by rewrite Eprovider].
  unfold trackEvent, update. rewrite Hshow.
  by destruct (enableTelemetry settings).
Qed.

Lemma execute_names_state st command :
  showStatusBar settings = true → textNamesState st →
  textNamesState (execute settings st command).
Proof.
  intros Hshow Hst. destruct command; cbn [execute].
  - by apply enableExtension_names_state.
  - by apply disableExtension_names_state.
  - unfold toggle. destruct (includes _ _);
      [by apply enableExtension_names_state
      |by apply disableExtension_names_state].
Qed.

Lemma run_names_state commands st :
  showStatusBar settings = true → textNamesState st →
  textNamesState (run settings (Run <$> commands) st).
Proof.
  intros Hshow. revert st.
  induction commands as [|command commands IH]; intros st Hst; [done|].
  cbn. apply IH. by apply execute_names_state.
Qed.

Lemma enableExtension_registers st :
  providerDisposable (enableExtension settings st) = true.
Proof.
  unfold enableExtension. destruct (providerDisposable st) eqn:E; [done|].
  cbn [negb]. unfold trackEvent, update.
  by repeat case_match.
Qed.

Lemma disableExtension_unregisters st :
  providerDisposable (disableExtension settings st) = false.
Proof.
  unfold disableExtension. destruct (providerDisposable st) eqn:E; [|done].
  unfold trackEvent, update. by repeat case_match.
Qed.

(** X21: with the status bar shown, as long as only the enable, disable
    and toggle commands run after activation, the text of the status bar
    item tells whether the providers are registered, and toggling
    registers them when they are not and removes them when they are. *)
Theorem toggle_flips_registration st0 commands :
  showStatusBar settings = true →
  let st := run settings (Run <$> commands) (activate settings st0) in
  includes (text (statusBarItem st)) (str "circle-slash")
  = negb (providerDisposable st)
  ∧ providerDisposable (toggle settings st) = negb (providerDisposable st).
Proof.
  intros Hshow st.
  assert (textNamesState st) as Hst.
  { apply run_names_state; [done|].
    unfold textNamesState, activate, update. by rewrite Hshow. }
  split; [done|]. unfold toggle. rewrite Hst.
  destruct (providerDisposable st); cbn [negb].
  - apply disableExtension_unregisters.
  - apply enableExtension_registers.
Qed.

(** In every state reached after activation, the multi-line and code
    action providers are registered only when the inline provider is. *)
Lemma run_registered_together events st :
  (providerDisposable st = false →
   multilineProviderDisposable st = false
   ∧ codeActionsDisposable st = false) →
  providerDisposable (run settings events st) = false →
  multilineProviderDisposable (run settings events st) = false
  ∧ codeActionsDisposable (run settings events st) = false.
Proof.
  revert st. induction events as [|e events IH]; intros st Hst; [done|].
  cbn [run fold_left]. apply IH. clear IH.
  assert (∀ s, (providerDisposable s = false →
                multilineProviderDisposable s = false
                ∧ codeActionsDisposable s = false) →
               providerDisposable (enableExtension settings s) = false →
               multilineProviderDisposable (enableExtension settings s)
               = false
               ∧ codeActionsDisposable (enableExtension settings s) = false)
    as Henable.
  { intros s _. by rewrite enableExtension_registers. }
  assert (∀ s, multilineProviderDisposable (disableExtension settings s)
               = false
               ∧ codeActionsDisposable (disableExtension settings s) = false
               ∨ providerDisposable s = false
                 ∧ disableExtension settings s
                   = showInformationMessage "AutoGem is already disabled." s)
    as Hdisable.
  { intros s. unfold disableExtension.
    destruct (providerDisposable s); [left|by right].
    unfold trackEvent, update. by repeat case_match. }
  destruct e as [[]|message|]; cbn [step execute].
  - by apply Henable.
  - destruct (Hdisable st) as [Hnone|[Hoff ->]]; [done|].
    intros _. by apply Hst.
  - unfold toggle. destruct (includes _ _); [by apply Henable|].
    destruct (Hdisable st) as [Hnone|[Hoff ->]]; [done|].
    intros _. by apply Hst.
  - done.
  - unfold messageTimeoutFires. by destruct (messageTimeout st).
Qed.

(** X22: whatever happens after activation, once the inline provider
    is no longer registered, neither is the multi-line provider nor the
    code actions provider. *)
Theorem nothing_registered_when_disabled item counts events :
  let st := run settings events (activate settings (loaded item counts)) in
  providerDisposable st = false →
  multilineProviderDisposable st = false ∧ codeActionsDisposable st = false.
Proof.
  intros st. apply run_registered_together.
  unfold activate, update. by repeat case_match.
Qed.

(** X23: a status message replaces the text from which [toggle] reads
    the state.  When it is shown while the providers are not registered,
    toggling no longer enables the extension, however often it is
    tried. *)
Theorem toggle_cannot_enable_after_message st message n :
  providerDisposable st = false →
  includes message (str "circle-slash") = false →
  providerDisposable (Nat.iter n (toggle settings) (showMessage message st))
  = false.
Proof.
  intros Hoff Hmessage.
  assert (providerDisposable
            (Nat.iter n (toggle settings) (showMessage message st)) = false
          ∧ text (statusBarItem
                    (Nat.iter n (toggle settings) (showMessage message st)))
            = message) as [Hprovider _]; [|done].
  induction n as [|n [IHoff IHtext]]; [done|].
  rewrite !Nat.iter_succ.
  set (s := Nat.iter n (toggle settings) (showMessage message st)) in *.
  unfold toggle. rewrite IHtext, Hmessage.
  unfold disableExtension. by rewrite IHoff.
Qed.

Lemma counted_trackEvent name name' st :
  counted name (trackEvent settings name' st)
  = counted name st
    + (if enableTelemetry settings && bool_decide (str name = str name')
       then 1 else 0).
Proof.
  unfold counted, trackEvent.
  destruct (enableTelemetry settings); cbn [negb andb globalState]; [|lia].
  destruct (bool_decide_reflect (str name = str name')) as [->|Hne].
  - by rewrite lookup_insert_eq.
  - rewrite lookup_insert_ne by done. lia.
Qed.

Lemma counted_showInformationMessage name message st :
  counted name (showInformationMessage message st) = counted name st.
Proof. done. Qed.

Lemma counted_update name isEnabled st :
  counted name (update settings isEnabled st) = counted name st.
Proof. unfold update. by repeat case_match. Qed.

Lemma enableExtension_counts name st :
  providerDisposable st = false →
  counted name (enableExtension settings st)
  = counted name st
    + (if enableTelemetry settings
          && bool_decide (str name = str "extension_enabled")
       then 1 else 0).
Proof.
  intros Hoff. unfold enableExtension. rewrite Hoff. cbn [negb].
  by rewrite counted_showInformationMessage, counted_trackEvent,
    counted_update.
Qed.

Lemma disableExtension_counts name st :
  providerDisposable st = true →
  counted name (disableExtension settings st)
  = counted name st
    + (if enableTelemetry settings
          && bool_decide (str name = str "extension_disabled")
       then 1 else 0).
Proof.
  intros Hon. unfold disableExtension. rewrite Hon.
  by rewrite counted_showInformationMessage, counted_trackEvent,
    counted_update.
Qed.

Lemma execute_countsFollow d0 e0 st command :
  enableTelemetry settings = true → countsFollow d0 e0 st →
  countsFollow d0 e0 (execute settings st command).
Proof.
  intros Htelemetry Hst.
  assert (countsFollow d0 e0 (enableExtension settings st)) as Henable.
  { unfold countsFollow in *.
    destruct (providerDisposable st) eqn:Eprovider.
    - unfold enableExtension. rewrite Eprovider. cbn [negb].
      rewrite !counted_showInformationMessage.
      change (providerDisposable (showInformationMessage _ st))
        with (providerDisposable st).
      by rewrite Eprovider.
    - rewrite !enableExtension_counts, enableExtension_registers,
        Htelemetry by done.
      rewrite bool_decide_eq_false_2 by done.
      rewrite bool_decide_eq_true_2 by done. cbn [andb]. lia. }
  assert (countsFollow d0 e0 (disableExtension settings st)) as Hdisable.
  { unfold countsFollow in *.
    destruct (providerDisposable st) eqn:Eprovider.
    - rewrite !disableExtension_counts, disableExtension_unregisters,
        Htelemetry by done.
      rewrite bool_decide_eq_true_2 by done.
      rewrite bool_decide_eq_false_2 by done. cbn [andb]. lia.
    - unfold disableExtension. rewrite Eprovider.
      rewrite !counted_showInformationMessage.
      change (providerDisposable (showInformationMessage _ st))
        with (providerDisposable st).
      by rewrite Eprovider. }
  destruct command; cbn [execute]; [done|done|].
  unfold toggle. by destruct (includes _ _).
Qed.

(** X24: with telemetry on, the counters of the events
    [extension_disabled] and [extension_enabled] have grown by the same
    amount since activation while the providers are registered, and the
    first by one more while they are not. *)
Theorem telemetry_counts_follow_registration item counts events :
  enableTelemetry settings = true →
  let before := loaded item counts in
  let st := run settings events (activate settings before) in
  counted "extension_disabled" st + counted "extension_enabled" before
  = counted "extension_enabled" st + counted "extension_disabled" before
    + (if providerDisposable st then 0 else 1).
Proof.
  intros Htelemetry before st.
  change (countsFollow (counted "extension_disabled" before)
            (counted "extension_enabled" before) st).
  subst st.
  assert (countsFollow (counted "extension_disabled" before)
            (counted "extension_enabled" before) (activate settings before))
    as Hstart.
  { unfold countsFollow, activate. rewrite !counted_update.
    change (counted ?n (registerProviders settings ?s)) with (counted n s).
    rewrite !counted_update.
    replace (providerDisposable _) with true
      by (unfold update; by repeat case_match).
    lia. }
  generalize dependent (activate settings before). intros st.
  revert st. induction events as [|e events IH]; intros st Hst; [done|].
  cbn [run fold_left]. apply IH.
  destruct e as [command|message|]; cbn [step].
  - by apply execute_countsFollow.
  - done.
  - unfold messageTimeoutFires. by destruct (messageTimeout st).
Qed.

End LifecycleFacts.

Section LifecycleExamples.

Import Lifecycle.

Lemma toggle_flips_registration_witness :
  let settings :=
    {| showStatusBar := true; enableMultilineCompletions := true;
       enableCodeActions := true; enableTelemetry := true |} in
  let before := loaded {| text := []; tooltip := []; visible := false |} ∅ in
  providerDisposable
    (toggle settings (run settings [Run Disable] (activate settings before)))
  = true.
Proof.
  intros settings before.
  destruct (toggle_flips_registration settings before [Disable]) as [_ Hflip];
    [reflexivity|].
  cbn [fmap list_fmap] in Hflip. rewrite Hflip. reflexivity.
Defined.

Lemma nothing_registered_when_disabled_witness :
  let settings :=
    {| showStatusBar := true; enableMultilineCompletions := true;
       enableCodeActions := true; enableTelemetry := true |} in
  let before := loaded {| text := []; tooltip := []; visible := false |} ∅ in
  multilineProviderDisposable
    (run settings [Run Disable] (activate settings before)) = false.
Proof.
  intros settings before.
  destruct (nothing_registered_when_disabled settings
              {| text := []; tooltip := []; visible := false |} ∅
              [Run Disable]) as [Hmultiline _]; [reflexivity|].
  exact Hmultiline.
Defined.

Lemma toggle_cannot_enable_after_message_witness :
  let settings :=
    {| showStatusBar := true; enableMultilineCompletions := true;
       enableCodeActions := true; enableTelemetry := true |} in
  let before := loaded {| text := []; tooltip := []; visible := false |} ∅ in
  let disabled := run settings [Run Disable] (activate settings before) in
  providerDisposable
    (toggle settings
       (toggle settings (showMessage (str "Rate limit exceeded") disabled)))
  = false.
Proof.
  intros settings before disabled.
  apply (toggle_cannot_enable_after_message settings disabled
           (str "Rate limit exceeded") 2); reflexivity.
Defined.

Lemma telemetry_counts_follow_registration_witness :
  let settings :=
    {| showStatusBar := true; enableMultilineCompletions := true;
       enableCodeActions := true; enableTelemetry := true |} in
  let before := loaded {| text := []; tooltip := []; visible := false |} ∅ in
  let st :=
    run settings [Run Disable; Run Enable; Run Toggle]
      (activate settings before) in
  counted "extension_disabled" st = counted "extension_enabled" st + 1.
Proof.
  intros settings before st.
  pose proof (telemetry_counts_follow_registration settings
                {| text := []; tooltip := []; visible := false |} ∅
                [Run Disable; Run Enable; Run Toggle] eq_refl) as Hcounts.
  cbv zeta in Hcounts. fold settings before st in Hcounts.
  replace (providerDisposable st) with false in Hcounts by (by vm_compute).
  change (counted "extension_enabled" before) with 0 in Hcounts.
  change (counted "extension_disabled" before) with 0 in Hcounts.
  lia.
Defined.

End LifecycleExamples.

Section RequestExamples.

Import Utils ModelManager InlineProvider.

Lemma prompts_distinguish_requests_witness :
  buildInlineCompletionPrompt (str "foo.") (str "javascript")
  ≠ buildMultilineCompletionPrompt (str "foo.") (str "javascript").
Proof.
  apply (prompts_distinguish_requests (str "foo.") (str "foo.")
           (str "javascript") (str "javascript")).
Defined.

Lemma provider_sends_nothing_upstream_itself_witness :
  let ext := {| utils := initial; genAI := false |} in
  upstreamCalls (utils (snd (Samples.sampleRequest ext))) = [].
Proof.
  intros ext.
  pose proof (provider_sends_nothing_upstream_itself ext
                (defaults (str "key")) Samples.sampleWorkspace
                Samples.sampleDocument Samples.samplePosition Automatic
                false) as Hframe.
  unfold Samples.sampleRequest.
  destruct (provideInlineCompletionItems _ _ _ _ _ _ _) as [reply ext'].
  cbn [snd]. by destruct Hframe as (-> & _).
Defined.

End RequestExamples.
